(** * Dependency graph of the model repository manager

    A shallow embedding of [ModelRepositoryManager::DependencyNode] and
    [ModelRepositoryManager::DependencyGraph] from
    [src/model_repository_manager.h], and the properties of its mutators
    ([AddNodes], [UpdateNodes], [RemoveNodes]), of [FindNode] and of
    [UncheckDownstream].

    The C++ code mutates three maps through references and follows raw
    [DependencyNode*] pointers; the embedding threads one [Graph] record
    holding the three maps through a small state-and-error monad, in which
    the undefined behaviours of the source (dereferencing [end()], a null
    [ModelInfo*] or a dangling node pointer) are explicit outcomes.

    A loop of the source over a [std::set] or a [std::unordered_map] is a
    fold over the [elements] of the [gset] or of the domain of the [gmap]
    that models it.  The order of the source (by identifier, by address, by
    hash) is not fixed by the header; the proofs use nothing of the order
    of [elements] but that no element occurs twice. *)

From stdpp Require Import base gmap sets fin_sets fin_maps list strings.

Set Default Proof Using "Type".
Set Warnings "-clear-no-such-hyp".

(** ** Identifiers *)

(** [ModelIdentifier]: a namespace and a name; equality is over both. *)
Record ModelIdentifier := ModelId { namespace_ : string; name_ : string }.

#[global] Instance ModelIdentifier_eq_dec : EqDecision ModelIdentifier.
Proof. solve_decision. Defined.

#[global] Instance ModelIdentifier_countable : Countable ModelIdentifier.
Proof.
  refine (inj_countable' (λ i, (namespace_ i, name_ i))
                         (λ p, ModelId p.1 p.2) _).
  by intros [??].
Defined.

(** The graph owns every node through a [unique_ptr] stored under the
    node's identifier, so a live [DependencyNode*] is determined by the key
    it is owned under: a node pointer is modelled by that key.  A pointer
    whose key is not in the graph is dangling, and following it stops the
    run.  In a graph with edge reciprocity (below) no stored pointer
    dangles, so none outlives its node to meet a later node under the same
    key. *)
Abbreviation ptr := ModelIdentifier (only parsing).

(** [Status] of [status.h] (not part of this header): only [Status::Success]
    is written by the graph code; every other status is an error with its
    message. *)
Inductive Status := Success | Error (msg : string).

(** Predefined reason strings *)
Definition MODEL_READY_REASON_DUPLICATE : string :=
  "model appears in two or more repositories".

(** Modelled from the spec: the poller's verdict on a model name
    ([Poll] is in [model_repository_manager.cc], which is not among the
    sources).  [repositories] lists, per repository, the model names found
    in it.  With namespacing disabled a name found in two or more
    repositories is reported with the duplicate reason; with namespacing
    enabled the identifiers differ and nothing is reported.
    [repositories_with] counts the repositories that hold [name]. *)
Definition repositories_with (name : string)
    (repositories : list (list string)) : nat :=
  length (filter (λ models, name ∈ models) repositories).

(** Modelled from the spec: the reason [Poll] reports for [name], [None]
    when it reports none. *)
Definition poll_reason (enable_model_namespacing : bool)
    (repositories : list (list string)) (name : string) : option string :=
  if enable_model_namespacing then None
  else if decide (2 ≤ repositories_with name repositories)
       then Some MODEL_READY_REASON_DUPLICATE
       else None.

(** Why a run stops without a result: the three undefined behaviours the
    source can reach, and the exhaustion of the recursion budget of the
    embedding ([NoFuel] is shown below never to happen). *)
Inductive stop := NullModelInfo | EndIterator | DanglingNode | NoFuel.

Inductive outcome (A : Type) := Ret (a : A) | Stop (s : stop).
Arguments Ret {A} a.
Arguments Stop {A} s.

Section DependencyGraph.

(** [inference::ModelConfig] comes from [model_config.pb.h]; the graph code
    only copies it. *)
Context {ModelConfig : Type}.

(** The two members of the private [ModelInfo] that the graph reads. *)
Record ModelInfo := {
  info_model_config_ : ModelConfig;
  info_explicitly_load_ : bool
}.

(** ** DependencyNode *)

Record DependencyNode := {
  model_id_ : ModelIdentifier;
  status_ : Status;
  checked_ : bool;
  explicitly_load_ : bool;
  model_config_ : ModelConfig;
  loaded_versions_ : gset Z;
  missing_upstreams_ : gset string;
  fuzzy_matched_upstreams_ : gset string;
  upstreams_ : gmap ptr (gset Z);
  downstreams_ : gset ptr
}.

Definition set_flags (s : Status) (c : bool) (n : DependencyNode) :=
  {| model_id_ := model_id_ n; status_ := s; checked_ := c;
     explicitly_load_ := explicitly_load_ n;
     model_config_ := model_config_ n;
     loaded_versions_ := loaded_versions_ n;
     missing_upstreams_ := missing_upstreams_ n;
     fuzzy_matched_upstreams_ := fuzzy_matched_upstreams_ n;
     upstreams_ := upstreams_ n; downstreams_ := downstreams_ n |}.

Definition set_upstreams (u : gmap ptr (gset Z)) (n : DependencyNode) :=
  {| model_id_ := model_id_ n; status_ := status_ n; checked_ := checked_ n;
     explicitly_load_ := explicitly_load_ n;
     model_config_ := model_config_ n;
     loaded_versions_ := loaded_versions_ n;
     missing_upstreams_ := missing_upstreams_ n;
     fuzzy_matched_upstreams_ := fuzzy_matched_upstreams_ n;
     upstreams_ := u; downstreams_ := downstreams_ n |}.

Definition set_downstreams (d : gset ptr) (n : DependencyNode) :=
  {| model_id_ := model_id_ n; status_ := status_ n; checked_ := checked_ n;
     explicitly_load_ := explicitly_load_ n;
     model_config_ := model_config_ n;
     loaded_versions_ := loaded_versions_ n;
     missing_upstreams_ := missing_upstreams_ n;
     fuzzy_matched_upstreams_ := fuzzy_matched_upstreams_ n;
     upstreams_ := upstreams_ n; downstreams_ := d |}.

(** [DependencyNode(model_id)] followed by the two assignments from the
    looked-up [ModelInfo] that [AddNodes] performs on the fresh node (the
    constructor itself leaves [explicitly_load_] uninitialised). *)
Definition added_node (model_id : ModelIdentifier) (info : ModelInfo) :=
  {| model_id_ := model_id; status_ := Success; checked_ := false;
     explicitly_load_ := info_explicitly_load_ info;
     model_config_ := info_model_config_ info;
     loaded_versions_ := ∅; missing_upstreams_ := ∅;
     fuzzy_matched_upstreams_ := ∅; upstreams_ := ∅; downstreams_ := ∅ |}.


Definition DisconnectUpstream (upstream : ptr) (n : DependencyNode) :=
  set_upstreams (delete upstream (upstreams_ n)) n.

Definition DisconnectDownstream (downstream : ptr) (n : DependencyNode) :=
  set_downstreams (downstreams_ n ∖ {[downstream]}) n.

(** The assignments at the end of the loop body of [UpdateNodes]. *)
Definition refresh_node (info : ModelInfo) (n : DependencyNode) :=
  {| model_id_ := model_id_ n; status_ := Success; checked_ := false;
     explicitly_load_ := info_explicitly_load_ info;
     model_config_ := info_model_config_ info;
     loaded_versions_ := loaded_versions_ n;
     missing_upstreams_ := missing_upstreams_ n;
     fuzzy_matched_upstreams_ := fuzzy_matched_upstreams_ n;
     upstreams_ := ∅; downstreams_ := downstreams_ n |}.

(** ** The graph state *)

(** The three maps the [DependencyGraph] holds by reference:
    [dependency_graph_], [global_map_] and [missing_nodes_]. *)
Record Graph := {
  graph_ref_ : gmap ModelIdentifier DependencyNode;
  global_map_ref_ : gmap string (gset ModelIdentifier);
  missing_nodes_ref_ : gmap string (gset ModelIdentifier)
}.

Definition with_graph (f : gmap ModelIdentifier DependencyNode →
                           gmap ModelIdentifier DependencyNode) (g : Graph) :=
  {| graph_ref_ := f (graph_ref_ g);
     global_map_ref_ := global_map_ref_ g;
     missing_nodes_ref_ := missing_nodes_ref_ g |}.

Definition with_missing (f : gmap string (gset ModelIdentifier) →
                             gmap string (gset ModelIdentifier)) (g : Graph) :=
  {| graph_ref_ := graph_ref_ g;
     global_map_ref_ := global_map_ref_ g;
     missing_nodes_ref_ := f (missing_nodes_ref_ g) |}.

(** ** State and error monad *)

Definition M (A : Type) : Type := Graph → outcome (A * Graph).

Definition ret {A} (a : A) : M A := λ g, Ret (a, g).

Definition bind {A B} (m : M A) (f : A → M B) : M B :=
  λ g, match m g with
       | Ret (a, g') => f a g'
       | Stop s => Stop s
       end.

Definition fail {A} (s : stop) : M A := λ _, Stop s.

Definition get : M Graph := λ g, Ret (g, g).

Definition modify (f : Graph → Graph) : M unit := λ g, Ret (tt, f g).

Notation "x <- m ;; k" := (bind m (λ x, k))
  (at level 100, m at next level, right associativity).
Notation "m ;;; k" := (bind m (λ _, k))
  (at level 100, right associativity).

(** A [for] loop over a container, with its local variables as accumulator. *)
Fixpoint foldM {A B} (l : list A) (f : B → A → M B) (b : B) : M B :=
  match l with
  | [] => ret b
  | x :: l' => b' <- f b x ;; foldM l' f b'
  end.

Definition for_each {A} (l : list A) (f : A → M unit) : M unit :=
  foldM l (λ _ x, f x) tt.

(** Reading and writing a node through a pointer. *)
Definition deref (p : ptr) : M DependencyNode :=
  λ g, match graph_ref_ g !! p with
       | Some n => Ret (n, g)
       | None => Stop DanglingNode
       end.

Definition update_node (p : ptr) (f : DependencyNode → DependencyNode)
    : M unit :=
  n <- deref p ;; modify (with_graph (<[p := f n]>)).

(** [mit = missing_nodes_ref_.find(model_name); mit->second.erase(id)]: the
    iterator is used without a comparison with [end()]. *)
Definition erase_waiter (id : ModelIdentifier) (model_name : string)
    : M unit :=
  λ g, match missing_nodes_ref_ g !! model_name with
       | Some s => Ret (tt, with_missing (<[model_name := s ∖ {[id]}]>) g)
       | None => Stop EndIterator
       end.

(** ** DependencyGraph *)

(** [FindNode]: the returned pointer, [None] for [nullptr]. *)
Definition FindNode (model_id : ModelIdentifier) (allow_fuzzy_match : bool)
    (g : Graph) : option ptr :=
  match graph_ref_ g !! model_id with
  | Some _ => Some model_id
  | None =>
    if allow_fuzzy_match then
      match global_map_ref_ g !! name_ model_id with
      | Some ids =>
        if decide (size ids = 1) then
          match elements ids with
          | first :: _ =>
            match graph_ref_ g !! first with
            | Some _ => Some first
            | None => None
            end
          | [] => None
          end
        else None
      | None => None
      end
    else None
  end.

(** The node a pointer returned by [FindNode] points to. *)
Definition node_at (g : Graph) (p : option ptr) : option DependencyNode :=
  p ≫= λ k, graph_ref_ g !! k.

(** The body of the loop of [UncheckDownstream]; [recurse] is the recursive
    call. *)
Definition UncheckDownstream_body (recurse : gset ptr → M unit) (p : ptr)
    : M unit :=
  node <- deref p ;;
  if checked_ node then
    modify (with_graph (<[p := set_flags Success false node]>)) ;;;
    recurse (downstreams_ node)
  else ret tt.

(** [UncheckDownstream]: the recursion descends only through nodes it has
    just switched from checked to unchecked, so its depth is bounded by the
    number of nodes; [fuel] is that bound. *)
Fixpoint UncheckDownstream_rec (fuel : nat) (downstreams : gset ptr)
    : M unit :=
  match fuel with
  | O => fail NoFuel
  | S fuel' =>
    for_each (elements downstreams)
      (UncheckDownstream_body (UncheckDownstream_rec fuel'))
  end.

Definition UncheckDownstream (downstreams : gset ptr) : M unit :=
  λ g, UncheckDownstream_rec (S (size (graph_ref_ g))) downstreams g.

(** The body of the first loop of [RemoveNode]: the node is removed from
    the downstreams of one of its upstreams, whose identifier is collected. *)
Definition disconnect_upstream (model_id : ModelIdentifier)
    (upstreams : gset ModelIdentifier) (upstream : ptr)
    : M (gset ModelIdentifier) :=
  update_node upstream (DisconnectDownstream model_id) ;;;
  upstream_node <- deref upstream ;;
  ret ({[model_id_ upstream_node]} ∪ upstreams).

(** [RemoveNode].  The local set [downstreams] is declared and returned but
    never filled, so the second component of the result is always empty.
    [node] is the node as found; its downstreams are read again, as [node'],
    after the first loop, which erases from them when the node is its own
    upstream.  The upstreams and the missing upstreams of the node are not
    written before the loops over them. *)
Definition RemoveNode (model_id : ModelIdentifier)
    : M (gset ModelIdentifier * gset ModelIdentifier) :=
  g <- get ;;
  match graph_ref_ g !! model_id with
  | None => ret (∅, ∅)
  | Some node =>
    upstreams <- foldM (elements (dom (upstreams_ node)))
                   (disconnect_upstream model_id) ∅ ;;
    node' <- deref model_id ;;
    UncheckDownstream (downstreams_ node') ;;;
    for_each (elements (downstreams_ node'))
      (λ downstream, update_node downstream (DisconnectUpstream model_id)) ;;;
    for_each (elements (missing_upstreams_ node)) (erase_waiter model_id) ;;;
    modify (with_graph (delete model_id)) ;;;
    ret (upstreams, ∅)
  end.

(** The test of [RemoveNodes] on a former upstream after the removal. *)
Definition orphaned (g : Graph) (upstream : ModelIdentifier) : bool :=
  match node_at g (FindNode upstream false g) with
  | Some unode =>
    bool_decide (downstreams_ unode = ∅) && negb (explicitly_load_ unode)
  | None => false
  end.

(** The body of the [for] loop of [RemoveNodes] over [curr_removal]; the
    accumulator is [(next_removal, all_affected_nodes, all_removed_nodes)]. *)
Definition RemoveNodes_body (cascading_removal : bool)
    (acc : gset ModelIdentifier * gset ModelIdentifier * gset ModelIdentifier)
    (model_id : ModelIdentifier)
    : M (gset ModelIdentifier * gset ModelIdentifier * gset ModelIdentifier) :=
  let '(next_removal, all_affected_nodes, all_removed_nodes) := acc in
  affected_nodes <- RemoveNode model_id ;;
  g <- get ;;
  let next_removal' :=
    if cascading_removal
    then filter (λ u, orphaned g u = true) affected_nodes.1 ∪ next_removal
    else next_removal in
  ret (next_removal',
       (affected_nodes.2 ∪ all_affected_nodes) ∖ {[model_id]},
       {[model_id]} ∪ all_removed_nodes).

(** One pass of the [while] loop of [RemoveNodes]. *)
Definition removal_wave (cascading_removal : bool)
    (curr_removal : gset ModelIdentifier)
    (all_affected_nodes all_removed_nodes : gset ModelIdentifier)
    : M (gset ModelIdentifier * gset ModelIdentifier * gset ModelIdentifier) :=
  foldM (elements curr_removal) (RemoveNodes_body cascading_removal)
    (∅, all_affected_nodes, all_removed_nodes).

(** The [while (!curr_removal.empty())] loop; every pass that queues a next
    wave has erased a node, which bounds the passes by [fuel]. *)
Fixpoint RemoveNodes_loop (fuel : nat) (cascading_removal : bool)
    (curr_removal all_affected_nodes all_removed_nodes : gset ModelIdentifier)
    : M (gset ModelIdentifier * gset ModelIdentifier) :=
  if decide (curr_removal = ∅) then ret (all_affected_nodes, all_removed_nodes)
  else
    match fuel with
    | O => fail NoFuel
    | S fuel' =>
      r <- removal_wave cascading_removal curr_removal
             all_affected_nodes all_removed_nodes ;;
      RemoveNodes_loop fuel' cascading_removal r.1.1 r.1.2 r.2
    end.

Definition RemoveNodes (nodes : gset ModelIdentifier)
    (cascading_removal : bool)
    : M (gset ModelIdentifier * gset ModelIdentifier) :=
  λ g, RemoveNodes_loop (S (size (graph_ref_ g))) cascading_removal
         nodes ∅ ∅ g.

(** The body of the loop of [UpdateNodes]; [model_manager] is
    [GetModelInfo], [None] when it leaves the [ModelInfo*] null.  [node] is
    the node as found: none of the three sets the body traverses is written
    before its traversal; the final assignments go to the node as it is
    then. *)
Definition UpdateNodes_body
    (model_manager : ModelIdentifier → option ModelInfo)
    (updated_nodes : gset ModelIdentifier) (model_id : ModelIdentifier)
    : M (gset ModelIdentifier) :=
  g <- get ;;
  match graph_ref_ g !! model_id with
  | None => ret updated_nodes
  | Some node =>
    UncheckDownstream (downstreams_ node) ;;;
    for_each (elements (dom (upstreams_ node)))
      (λ upstream, update_node upstream (DisconnectDownstream model_id)) ;;;
    for_each (elements (missing_upstreams_ node)) (erase_waiter model_id) ;;;
    match model_manager model_id with
    | None => fail NullModelInfo
    | Some info =>
      update_node model_id (refresh_node info) ;;;
      ret ({[model_id]} ∪ updated_nodes)
    end
  end.

Definition UpdateNodes (nodes : gset ModelIdentifier)
    (model_manager : ModelIdentifier → option ModelInfo)
    : M (gset ModelIdentifier) :=
  foldM (elements nodes) (UpdateNodes_body model_manager) ∅.

(** [graph_ref_.emplace]: no effect when the key is already present. *)
Definition try_insert (model_id : ModelIdentifier) (n : DependencyNode)
    (m : gmap ModelIdentifier DependencyNode) :=
  match m !! model_id with
  | Some _ => m
  | None => <[model_id := n]> m
  end.

Definition emplace (model_id : ModelIdentifier) (n : DependencyNode)
    : M unit :=
  modify (with_graph (try_insert model_id n)).

(** The body of the loop of [AddNodes]. *)
Definition AddNodes_body
    (model_manager : ModelIdentifier → option ModelInfo)
    (affected_nodes : gset ModelIdentifier) (model_id : ModelIdentifier)
    : M (gset ModelIdentifier) :=
  match model_manager model_id with
  | None => fail NullModelInfo
  | Some info =>
    emplace model_id (added_node model_id info) ;;;
    g <- get ;;
    match missing_nodes_ref_ g !! name_ model_id with
    | None => ret ({[model_id]} ∪ affected_nodes)
    | Some waiting =>
      foldM (elements waiting)
        (λ (affected_nodes : gset ModelIdentifier) dependent_node_id,
           g' <- get ;;
           match FindNode dependent_node_id false g' with
           | Some dependent_node =>
             UncheckDownstream {[dependent_node]} ;;;
             ret ({[dependent_node_id]} ∪ affected_nodes)
           | None => ret affected_nodes
           end)
        ({[model_id]} ∪ affected_nodes)
    end
  end.

Definition AddNodes (nodes : gset ModelIdentifier)
    (model_manager : ModelIdentifier → option ModelInfo)
    : M (gset ModelIdentifier) :=
  foldM (elements nodes) (AddNodes_body model_manager) ∅.

(** * Vocabulary of the properties *)

(** ** Views of the graph

    The members of a node read through its identifier; a node that is not in
    the graph has none, so its sets read as empty. *)

Definition node_field {B} (f : DependencyNode → B) (d : B) (g : Graph)
    (k : ptr) : B :=
  from_option f d (graph_ref_ g !! k).

Definition nodes_of (g : Graph) : gset ModelIdentifier := dom (graph_ref_ g).

Definition upstreams_of (g : Graph) (k : ptr) : gset ptr :=
  node_field (λ n, dom (upstreams_ n)) ∅ g k.

Definition downstreams_of (g : Graph) (k : ptr) : gset ptr :=
  node_field downstreams_ ∅ g k.

Definition missing_of (g : Graph) (k : ptr) : gset string :=
  node_field missing_upstreams_ ∅ g k.

Definition explicit_of (g : Graph) (k : ptr) : bool :=
  node_field explicitly_load_ false g k.

(** [waiters[name]] and [by_name[name]], empty when the key is absent. *)
Definition waiters_of (g : Graph) (name : string) : gset ModelIdentifier :=
  default ∅ (missing_nodes_ref_ g !! name).

Definition by_name_of (g : Graph) (name : string) : gset ModelIdentifier :=
  default ∅ (global_map_ref_ g !! name).

(** ** Graph invariants *)

(** Edge reciprocity.  Because the sets of an absent node are empty, the
    equivalence also says that no edge points to a node outside the graph. *)
Definition edge_reciprocity (g : Graph) : Prop :=
  ∀ n u, u ∈ upstreams_of g n ↔ n ∈ downstreams_of g u.

(** Waiter reciprocity, and its two halves. *)
Definition waiter_reciprocity (g : Graph) : Prop :=
  ∀ n name, name ∈ missing_of g n ↔ n ∈ waiters_of g name.

Definition waiters_registered (g : Graph) : Prop :=
  ∀ n name, n ∈ waiters_of g name → name ∈ missing_of g n.

(** Every name a node misses is a key of the waiters map. *)
Definition waiter_keys (g : Graph) : Prop :=
  ∀ n name, name ∈ missing_of g n → name ∈ dom (missing_nodes_ref_ g).

(** Name index coverage. *)
Definition name_index_coverage (g : Graph) : Prop :=
  ∀ id, id ∈ nodes_of g ↔ id ∈ by_name_of g (name_ id).

(** Every node is owned under its own identifier. *)
Definition ids_ok (g : Graph) : Prop :=
  ∀ k n, graph_ref_ g !! k = Some n → model_id_ n = k.

Definition well_formed (g : Graph) : Prop :=
  edge_reciprocity g ∧ waiter_keys g ∧ ids_ok g.

(** ** Weakest preconditions

    [wpx D m Q g]: the run of [m] from [g] either returns a result and a
    state satisfying [Q], or stops for a reason allowed by [D]. *)
Definition wpx {A} (D : stop → Prop) (m : M A) (Q : A → Graph → Prop)
    (g : Graph) : Prop :=
  match m g with
  | Ret (a, g') => Q a g'
  | Stop s => D s
  end.

(** Total and partial correctness. *)
Definition never : stop → Prop := λ _, False.
Definition always : stop → Prop := λ _, True.

(** ** Effects of the inner loops *)

(** The effect of a loop that rewrites the nodes of [l] in place. *)
Definition nodes_mapped (l : list ptr) (F : DependencyNode → DependencyNode)
    (g g' : Graph) : Prop :=
  global_map_ref_ g' = global_map_ref_ g ∧
  missing_nodes_ref_ g' = missing_nodes_ref_ g ∧
  ∀ k, graph_ref_ g' !! k =
       if decide (k ∈ l) then F <$> graph_ref_ g !! k else graph_ref_ g !! k.

(** The effect of the loop that drops the waiter registrations of [id]. *)
Definition waiters_erased (names : list string) (id : ModelIdentifier)
    (g g' : Graph) : Prop :=
  graph_ref_ g' = graph_ref_ g ∧
  global_map_ref_ g' = global_map_ref_ g ∧
  ∀ name, missing_nodes_ref_ g' !! name =
          if decide (name ∈ names)
          then (λ s, s ∖ {[id]}) <$> missing_nodes_ref_ g !! name
          else missing_nodes_ref_ g !! name.

(** ** The effect of [UncheckDownstream] *)

(** What [UncheckDownstream] may do to a node: nothing, or switch it from
    checked to unchecked with a reset status. *)
Definition touched (n n' : DependencyNode) : Prop :=
  n' = n ∨ (checked_ n = true ∧ n' = set_flags Success false n).

Definition unchecked_from (g g' : Graph) : Prop :=
  global_map_ref_ g' = global_map_ref_ g ∧
  missing_nodes_ref_ g' = missing_nodes_ref_ g ∧
  ∀ k, option_Forall2 touched (graph_ref_ g !! k) (graph_ref_ g' !! k).

Definition checked_nodes (g : Graph) : gset ptr :=
  dom (filter (λ kn, checked_ kn.2 = true) (graph_ref_ g)).

(** No downstream pointer reachable from [ds] dangles. *)
Definition down_closed (g : Graph) (ds : gset ptr) : Prop :=
  ds ⊆ nodes_of g ∧ ∀ k, downstreams_of g k ⊆ nodes_of g.

(** ** The effect of one iteration of [UpdateNodes] *)

(** The waiters map after the registrations of [model_id] under [names]
    were erased. *)
Definition erased_from (names : gset string) (model_id : ModelIdentifier)
    (m m' : gmap string (gset ModelIdentifier)) : Prop :=
  ∀ name, m' !! name =
          if decide (name ∈ names)
          then (λ s, s ∖ {[model_id]}) <$> m !! name
          else m !! name.

Definition UpdateNodes_rel (model_id : ModelIdentifier) (info : ModelInfo)
    (ups : gset ptr) (k : ptr) (n n' : DependencyNode) : Prop :=
  ∃ n1, touched n n1 ∧
        n' = (if decide (k = model_id) then refresh_node info else λ x, x)
               ((if decide (k ∈ ups) then DisconnectDownstream model_id
                 else λ x, x) n1).

Definition update_effect (model_id : ModelIdentifier) (info : ModelInfo)
    (g g' : Graph) : Prop :=
  global_map_ref_ g' = global_map_ref_ g ∧
  erased_from (missing_of g model_id) model_id
    (missing_nodes_ref_ g) (missing_nodes_ref_ g') ∧
  ∀ k, option_Forall2
         (UpdateNodes_rel model_id info (upstreams_of g model_id) k)
         (graph_ref_ g !! k) (graph_ref_ g' !! k).

(** ** The effect of [RemoveNode] *)

(** The identifiers read through the pointers of [l]. *)
Definition ids_through (g : Graph) (l : gset ptr)
    (ids : gset ModelIdentifier) : Prop :=
  ∀ x, x ∈ ids ↔
       ∃ u n, u ∈ l ∧ graph_ref_ g !! u = Some n ∧ model_id_ n = x.

Definition RemoveNode_rel (model_id : ModelIdentifier)
    (ups downs : gset ptr) (k : ptr) (n n' : DependencyNode) : Prop :=
  ∃ n1, touched ((if decide (k ∈ ups) then DisconnectDownstream model_id
                  else λ x, x) n) n1 ∧
        n' = (if decide (k ∈ downs) then DisconnectUpstream model_id
              else λ x, x) n1.

Definition remove_effect (model_id : ModelIdentifier) (g g' : Graph) : Prop :=
  global_map_ref_ g' = global_map_ref_ g ∧
  erased_from (missing_of g model_id) model_id
    (missing_nodes_ref_ g) (missing_nodes_ref_ g') ∧
  graph_ref_ g' !! model_id = None ∧
  ∀ k, k ≠ model_id →
       option_Forall2
         (RemoveNode_rel model_id (upstreams_of g model_id)
            (downstreams_of g model_id) k)
         (graph_ref_ g !! k) (graph_ref_ g' !! k).

(** ** The effect of one iteration of [AddNodes] *)

Definition add_effect (model_id : ModelIdentifier) (info : ModelInfo)
    (g g' : Graph) : Prop :=
  unchecked_from
    (with_graph (try_insert model_id (added_node model_id info)) g) g'.

(** No edge of the graph dangles. *)
Definition dangling_free (g : Graph) : Prop :=
  (∀ k, downstreams_of g k ⊆ nodes_of g) ∧
  (∀ k, upstreams_of g k ⊆ nodes_of g).

(** ** Reachable graph states *)

(** One call of a graph mutator that returns. *)
Inductive mutation (g g' : Graph) : Prop :=
  | mutation_add ids mm r :
      AddNodes ids mm g = Ret (r, g') → mutation g g'
  | mutation_update ids mm r :
      UpdateNodes ids mm g = Ret (r, g') → mutation g g'
  | mutation_remove ids c r :
      RemoveNodes ids c g = Ret (r, g') → mutation g g'.

Definition reachable : Graph → Graph → Prop := rtc mutation.

(** ** What [UpdateNodes] leaves in an updated node *)

Definition refreshed (info : ModelInfo) (n : DependencyNode) : Prop :=
  upstreams_ n = ∅ ∧
  model_config_ n = info_model_config_ info ∧
  explicitly_load_ n = info_explicitly_load_ info ∧
  checked_ n = false ∧ status_ n = Success.

Definition names_kept (n n' : DependencyNode) : Prop :=
  missing_upstreams_ n' = missing_upstreams_ n ∧
  fuzzy_matched_upstreams_ n' = fuzzy_matched_upstreams_ n.

(** ** Cascading removal *)

(** The queue of one removal: the former upstreams that are left without
    downstreams and were not explicitly loaded. *)
Definition newly_orphaned (g g' : Graph) (model_id : ModelIdentifier)
    (queued : gset ModelIdentifier) : Prop :=
  ∀ u, u ∈ queued ↔
       u ∈ upstreams_of g model_id ∧ u ∈ nodes_of g' ∧
       downstreams_of g' u = ∅ ∧ explicit_of g' u = false.

(** What a cascading removal has kept of the graph [g] it started from,
    with [pending] the identifiers still to be removed. *)
Definition cascade_inv (g : Graph) (pending : gset ModelIdentifier)
    (g' : Graph) : Prop :=
  well_formed g' ∧
  (∀ u, u ∈ nodes_of g' →
        explicit_of g' u = explicit_of g u ∧
        ∀ d, d ∈ downstreams_of g' u ↔
             d ∈ downstreams_of g u ∧ d ∈ nodes_of g') ∧
  (∀ u, u ∈ nodes_of g' → explicit_of g' u = false →
        downstreams_of g' u = ∅ →
        (∃ d, d ∈ downstreams_of g u ∧ d ∉ nodes_of g') →
        u ∈ pending).

(** The identifiers that a cascading removal of [ids] takes out of [g]: the
    listed ones and, wave after wave, every node that was not explicitly
    loaded and had downstreams, all of which are taken out. *)
Inductive cascaded (g : Graph) (ids : gset ModelIdentifier)
    : ModelIdentifier → Prop :=
  | cascaded_listed u : u ∈ ids → cascaded g ids u
  | cascaded_orphan u :
      u ∈ nodes_of g → explicit_of g u = false →
      downstreams_of g u ≠ ∅ →
      (∀ d, d ∈ downstreams_of g u → cascaded g ids d) →
      cascaded g ids u.

(** ** Decision procedures for the invariants *)

Definition edge_reciprocity_b (g : Graph) : bool :=
  bool_decide
    (set_Forall
       (λ n, set_Forall (λ u, n ∈ downstreams_of g u) (upstreams_of g n) ∧
             set_Forall (λ d, n ∈ upstreams_of g d) (downstreams_of g n))
       (nodes_of g)).

Definition waiter_reciprocity_b (g : Graph) : bool :=
  bool_decide
    (set_Forall
       (λ n, set_Forall (λ name, n ∈ waiters_of g name) (missing_of g n))
       (nodes_of g) ∧
     map_Forall (λ name s, set_Forall (λ n, name ∈ missing_of g n) s)
       (missing_nodes_ref_ g)).

Definition waiter_keys_b (g : Graph) : bool :=
  bool_decide
    (set_Forall (λ n, missing_of g n ⊆ dom (missing_nodes_ref_ g))
       (nodes_of g)).

Definition ids_ok_b (g : Graph) : bool :=
  bool_decide (map_Forall (λ k n, model_id_ n = k) (graph_ref_ g)).

Definition name_index_coverage_b (g : Graph) : bool :=
  bool_decide
    (set_Forall (λ id, id ∈ by_name_of g (name_ id)) (nodes_of g) ∧
     map_Forall
       (λ name s, set_Forall (λ id, name_ id = name → id ∈ nodes_of g) s)
       (global_map_ref_ g)).

Definition well_formed_b (g : Graph) : bool :=
  edge_reciprocity_b g && waiter_keys_b g && ids_ok_b g.

(** ** Checked flags

    [checked_] read through an identifier; a node that is not in the graph
    reads as unchecked. *)
Definition checked_of (g : Graph) (k : ptr) : bool :=
  node_field checked_ false g k.

(** Every downstream of an unchecked node is unchecked: a checked node has
    no unchecked node among the nodes that list it as a downstream. *)
Definition uncheck_closed (g : Graph) : Prop :=
  ∀ k d, d ∈ downstreams_of g k →
         checked_of g k = false → checked_of g d = false.

(** What a run of [UncheckDownstream] from [g] to [g'] has propagated: the
    downstreams of every node it switched are unchecked. *)
Definition propagated (g g' : Graph) : Prop :=
  ∀ k d, d ∈ downstreams_of g k →
         checked_of g k = true → checked_of g' k = false →
         checked_of g' d = false.

Definition uncheck_closed_b (g : Graph) : bool :=
  bool_decide
    (set_Forall
       (λ k, checked_of g k = false →
             set_Forall (λ d, checked_of g d = false) (downstreams_of g k))
       (nodes_of g)).

(** A step of the graph code as the checked flags see it: no downstream
    edge is added, no node becomes checked, and a node that became
    unchecked has only unchecked downstreams. *)
Definition uncheck_step (g g' : Graph) : Prop :=
  (∀ k, downstreams_of g' k ⊆ downstreams_of g k) ∧
  (∀ k, checked_of g k = false → checked_of g' k = false) ∧
  (∀ k, checked_of g' k = false →
        checked_of g k = false ∨
        ∀ d, d ∈ downstreams_of g' k → checked_of g' d = false).

End DependencyGraph.

(** * A concrete graph

    An ensemble [E] in namespace [ns1] that resolved its step [A] across
    namespaces (a fuzzy match) and still waits for a model named [B]. *)

Module Example.

Definition A : ModelIdentifier := ModelId "ns2" "A".
Definition B : ModelIdentifier := ModelId "ns1" "B".
Definition E : ModelIdentifier := ModelId "ns1" "E".

(** The model configuration is immaterial here: a string stands for it. *)
Definition node_A : @DependencyNode string :=
  {| model_id_ := A; status_ := Success; checked_ := true;
     explicitly_load_ := false; model_config_ := "leaf A";
     loaded_versions_ := {[1%Z]}; missing_upstreams_ := ∅;
     fuzzy_matched_upstreams_ := ∅; upstreams_ := ∅;
     downstreams_ := {[E]} |}.

Definition node_E : @DependencyNode string :=
  {| model_id_ := E; status_ := Error "dependency missing: B";
     checked_ := true;
     explicitly_load_ := true; model_config_ := "ensemble E";
     loaded_versions_ := ∅; missing_upstreams_ := {["B"]};
     fuzzy_matched_upstreams_ := {["A"]}; upstreams_ := {[A := {[1%Z]}]};
     downstreams_ := ∅ |}.

Definition graph : @Graph string :=
  {| graph_ref_ := {[A := node_A; E := node_E]};
     global_map_ref_ := {["A" := {[A]}; "E" := {[E]}]};
     missing_nodes_ref_ := {["B" := {[E]}]} |}.

Definition model_manager (id : ModelIdentifier) : option (@ModelInfo string) :=
  Some {| info_model_config_ := "polled " +:+ name_ id;
          info_explicitly_load_ := true |}.

(** The graph after [UpdateNodes {E}]. *)
Definition updated_graph : @Graph string :=
  {| graph_ref_ :=
       {[A := set_downstreams ∅ node_A;
         E := {| model_id_ := E; status_ := Success; checked_ := false;
                 explicitly_load_ := true; model_config_ := "polled E";
                 loaded_versions_ := ∅; missing_upstreams_ := {["B"]};
                 fuzzy_matched_upstreams_ := {["A"]}; upstreams_ := ∅;
                 downstreams_ := ∅ |}]};
     global_map_ref_ := {["A" := {[A]}; "E" := {[E]}]};
     missing_nodes_ref_ := {["B" := ∅]} |}.

(** The graph after [RemoveNodes {E}] with cascading on: [A] is left
    without downstreams and was not explicitly loaded, so the second wave
    removes it. *)
Definition removed_graph : @Graph string :=
  {| graph_ref_ := ∅;
     global_map_ref_ := {["A" := {[A]}; "E" := {[E]}]};
     missing_nodes_ref_ := {["B" := ∅]} |}.

(** The graph after [AddNodes {B}]: the waiter [E] is unchecked. *)
Definition added_graph : @Graph string :=
  {| graph_ref_ :=
       {[A := node_A;
         B := added_node B {| info_model_config_ := "polled B";
                              info_explicitly_load_ := true |};
         E := set_flags Success false node_E]};
     global_map_ref_ := {["A" := {[A]}; "E" := {[E]}]};
     missing_nodes_ref_ := {["B" := {[E]}]} |}.

(** The example graph without the key ["B"] in the waiters map. *)
Definition unregistered_graph : @Graph string :=
  {| graph_ref_ := graph_ref_ graph;
     global_map_ref_ := global_map_ref_ graph;
     missing_nodes_ref_ := ∅ |}.

(** An ensemble [E] over a preprocessing model [Pre], which itself uses a
    tokenizer [Tok], a classifier [Cls] that was loaded explicitly, and a
    detector [Det] that a second ensemble [Ens] uses as well. *)
Definition Pre : ModelIdentifier := ModelId "ns1" "Pre".
Definition Tok : ModelIdentifier := ModelId "ns1" "Tok".
Definition Cls : ModelIdentifier := ModelId "ns1" "Cls".
Definition Det : ModelIdentifier := ModelId "ns1" "Det".
Definition Ens : ModelIdentifier := ModelId "ns1" "Ens".

Definition model (id : ModelIdentifier) (explicitly_load : bool)
    (upstreams downstreams : gset ModelIdentifier) : @DependencyNode string :=
  {| model_id_ := id; status_ := Success; checked_ := true;
     explicitly_load_ := explicitly_load; model_config_ := name_ id;
     loaded_versions_ := {[1%Z]}; missing_upstreams_ := ∅;
     fuzzy_matched_upstreams_ := ∅;
     upstreams_ := gset_to_gmap {[1%Z]} upstreams;
     downstreams_ := downstreams |}.

Definition cascade_graph : @Graph string :=
  {| graph_ref_ :=
       {[Tok := model Tok false ∅ {[Pre]};
         Pre := model Pre false {[Tok]} {[E]};
         Cls := model Cls true ∅ {[E]};
         Det := model Det false ∅ {[E; Ens]};
         E := model E true {[Pre; Cls; Det]} ∅;
         Ens := model Ens true {[Det]} ∅]};
     global_map_ref_ := ∅;
     missing_nodes_ref_ := ∅ |}.

(** The graph after [RemoveNodes {E}] with cascading on: [Pre] and then
    [Tok] are removed with [E]; [Cls] was explicitly loaded and [Det] keeps
    the downstream [Ens], so they stay. *)
Definition cascade_survivors : @Graph string :=
  {| graph_ref_ :=
       {[Cls := model Cls true ∅ ∅;
         Det := model Det false ∅ {[Ens]};
         Ens := model Ens true {[Det]} ∅]};
     global_map_ref_ := ∅;
     missing_nodes_ref_ := ∅ |}.

(** [cascade_graph] after [UncheckDownstream {Pre}]: [Pre] and its
    downstream [E] are unchecked. *)
Definition unchecked_cascade_graph : @Graph string :=
  with_graph (alter (set_flags Success false) Pre ∘
              alter (set_flags Success false) E) cascade_graph.

(** A model manager that finds no model info. *)
Definition no_model_info (id : ModelIdentifier)
    : option (@ModelInfo string) := None.

End Example.

(** * Properties *)

Section DependencyGraph_properties.

Context {ModelConfig : Type}.

Implicit Types (g : @Graph ModelConfig) (n node : @DependencyNode ModelConfig)
  (info : @ModelInfo ModelConfig).

(** ** Rules of the weakest precondition *)

Lemma wpx_ret {A} D (a : A) Q g : Q a g → wpx D (ret a) Q g.
Proof. done. Qed.

Lemma wpx_bind {A B} D (m : M A) (f : A → M B) Q g :
  wpx D m (λ a g', wpx D (f a) Q g') g → wpx D (bind m f) Q g.
Proof. unfold wpx, bind. by destruct (m g) as [[a g']|s]. Qed.

Lemma wpx_fail {A} D s (Q : A → Graph → Prop) g : D s → wpx D (fail s) Q g.
Proof. done. Qed.

Lemma wpx_get D (Q : Graph → Graph → Prop) g : Q g g → wpx D get Q g.
Proof. done. Qed.

Lemma wpx_modify D f (Q : unit → Graph → Prop) g :
  Q tt (f g) → wpx D (modify f) Q g.
Proof. done. Qed.

Lemma wpx_mono {A} (D D' : stop → Prop) (m : M A) (Q Q' : A → Graph → Prop) g :
  (∀ s, D s → D' s) → (∀ a g', Q a g' → Q' a g') →
  wpx D m Q g → wpx D' m Q' g.
Proof.
  unfold wpx. intros HD HQ. destruct (m g) as [[a g']|s]; auto.
Qed.

Lemma wpx_ret_inv {A} D (m : M A) Q g a g' :
  wpx D m Q g → m g = Ret (a, g') → Q a g'.
Proof. unfold wpx. intros H E. by rewrite E in H. Qed.

Lemma wpx_stop_inv {A} D (m : M A) Q g s :
  wpx D m Q g → m g = Stop s → D s.
Proof. unfold wpx. intros H E. by rewrite E in H. Qed.

Lemma wpx_never {A} (m : M A) Q g :
  wpx never m Q g → ∃ a g', m g = Ret (a, g') ∧ Q a g'.
Proof. unfold wpx. destruct (m g) as [[a g']|s]; [eauto | done]. Qed.

(** Loops: [I rest b] is the invariant before the elements [rest] are
    processed. *)
Lemma wpx_foldM {A B} D (I : list A → B → Graph → Prop)
    (l : list A) (f : B → A → M B) b g :
  I l b g →
  (∀ x rest b g, I (x :: rest) b g →
     wpx D (f b x) (λ b' g', I rest b' g') g) →
  wpx D (foldM l f b) (λ b' g', I [] b' g') g.
Proof.
  intros HI Hstep. revert b g HI. induction l as [|x l IH]; intros b g HI.
  - by apply wpx_ret.
  - simpl. apply wpx_bind. eapply wpx_mono; [done| |by apply Hstep].
    simpl. intros b' g' HI'. by apply IH.
Qed.

(** ** Primitive steps *)

Lemma wpx_deref D p (Q : DependencyNode → Graph → Prop) g :
  (∀ n, graph_ref_ g !! p = Some n → Q n g) →
  (graph_ref_ g !! p = None → D DanglingNode) →
  wpx D (deref p) Q g.
Proof.
  unfold wpx, deref. intros HQ HD. destruct (graph_ref_ g !! p); auto.
Qed.

Lemma wpx_update_node D p F (Q : unit → Graph → Prop) g :
  (∀ n, graph_ref_ g !! p = Some n → Q tt (with_graph (<[p := F n]>) g)) →
  (graph_ref_ g !! p = None → D DanglingNode) →
  wpx D (update_node p F) Q g.
Proof.
  intros HQ HD. apply wpx_bind, wpx_deref; [|done].
  intros n Hn. by apply wpx_modify, HQ.
Qed.

Lemma wpx_erase_waiter D id name (Q : unit → Graph → Prop) g :
  (∀ s, missing_nodes_ref_ g !! name = Some s →
        Q tt (with_missing (<[name := s ∖ {[id]}]>) g)) →
  (missing_nodes_ref_ g !! name = None → D EndIterator) →
  wpx D (erase_waiter id name) Q g.
Proof.
  unfold wpx, erase_waiter. intros HQ HD.
  destruct (missing_nodes_ref_ g !! name); auto.
Qed.

Lemma nodes_mapped_cons u l F n g g' :
  u ∉ l → graph_ref_ g !! u = Some n →
  nodes_mapped l F (with_graph (<[u := F n]>) g) g' →
  nodes_mapped (u :: l) F g g'.
Proof.
  intros Hu Hn (Hg & Hm & Hk). split_and!; [done..|].
  intros k. rewrite Hk. simpl. destruct (decide (k = u)) as [->|Hne].
  - rewrite decide_False by done. rewrite decide_True by set_solver.
    by rewrite lookup_insert_eq, Hn.
  - rewrite lookup_insert_ne by done.
    destruct (decide (k ∈ l)).
    + by rewrite decide_True by set_solver.
    + by rewrite decide_False by set_solver.
Qed.

Lemma wpx_for_each_update D l F (Q : unit → Graph → Prop) g :
  NoDup l →
  (∀ g', nodes_mapped l F g g' → Q tt g') →
  ((∃ u, u ∈ l ∧ graph_ref_ g !! u = None) → D DanglingNode) →
  wpx D (for_each l (λ u, update_node u F)) Q g.
Proof.
  intros Hnd. revert g Q. induction Hnd as [|u l Hu Hnd IH]; intros g Q HQ HD.
  - apply wpx_ret, HQ. split_and!; [done..|]. intros k.
    by rewrite decide_False by set_solver.
  - unfold for_each. simpl. apply wpx_bind, wpx_update_node.
    + intros n Hn. apply IH.
      * intros g' Hg'. eapply HQ, nodes_mapped_cons; eauto.
      * intros (v & Hv & Hnone). apply HD. exists v. split; [set_solver|].
        simpl in Hnone. destruct (decide (v = u)) as [->|Hne].
        -- by rewrite lookup_insert_eq in Hnone.
        -- by rewrite lookup_insert_ne in Hnone.
    + intros Hnone. apply HD. exists u. split; [set_solver|done].
Qed.

Lemma wpx_for_each_erase D names id (Q : unit → Graph → Prop) g :
  NoDup names →
  (∀ g', waiters_erased names id g g' → Q tt g') →
  ((∃ name, name ∈ names ∧ missing_nodes_ref_ g !! name = None) →
   D EndIterator) →
  wpx D (for_each names (erase_waiter id)) Q g.
Proof.
  intros Hnd. revert g Q.
  induction Hnd as [|x l Hx Hnd IH]; intros g Q HQ HD.
  - apply wpx_ret, HQ. split_and!; [done..|]. intros k.
    by rewrite decide_False by set_solver.
  - unfold for_each. simpl. apply wpx_bind, wpx_erase_waiter.
    + intros s Hs. apply IH.
      * intros g' (Hg & Hm & Hk). apply HQ. split_and!; [done..|].
        intros k. rewrite Hk. simpl. destruct (decide (k = x)) as [->|Hne].
        -- rewrite decide_False by done. rewrite decide_True by set_solver.
           by rewrite lookup_insert_eq, Hs.
        -- rewrite lookup_insert_ne by done.
           destruct (decide (k ∈ l)).
           ++ by rewrite decide_True by set_solver.
           ++ by rewrite decide_False by set_solver.
      * intros (v & Hv & Hnone). apply HD. exists v. split; [set_solver|].
        simpl in Hnone. destruct (decide (v = x)) as [->|Hne].
        -- by rewrite lookup_insert_eq in Hnone.
        -- by rewrite lookup_insert_ne in Hnone.
    + intros Hnone. apply HD. exists x. split; [set_solver|done].
Qed.

(** ** [UncheckDownstream] *)

Lemma elem_of_nodes_of g k : k ∈ nodes_of g ↔ is_Some (graph_ref_ g !! k).
Proof. apply elem_of_dom. Qed.

Lemma elem_of_checked_nodes g k :
  k ∈ checked_nodes g ↔
  ∃ n, graph_ref_ g !! k = Some n ∧ checked_ n = true.
Proof.
  unfold checked_nodes. rewrite elem_of_dom. split.
  - intros [n Hn]. apply map_lookup_filter_Some in Hn. naive_solver.
  - intros (n & Hn & Hc). exists n. by apply map_lookup_filter_Some.
Qed.

Lemma touched_refl n : touched n n.
Proof. by left. Qed.

Lemma touched_trans n1 n2 n3 : touched n1 n2 → touched n2 n3 → touched n1 n3.
Proof.
  intros [->|[Hc ->]] [->|[Hc' ->]]; [by left|by right|by right|done].
Qed.

Lemma unchecked_from_refl g : unchecked_from g g.
Proof.
  split_and!; [done..|]. intros k.
  destruct (graph_ref_ g !! k); constructor. apply touched_refl.
Qed.

Lemma unchecked_from_trans g1 g2 g3 :
  unchecked_from g1 g2 → unchecked_from g2 g3 → unchecked_from g1 g3.
Proof.
  intros (Hg & Hm & Hk) (Hg' & Hm' & Hk'). split_and!; [congruence..|].
  intros k. specialize (Hk k). specialize (Hk' k).
  destruct Hk as [n1 n2 H12|]; inversion Hk' as [n2' n3 H23|]; subst;
    constructor. by eapply touched_trans.
Qed.

Lemma unchecked_from_lookup g g' k n' :
  unchecked_from g g' → graph_ref_ g' !! k = Some n' →
  ∃ n, graph_ref_ g !! k = Some n ∧ touched n n'.
Proof.
  intros (_ & _ & Hk) Hn'. specialize (Hk k). rewrite Hn' in Hk.
  inversion Hk; subst. eauto.
Qed.

Lemma unchecked_from_lookup_None g g' k :
  unchecked_from g g' →
  graph_ref_ g' !! k = None ↔ graph_ref_ g !! k = None.
Proof.
  intros (_ & _ & Hk). specialize (Hk k). split; intros E; rewrite E in Hk;
    by inversion Hk.
Qed.

Lemma unchecked_from_nodes g g' :
  unchecked_from g g' → nodes_of g' = nodes_of g.
Proof.
  intros H. apply set_eq. intros k. unfold nodes_of.
  rewrite !elem_of_dom, <-!not_eq_None_Some.
  by rewrite (unchecked_from_lookup_None g g' k H).
Qed.

(** Every member but [status_] and [checked_] is kept. *)
Lemma unchecked_from_field {B} (f : DependencyNode → B) d g g' k :
  (∀ s c n, f (set_flags s c n) = f n) →
  unchecked_from g g' → node_field f d g' k = node_field f d g k.
Proof.
  intros Hf (_ & _ & Hk). unfold node_field. specialize (Hk k).
  destruct Hk as [n n' [->|[_ ->]]|]; simpl; auto.
Qed.

Lemma unchecked_from_checked g g' :
  unchecked_from g g' → checked_nodes g' ⊆ checked_nodes g.
Proof.
  intros H k. rewrite !elem_of_checked_nodes. intros (n' & Hn' & Hc).
  destruct (unchecked_from_lookup _ _ _ _ H Hn') as (n & Hn & [->|[_ ->]]).
  - eauto.
  - done.
Qed.

Lemma unchecked_from_down_closed g g' ds :
  unchecked_from g g' → down_closed g ds → down_closed g' ds.
Proof.
  intros H [Hds Hk]. unfold down_closed.
  rewrite (unchecked_from_nodes _ _ H). split; [done|].
  intros k. unfold downstreams_of.
  rewrite (unchecked_from_field downstreams_ ∅ g g' k); [apply Hk|done..].
Qed.

Lemma uncheck_one g p n :
  graph_ref_ g !! p = Some n → checked_ n = true →
  let g1 := with_graph (<[p := set_flags Success false n]>) g in
  unchecked_from g g1 ∧ checked_nodes g1 ⊆ checked_nodes g ∖ {[p]}.
Proof.
  intros Hn Hc g1. split.
  - split_and!; [done..|]. intros k. simpl.
    destruct (decide (k = p)) as [->|Hne].
    + rewrite lookup_insert_eq, Hn. constructor. by right.
    + rewrite lookup_insert_ne by done.
      destruct (graph_ref_ g !! k); constructor. apply touched_refl.
  - intros k. rewrite elem_of_difference, !elem_of_checked_nodes.
    simpl. intros (n' & Hn' & Hc'). destruct (decide (k = p)) as [->|Hne].
    + rewrite lookup_insert_eq in Hn'. by simplify_eq.
    + rewrite lookup_insert_ne in Hn' by done. split; [eauto|set_solver].
Qed.

(** The recursion returns whenever the fuel exceeds the number of checked
    nodes, and stops on a dangling pointer only when one is reachable. *)
Lemma wpx_UncheckDownstream_rec D fuel ds (Q : unit → Graph → Prop) g :
  size (checked_nodes g) < fuel →
  (∀ g', unchecked_from g g' → Q tt g') →
  (¬ down_closed g ds → D DanglingNode) →
  wpx D (UncheckDownstream_rec fuel ds) Q g.
Proof.
  revert ds Q g. induction fuel as [|fuel IH]; intros ds Q g Hfuel HQ HD;
    [lia|].
  simpl.
  assert (Hloop : ∀ l g1,
    unchecked_from g g1 →
    (down_closed g ds → list_to_set l ⊆ nodes_of g) →
    wpx D (for_each l (UncheckDownstream_body (UncheckDownstream_rec fuel)))
      Q g1).
  { induction l as [|p l IHl]; intros g1 Hg1 Hl.
    - by apply wpx_ret, HQ.
    - unfold for_each. simpl. unfold UncheckDownstream_body at 1.
      apply wpx_bind, wpx_bind, wpx_deref.
      + intros n Hn. destruct (checked_ n) eqn:Hc.
        * apply wpx_bind, wpx_modify.
          destruct (uncheck_one g1 p n Hn Hc) as [Hu Hsub].
          set (g2 := with_graph _ g1) in *.
          assert (Hlt : size (checked_nodes g2) < size (checked_nodes g1)).
          { assert (p ∈ checked_nodes g1) as Hp
              by (apply elem_of_checked_nodes; eauto).
            pose proof (subseteq_size _ _ Hsub) as Hle.
            pose proof (subset_size _ _
              (subset_difference_elem_of p (checked_nodes g1) Hp)). lia. }
          pose proof (subseteq_size _ _ (unchecked_from_checked _ _ Hg1)).
          apply IH; [lia| |].
          -- intros g3 Hg3. apply IHl.
             ++ eapply unchecked_from_trans; [done|].
                by eapply unchecked_from_trans.
             ++ intros Hdc. specialize (Hl Hdc). set_solver.
          -- intros Hndc. apply HD. intros Hdc. apply Hndc.
             assert (Hdc2 : down_closed g2 ds).
             { eapply unchecked_from_down_closed; [|done].
               by eapply unchecked_from_trans. }
             destruct Hdc2 as [_ Hk]. split; [|done].
             specialize (Hk p). unfold downstreams_of, node_field in Hk.
             subst g2. simpl in Hk. by rewrite lookup_insert_eq in Hk.
        * apply wpx_ret. apply IHl; [done|].
          intros Hdc. specialize (Hl Hdc). set_solver.
      + intros Hnone. apply HD. intros Hdc. specialize (Hl Hdc).
        assert (p ∈ nodes_of g1) as Hp.
        { rewrite (unchecked_from_nodes _ _ Hg1). set_solver. }
        apply elem_of_nodes_of in Hp. rewrite Hnone in Hp. by destruct Hp. }
  apply Hloop; [apply unchecked_from_refl|].
  intros [Hds _]. set_solver.
Qed.

Lemma checked_nodes_size g : size (checked_nodes g) ≤ size (graph_ref_ g).
Proof.
  unfold checked_nodes. rewrite size_dom.
  apply map_subseteq_size, map_filter_subseteq.
Qed.

Lemma wpx_UncheckDownstream D ds (Q : unit → Graph → Prop) g :
  (∀ g', unchecked_from g g' → Q tt g') →
  (¬ down_closed g ds → D DanglingNode) →
  wpx D (UncheckDownstream ds) Q g.
Proof.
  intros HQ HD. unfold UncheckDownstream.
  change (wpx D (UncheckDownstream_rec (S (size (graph_ref_ g))) ds) Q g).
  apply wpx_UncheckDownstream_rec; [|done..].
  pose proof (checked_nodes_size g). lia.
Qed.

(** ** One iteration of [UpdateNodes] *)

Lemma waiters_erased_elements (names : gset string) model_id g g' :
  waiters_erased (elements names) model_id g g' →
  erased_from names model_id (missing_nodes_ref_ g) (missing_nodes_ref_ g').
Proof.
  intros (_ & _ & Hk) name. rewrite Hk.
  apply decide_ext, elem_of_elements.
Qed.

Lemma nodes_mapped_lookup (l : gset ptr) F g g' :
  nodes_mapped (elements l) F g g' →
  ∀ k, graph_ref_ g' !! k =
       (if decide (k ∈ l) then F else λ x, x) <$> graph_ref_ g !! k.
Proof.
  intros (_ & _ & Hk) k. rewrite Hk.
  rewrite (decide_ext (k ∈ elements l) (k ∈ l)) by apply elem_of_elements.
  destruct (decide (k ∈ l)); [done|]. by rewrite option_fmap_id.
Qed.

Lemma wpx_UpdateNodes_body_absent D mm updated model_id
    (Q : gset ModelIdentifier → Graph → Prop) g :
  graph_ref_ g !! model_id = None →
  Q updated g →
  wpx D (UpdateNodes_body mm updated model_id) Q g.
Proof.
  intros Hnone HQ. unfold UpdateNodes_body. apply wpx_bind, wpx_get.
  rewrite Hnone. by apply wpx_ret.
Qed.

Lemma wpx_UpdateNodes_body D mm updated model_id node
    (Q : gset ModelIdentifier → Graph → Prop) g :
  graph_ref_ g !! model_id = Some node →
  (∀ info g', mm model_id = Some info → update_effect model_id info g g' →
              Q ({[model_id]} ∪ updated) g') →
  (¬ (down_closed g (downstreams_of g model_id) ∧
      upstreams_of g model_id ⊆ nodes_of g) → D DanglingNode) →
  (¬ missing_of g model_id ⊆ dom (missing_nodes_ref_ g) → D EndIterator) →
  (mm model_id = None → D NullModelInfo) →
  wpx D (UpdateNodes_body mm updated model_id) Q g.
Proof.
  intros Hnode HQ HDang HEnd HNull. unfold UpdateNodes_body.
  assert (Hups : upstreams_of g model_id = dom (upstreams_ node))
    by (unfold upstreams_of, node_field; by rewrite Hnode).
  assert (Hdowns : downstreams_of g model_id = downstreams_ node)
    by (unfold downstreams_of, node_field; by rewrite Hnode).
  assert (Hmiss : missing_of g model_id = missing_upstreams_ node)
    by (unfold missing_of, node_field; by rewrite Hnode).
  apply wpx_bind, wpx_get. rewrite Hnode.
  apply wpx_bind, wpx_UncheckDownstream.
  2:{ intros Hn. apply HDang. intros [Hdc _]. apply Hn. by rewrite <-Hdowns. }
  intros g1 Hg1.
  apply wpx_bind, wpx_for_each_update; [apply NoDup_elements| |].
  2:{ intros (u & Hu & Hnone). apply HDang. intros [_ Hsub].
      apply elem_of_elements in Hu. rewrite <-Hups in Hu.
      apply Hsub, elem_of_nodes_of in Hu.
      apply (unchecked_from_lookup_None _ _ _ Hg1) in Hnone.
      rewrite Hnone in Hu. by destruct Hu. }
  intros g2 Hg2.
  apply wpx_bind, wpx_for_each_erase; [apply NoDup_elements| |].
  2:{ intros (name & Hname & Hnone). apply HEnd. intros Hsub.
      apply elem_of_elements in Hname. rewrite <-Hmiss in Hname.
      apply Hsub, elem_of_dom in Hname.
      destruct Hg2 as (_ & Hm2 & _). destruct Hg1 as (_ & Hm1 & _).
      rewrite Hm2, Hm1 in Hnone. rewrite Hnone in Hname. by destruct Hname. }
  intros g3 Hg3.
  destruct (mm model_id) as [info|] eqn:Hinfo; [|by apply wpx_fail, HNull].
  apply wpx_bind, wpx_update_node.
  2:{ intros Hnone. destruct Hg3 as (Hgr3 & _). rewrite Hgr3 in Hnone.
      rewrite (nodes_mapped_lookup _ _ _ _ Hg2) in Hnone.
      apply fmap_None in Hnone.
      apply (unchecked_from_lookup_None _ _ _ Hg1) in Hnone. congruence. }
  intros n3 Hn3. apply wpx_ret, (HQ info); [done|].
  pose proof (waiters_erased_elements _ _ _ _ Hg3) as Her.
  destruct Hg3 as (Hgr3 & Hgl3 & _).
  pose proof (nodes_mapped_lookup _ _ _ _ Hg2) as Hlk2.
  destruct Hg2 as (Hgl2 & Hm2 & _).
  pose proof Hg1 as (Hgl1 & Hm1 & Hk1).
  split_and!.
  - simpl. congruence.
  - simpl. rewrite Hmiss. by rewrite Hm2, Hm1 in Her.
  - intros k. simpl. rewrite Hups.
    destruct (decide (k = model_id)) as [->|Hne].
    + rewrite lookup_insert_eq. rewrite Hgr3, Hlk2 in Hn3.
      specialize (Hk1 model_id).
      destruct Hk1 as [n n1 Ht|]; [|done]. simpl in Hn3. simplify_eq.
      constructor. exists n1. split; [done|].
      by destruct (decide (model_id = model_id)).
    + rewrite lookup_insert_ne by done. rewrite Hgr3, Hlk2.
      specialize (Hk1 k). destruct Hk1 as [n n1 Ht|]; simpl; constructor.
      exists n1. split; [done|]. by destruct (decide (k = model_id)).
Qed.

Lemma erased_from_dom names model_id
    (m m' : gmap string (gset ModelIdentifier)) :
  erased_from names model_id m m' → dom m' = dom m.
Proof.
  intros H. apply set_eq. intros name. rewrite !elem_of_dom, H.
  destruct (decide (name ∈ names)); [|done]. apply fmap_is_Some.
Qed.

Lemma erased_from_waiters names model_id g g' :
  erased_from names model_id (missing_nodes_ref_ g) (missing_nodes_ref_ g') →
  ∀ name, waiters_of g' name =
          if decide (name ∈ names) then waiters_of g name ∖ {[model_id]}
          else waiters_of g name.
Proof.
  intros H name. unfold waiters_of. rewrite H.
  destruct (decide (name ∈ names)); [|done].
  destruct (missing_nodes_ref_ g !! name); simpl; [done|set_solver].
Qed.

(** The views of the graph after one iteration of [UpdateNodes]. *)
Lemma update_effect_views model_id info g g' :
  update_effect model_id info g g' →
  nodes_of g' = nodes_of g ∧
  dom (missing_nodes_ref_ g') = dom (missing_nodes_ref_ g) ∧
  (∀ name, waiters_of g' name =
           if decide (name ∈ missing_of g model_id)
           then waiters_of g name ∖ {[model_id]} else waiters_of g name) ∧
  (∀ k, upstreams_of g' k =
        if decide (k = model_id) then ∅ else upstreams_of g k) ∧
  (∀ k, downstreams_of g' k =
        if decide (k ∈ upstreams_of g model_id)
        then downstreams_of g k ∖ {[model_id]} else downstreams_of g k) ∧
  (∀ k, missing_of g' k = missing_of g k) ∧
  (∀ k, k ≠ model_id → explicit_of g' k = explicit_of g k) ∧
  (ids_ok g → ids_ok g').
Proof.
  intros (Hgl & Her & Hk). split_and!.
  - apply set_eq. intros k. rewrite !elem_of_nodes_of.
    destruct (Hk k); split; intros [? ?]; by eauto.
  - by eapply erased_from_dom.
  - by apply erased_from_waiters.
  - intros k. unfold upstreams_of, node_field.
    destruct (Hk k) as [n n' (n1 & Ht & ->)|]; simpl.
    + destruct Ht as [->|[_ ->]]; repeat case_decide; simpl;
        by rewrite ?dom_empty_L.
    + by case_decide.
  - intros k. unfold downstreams_of, node_field.
    destruct (Hk k) as [n n' (n1 & Ht & ->)|]; simpl.
    + destruct Ht as [->|[_ ->]]; repeat case_decide; simpl; done.
    + case_decide; set_solver.
  - intros k. unfold missing_of, node_field.
    destruct (Hk k) as [n n' (n1 & Ht & ->)|]; simpl; [|done].
    destruct Ht as [->|[_ ->]]; repeat case_decide; simpl; done.
  - intros k Hne. unfold explicit_of, node_field.
    destruct (Hk k) as [n n' (n1 & Ht & ->)|]; simpl; [|done].
    destruct Ht as [->|[_ ->]]; repeat case_decide; simpl; done.
  - intros Hids k n' Hn'. specialize (Hk k). rewrite Hn' in Hk.
    inversion Hk as [n ? (n1 & Ht & ->) Hn|]; subst.
    symmetry in Hn. apply Hids in Hn.
    destruct Ht as [->|[_ ->]]; repeat case_decide; simpl; done.
Qed.

(** ** [RemoveNode] *)

Lemma wpx_disconnect_collect D model_id l acc
    (Q : gset ModelIdentifier → Graph → Prop) g :
  NoDup l →
  (∀ g' ups,
     nodes_mapped l (DisconnectDownstream model_id) g g' →
     (∀ x, x ∈ ups ↔ x ∈ acc ∨
           ∃ u n, u ∈ l ∧ graph_ref_ g !! u = Some n ∧ model_id_ n = x) →
     Q ups g') →
  ((∃ u, u ∈ l ∧ graph_ref_ g !! u = None) → D DanglingNode) →
  wpx D (foldM l (disconnect_upstream model_id) acc) Q g.
Proof.
  intros Hnd. revert g acc Q.
  induction Hnd as [|u l Hu Hnd IH]; intros g acc Q HQ HD.
  - apply wpx_ret, HQ.
    + split_and!; [done..|]. intros k. by rewrite decide_False by set_solver.
    + intros x. split; [by left|]. intros [?|(?&?&?&_)]; [done|set_solver].
  - simpl. unfold disconnect_upstream at 1.
    apply wpx_bind, wpx_bind, wpx_update_node.
    2:{ intros Hnone. apply HD. exists u. split; [set_solver|done]. }
    intros n Hn. apply wpx_bind, wpx_deref.
    2:{ simpl. by rewrite lookup_insert_eq. }
    intros n'. simpl. rewrite lookup_insert_eq. intros [= <-].
    apply wpx_ret, IH.
    + intros g' ups Hg' Hups. apply HQ.
      * eapply nodes_mapped_cons; eauto.
      * intros x. rewrite Hups. simpl. split.
        -- intros [[Hx|Hx]%elem_of_union|(v & m & Hv & Hm & Hx)].
           ++ apply elem_of_singleton in Hx. right. exists u, n.
              split_and!; [set_solver|done..].
           ++ by left.
           ++ right. exists v, m. split_and!; [set_solver| |done].
              rewrite lookup_insert_ne in Hm; [done|]. by intros ->.
        -- intros [Hx|(v & m & Hv & Hm & Hx)]; [set_solver|].
           apply elem_of_cons in Hv as [->|Hv].
           ++ left. simplify_eq. set_solver.
           ++ right. exists v, m. split_and!; [done| |done].
              rewrite lookup_insert_ne; [done|]. by intros ->.
    + intros (v & Hv & Hnone). apply HD. exists v. split; [set_solver|].
      simpl in Hnone. destruct (decide (v = u)) as [->|Hne].
      * by rewrite lookup_insert_eq in Hnone.
      * by rewrite lookup_insert_ne in Hnone.
Qed.

Lemma wpx_RemoveNode_absent D model_id
    (Q : gset ModelIdentifier * gset ModelIdentifier → Graph → Prop) g :
  graph_ref_ g !! model_id = None →
  Q (∅, ∅) g →
  wpx D (RemoveNode model_id) Q g.
Proof.
  intros Hnone HQ. unfold RemoveNode. apply wpx_bind, wpx_get.
  rewrite Hnone. by apply wpx_ret.
Qed.

Lemma wpx_RemoveNode D model_id node
    (Q : gset ModelIdentifier * gset ModelIdentifier → Graph → Prop) g :
  graph_ref_ g !! model_id = Some node →
  (∀ ups g', ids_through g (upstreams_of g model_id) ups →
             remove_effect model_id g g' → Q (ups, ∅) g') →
  (¬ (down_closed g (downstreams_of g model_id) ∧
      upstreams_of g model_id ⊆ nodes_of g) → D DanglingNode) →
  (¬ missing_of g model_id ⊆ dom (missing_nodes_ref_ g) → D EndIterator) →
  wpx D (RemoveNode model_id) Q g.
Proof.
  intros Hnode HQ HDang HEnd. unfold RemoveNode.
  assert (Hups : upstreams_of g model_id = dom (upstreams_ node))
    by (unfold upstreams_of, node_field; by rewrite Hnode).
  assert (Hdowns : downstreams_of g model_id = downstreams_ node)
    by (unfold downstreams_of, node_field; by rewrite Hnode).
  assert (Hmiss : missing_of g model_id = missing_upstreams_ node)
    by (unfold missing_of, node_field; by rewrite Hnode).
  apply wpx_bind, wpx_get. rewrite Hnode.
  apply wpx_bind, wpx_disconnect_collect; [apply NoDup_elements| |].
  2:{ intros (u & Hu & Hnone). apply HDang. intros [_ Hsub].
      apply elem_of_elements in Hu. rewrite <-Hups in Hu.
      apply Hsub, elem_of_nodes_of in Hu. rewrite Hnone in Hu.
      by destruct Hu. }
  intros g1 ups Hg1 Hupsx.
  pose proof (nodes_mapped_lookup _ _ _ _ Hg1) as Hlk1.
  destruct Hg1 as (Hgl1 & Hm1 & _).
  apply wpx_bind, wpx_deref.
  2:{ rewrite Hlk1, Hnode. done. }
  intros node'. rewrite Hlk1, Hnode. simpl. intros [= <-].
  set (downs1 := downstreams_ _).
  assert (Hd1 : ∀ k, k ≠ model_id → k ∈ downs1 ↔ k ∈ downstreams_ node).
  { intros k Hne. subst downs1. case_decide; simpl; set_solver. }
  assert (Hd1sub : downs1 ⊆ downstreams_ node).
  { subst downs1. case_decide; simpl; set_solver. }
  assert (Hdc1 : down_closed g (downstreams_ node) → down_closed g1 downs1).
  { intros [Hsub Hall].
    assert (nodes_of g1 = nodes_of g) as Hn1.
    { apply set_eq. intros k. rewrite !elem_of_nodes_of, Hlk1.
      by rewrite fmap_is_Some. }
    split; rewrite Hn1; [set_solver|].
    intros k. etrans; [|apply (Hall k)].
    unfold downstreams_of, node_field. rewrite Hlk1.
    destruct (graph_ref_ g !! k); simpl; [|done].
    case_decide; simpl; set_solver. }
  apply wpx_bind, wpx_UncheckDownstream.
  2:{ intros Hn. apply HDang. intros [Hdc _]. apply Hn, Hdc1.
      by rewrite <-Hdowns. }
  intros g2 Hg2.
  apply wpx_bind, wpx_for_each_update; [apply NoDup_elements| |].
  2:{ intros (d & Hd & Hnone). apply HDang. intros [Hdc _].
      rewrite Hdowns in Hdc. destruct (Hdc1 Hdc) as [Hsub _].
      apply elem_of_elements, Hsub, elem_of_nodes_of in Hd.
      apply (unchecked_from_lookup_None _ _ _ Hg2) in Hnone.
      rewrite Hnone in Hd. by destruct Hd. }
  intros g3 Hg3.
  pose proof (nodes_mapped_lookup _ _ _ _ Hg3) as Hlk3.
  destruct Hg3 as (Hgl3 & Hm3 & _).
  pose proof Hg2 as (Hgl2 & Hm2 & Hk2).
  apply wpx_bind, wpx_for_each_erase; [apply NoDup_elements| |].
  2:{ intros (name & Hname & Hnone). apply HEnd. intros Hsub.
      apply elem_of_elements in Hname. rewrite <-Hmiss in Hname.
      apply Hsub, elem_of_dom in Hname.
      rewrite Hm3, Hm2, Hm1 in Hnone. rewrite Hnone in Hname.
      by destruct Hname. }
  intros g4 Hg4.
  pose proof (waiters_erased_elements _ _ _ _ Hg4) as Her.
  destruct Hg4 as (Hgr4 & Hgl4 & _).
  apply wpx_bind, wpx_modify, wpx_ret, HQ.
  - intros x. rewrite Hupsx, Hups. split.
    + intros [?|(u & n & Hu & Hn & Hx)]; [set_solver|].
      exists u, n. by rewrite <-elem_of_elements.
    + intros (u & n & Hu & Hn & Hx). right. exists u, n.
      by rewrite elem_of_elements.
  - split_and!; simpl.
    + congruence.
    + rewrite Hmiss. by rewrite Hm3, Hm2, Hm1 in Her.
    + by rewrite lookup_delete_eq.
    + intros k Hne. rewrite lookup_delete_ne by done.
      rewrite Hgr4, Hlk3, Hups, Hdowns. specialize (Hk2 k).
      rewrite Hlk1 in Hk2.
      destruct (graph_ref_ g !! k) as [n|]; simpl in *;
        inversion Hk2 as [? n1 Ht|]; subst; constructor.
      exists n1. split; [done|].
      specialize (Hd1 k Hne).
      destruct (decide (k ∈ downs1)) as [Hin|Hin];
        destruct (decide (k ∈ downstreams_ node)) as [Hin'|Hin'];
        try done; tauto.
Qed.

Lemma option_Forall2_is_Some {A B} (R : A → B → Prop) a b :
  option_Forall2 R a b → is_Some b ↔ is_Some a.
Proof. intros [x y _|]; split; intros [? ?]; by eauto. Qed.

(** The views of the graph after [RemoveNode] erased a node. *)
Lemma remove_effect_views model_id g g' :
  remove_effect model_id g g' →
  nodes_of g' = nodes_of g ∖ {[model_id]} ∧
  dom (missing_nodes_ref_ g') = dom (missing_nodes_ref_ g) ∧
  (∀ name, waiters_of g' name =
           if decide (name ∈ missing_of g model_id)
           then waiters_of g name ∖ {[model_id]} else waiters_of g name) ∧
  (∀ k, upstreams_of g' k =
        if decide (k = model_id) then ∅
        else if decide (k ∈ downstreams_of g model_id)
             then upstreams_of g k ∖ {[model_id]} else upstreams_of g k) ∧
  (∀ k, downstreams_of g' k =
        if decide (k = model_id) then ∅
        else if decide (k ∈ upstreams_of g model_id)
             then downstreams_of g k ∖ {[model_id]} else downstreams_of g k) ∧
  (∀ k, missing_of g' k =
        if decide (k = model_id) then ∅ else missing_of g k) ∧
  (∀ k, k ≠ model_id → explicit_of g' k = explicit_of g k) ∧
  (ids_ok g → ids_ok g').
Proof.
  intros (Hgl & Her & Hid & Hk). split_and!.
  - apply set_eq. intros k.
    rewrite elem_of_difference, elem_of_singleton, !elem_of_nodes_of.
    destruct (decide (k = model_id)) as [->|Hne].
    + rewrite Hid. split; [by intros [? ?]|tauto].
    + rewrite (option_Forall2_is_Some _ _ _ (Hk k Hne)). tauto.
  - by eapply erased_from_dom.
  - by apply erased_from_waiters.
  - intros k. unfold upstreams_of, node_field.
    destruct (decide (k = model_id)) as [->|Hne]; [by rewrite Hid|].
    destruct (Hk k Hne) as [n n' (n1 & Ht & ->)|]; simpl.
    + destruct Ht as [->|[_ ->]]; repeat case_decide; simpl;
        by rewrite ?dom_delete_L.
    + case_decide; set_solver.
  - intros k. unfold downstreams_of, node_field.
    destruct (decide (k = model_id)) as [->|Hne]; [by rewrite Hid|].
    destruct (Hk k Hne) as [n n' (n1 & Ht & ->)|]; simpl.
    + destruct Ht as [->|[_ ->]]; repeat case_decide; simpl; done.
    + case_decide; set_solver.
  - intros k. unfold missing_of, node_field.
    destruct (decide (k = model_id)) as [->|Hne]; [by rewrite Hid|].
    destruct (Hk k Hne) as [n n' (n1 & Ht & ->)|]; simpl; [|done].
    destruct Ht as [->|[_ ->]]; repeat case_decide; simpl; done.
  - intros k Hne. unfold explicit_of, node_field.
    destruct (Hk k Hne) as [n n' (n1 & Ht & ->)|]; simpl; [|done].
    destruct Ht as [->|[_ ->]]; repeat case_decide; simpl; done.
  - intros Hids k n' Hn'.
    destruct (decide (k = model_id)) as [->|Hne]; [congruence|].
    specialize (Hk k Hne). rewrite Hn' in Hk.
    inversion Hk as [n ? (n1 & Ht & ->) Hn|]; subst.
    symmetry in Hn. apply Hids in Hn.
    destruct Ht as [->|[_ ->]]; repeat case_decide; simpl; done.
Qed.

(** ** One iteration of [AddNodes] *)

Lemma FindNode_exact g model_id p :
  FindNode model_id false g = Some p →
  p = model_id ∧ is_Some (graph_ref_ g !! model_id).
Proof.
  unfold FindNode. destruct (graph_ref_ g !! model_id); [|done].
  intros [= <-]. eauto.
Qed.

Lemma try_insert_lookup model_id n (m : gmap ModelIdentifier DependencyNode) k :
  try_insert model_id n m !! k =
    match m !! k with
    | Some x => Some x
    | None => if decide (k = model_id) then Some n else None
    end.
Proof.
  unfold try_insert. destruct (m !! model_id) eqn:Hm.
  - destruct (m !! k) eqn:Hk; [done|]. case_decide; [congruence|done].
  - destruct (decide (k = model_id)) as [->|Hne].
    + by rewrite lookup_insert_eq, Hm.
    + rewrite lookup_insert_ne by done. by destruct (m !! k).
Qed.

Lemma add_effect_views model_id info g g' :
  add_effect model_id info g g' →
  nodes_of g' = {[model_id]} ∪ nodes_of g ∧
  global_map_ref_ g' = global_map_ref_ g ∧
  missing_nodes_ref_ g' = missing_nodes_ref_ g ∧
  (∀ k, upstreams_of g' k = upstreams_of g k) ∧
  (∀ k, downstreams_of g' k = downstreams_of g k) ∧
  (∀ k, missing_of g' k = missing_of g k) ∧
  (∀ k, k ∈ nodes_of g → explicit_of g' k = explicit_of g k) ∧
  (ids_ok g → ids_ok g').
Proof.
  intros H. pose proof H as (Hgl & Hm & Hk). simpl in *.
  assert (Hf : ∀ {B} (f : DependencyNode → B) d k,
    (∀ s c n, f (set_flags s c n) = f n) →
    f (added_node model_id info) = d →
    node_field f d g' k = node_field f d g k).
  { intros B f d k Hfl Hnew.
    rewrite (unchecked_from_field f d _ g' k Hfl H).
    unfold node_field. simpl. rewrite try_insert_lookup.
    destruct (graph_ref_ g !! k); [done|]. by case_decide. }
  split_and!; [|done|done|..].
  - rewrite (unchecked_from_nodes _ _ H). apply set_eq. intros k.
    rewrite elem_of_union, elem_of_singleton, !elem_of_nodes_of. simpl.
    rewrite try_insert_lookup. destruct (graph_ref_ g !! k) eqn:Hkk.
    + split; eauto.
    + case_decide; split; try intros [?|[? ?]]; try intros [? ?]; eauto;
        done.
  - intros k. by apply Hf.
  - intros k. by apply Hf.
  - intros k. by apply Hf.
  - intros k Hin. unfold explicit_of.
    rewrite (unchecked_from_field explicitly_load_ false _ g' k
               (λ _ _ _, eq_refl) H).
    unfold node_field. simpl. rewrite try_insert_lookup.
    apply elem_of_nodes_of in Hin as [n ->]. done.
  - intros Hids k n' Hn'.
    destruct (unchecked_from_lookup _ _ _ _ H Hn') as (n & Hn & Ht).
    simpl in Hn. rewrite try_insert_lookup in Hn.
    assert (model_id_ n = k) as Hn0.
    { destruct (graph_ref_ g !! k) eqn:Hkk; [simplify_eq; by eapply Hids|].
      case_decide; by simplify_eq. }
    by destruct Ht as [->|[_ ->]].
Qed.

Lemma wpx_AddNodes_body D mm affected model_id
    (Q : gset ModelIdentifier → Graph → Prop) g :
  (∀ info g' affected',
     mm model_id = Some info → add_effect model_id info g g' →
     {[model_id]} ∪ affected ⊆ affected' → Q affected' g') →
  (¬ (∀ k, downstreams_of g k ⊆ nodes_of g) → D DanglingNode) →
  (mm model_id = None → D NullModelInfo) →
  wpx D (AddNodes_body mm affected model_id) Q g.
Proof.
  intros HQ HDang HNull. unfold AddNodes_body.
  destruct (mm model_id) as [info|] eqn:Hinfo; [|by apply wpx_fail, HNull].
  apply wpx_bind, wpx_modify, wpx_bind, wpx_get.
  set (g0 := with_graph _ g).
  assert (H0 : add_effect model_id info g g0) by apply unchecked_from_refl.
  destruct (missing_nodes_ref_ g0 !! name_ model_id) as [waiting|].
  2:{ apply wpx_ret. by eapply HQ. }
  eapply wpx_mono; [done| |].
  2:{ apply (wpx_foldM D (λ _ aff g', add_effect model_id info g g' ∧
                                     {[model_id]} ∪ affected ⊆ aff)).
      - done.
      - intros dep rest aff g1 [Hg1 Haff]. apply wpx_bind, wpx_get.
        destruct (FindNode dep false g1) as [p|] eqn:Hfind.
        2:{ by apply wpx_ret. }
        apply FindNode_exact in Hfind as [-> Hdep].
        apply wpx_bind, wpx_UncheckDownstream.
        + intros g2 Hg2. apply wpx_ret. split; [|set_solver].
          by eapply unchecked_from_trans.
        + intros Hn. apply HDang. intros Hdc. apply Hn.
          destruct (add_effect_views _ _ _ _ Hg1)
            as (Hnodes & _ & _ & _ & Hdowns & _).
          split.
          * apply singleton_subseteq_l. by apply elem_of_nodes_of.
          * intros k. rewrite Hdowns, Hnodes. specialize (Hdc k).
            set_solver. }
  simpl. intros aff g' [Hg' Haff]. by eapply HQ.
Qed.

(** ** Stability of the invariants under the three effects *)

Lemma node_field_absent {B} (f : DependencyNode → B) d g k :
  k ∉ nodes_of g → node_field f d g k = d.
Proof.
  rewrite elem_of_nodes_of, <-eq_None_not_Some. unfold node_field.
  by intros ->.
Qed.

Lemma upstreams_of_nodes g (n u : ModelIdentifier) : u ∈ upstreams_of g n → n ∈ nodes_of g.
Proof.
  intros Hu. destruct (decide (n ∈ nodes_of g)) as [|Hn]; [done|].
  unfold upstreams_of in Hu. rewrite node_field_absent in Hu by done.
  set_solver.
Qed.

Lemma downstreams_of_nodes g (n d : ModelIdentifier) : d ∈ downstreams_of g n → n ∈ nodes_of g.
Proof.
  intros Hd. destruct (decide (n ∈ nodes_of g)) as [|Hn]; [done|].
  unfold downstreams_of in Hd. rewrite node_field_absent in Hd by done.
  set_solver.
Qed.

Lemma missing_of_nodes g (n : ModelIdentifier) name : name ∈ missing_of g n → n ∈ nodes_of g.
Proof.
  intros Hd. destruct (decide (n ∈ nodes_of g)) as [|Hn]; [done|].
  unfold missing_of in Hd. rewrite node_field_absent in Hd by done.
  set_solver.
Qed.

(** Under edge reciprocity no edge dangles. *)
Lemma edge_reciprocity_valid g :
  edge_reciprocity g →
  (∀ k, downstreams_of g k ⊆ nodes_of g) ∧
  (∀ k, upstreams_of g k ⊆ nodes_of g).
Proof.
  intros Hrec. split; intros k x Hx.
  - apply Hrec in Hx. by eapply upstreams_of_nodes.
  - apply Hrec in Hx. by eapply downstreams_of_nodes.
Qed.

Lemma edge_reciprocity_down_closed g k :
  edge_reciprocity g →
  down_closed g (downstreams_of g k) ∧ upstreams_of g k ⊆ nodes_of g.
Proof.
  intros [Hd Hu]%edge_reciprocity_valid. by repeat split.
Qed.

Lemma update_effect_edge_reciprocity model_id info g g' :
  update_effect model_id info g g' →
  edge_reciprocity g → edge_reciprocity g'.
Proof.
  intros (_ & _ & _ & Hu & Hd & _)%update_effect_views Hrec n u.
  rewrite Hu, Hd. pose proof (Hrec n u). pose proof (Hrec model_id u).
  repeat case_decide; subst; set_solver.
Qed.

Lemma remove_effect_edge_reciprocity model_id g g' :
  remove_effect model_id g g' →
  edge_reciprocity g → edge_reciprocity g'.
Proof.
  intros (_ & _ & _ & Hu & Hd & _)%remove_effect_views Hrec n u.
  rewrite Hu, Hd. pose proof (Hrec n u). pose proof (Hrec model_id u).
  pose proof (Hrec n model_id).
  repeat case_decide; subst; set_solver.
Qed.

Lemma add_effect_edge_reciprocity model_id info g g' :
  add_effect model_id info g g' →
  edge_reciprocity g → edge_reciprocity g'.
Proof.
  intros (_ & _ & _ & Hu & Hd & _)%add_effect_views Hrec n u.
  rewrite Hu, Hd. apply Hrec.
Qed.

Lemma update_effect_waiters_registered model_id info g g' :
  update_effect model_id info g g' →
  waiters_registered g → waiters_registered g'.
Proof.
  intros (_ & _ & Hw & _ & _ & Hm & _)%update_effect_views Hreg n name.
  rewrite Hw, Hm. specialize (Hreg n name). case_decide; set_solver.
Qed.

Lemma remove_effect_waiters_registered model_id g g' :
  remove_effect model_id g g' →
  waiters_registered g → waiters_registered g'.
Proof.
  intros (_ & _ & Hw & _ & _ & Hm & _)%remove_effect_views Hreg n name.
  rewrite Hw, Hm. specialize (Hreg n name).
  repeat case_decide; subst; set_solver.
Qed.

Lemma add_effect_waiters_of model_id info g g' name :
  add_effect model_id info g g' → waiters_of g' name = waiters_of g name.
Proof.
  intros (_ & _ & Hm & _)%add_effect_views. unfold waiters_of. by rewrite Hm.
Qed.

Lemma add_effect_waiters_registered model_id info g g' :
  add_effect model_id info g g' →
  waiters_registered g → waiters_registered g'.
Proof.
  intros H Hreg n name. rewrite (add_effect_waiters_of _ _ _ _ _ H).
  destruct (add_effect_views _ _ _ _ H) as (_ & _ & _ & _ & _ & Hm & _).
  rewrite Hm. apply Hreg.
Qed.

Lemma update_effect_waiter_keys model_id info g g' :
  update_effect model_id info g g' → waiter_keys g → waiter_keys g'.
Proof.
  intros (_ & Hdom & _ & _ & _ & Hm & _)%update_effect_views Hkeys n name.
  rewrite Hm, Hdom. apply Hkeys.
Qed.

Lemma remove_effect_waiter_keys model_id g g' :
  remove_effect model_id g g' → waiter_keys g → waiter_keys g'.
Proof.
  intros (_ & Hdom & _ & _ & _ & Hm & _)%remove_effect_views Hkeys n name.
  rewrite Hm, Hdom. specialize (Hkeys n name). case_decide; set_solver.
Qed.

Lemma add_effect_waiter_keys model_id info g g' :
  add_effect model_id info g g' → waiter_keys g → waiter_keys g'.
Proof.
  intros (_ & _ & Hmm & _ & _ & Hm & _)%add_effect_views Hkeys n name.
  rewrite Hm, Hmm. apply Hkeys.
Qed.

Lemma update_effect_well_formed model_id info g g' :
  update_effect model_id info g g' → well_formed g → well_formed g'.
Proof.
  intros H (Hrec & Hkeys & Hids). split_and!.
  - by eapply update_effect_edge_reciprocity.
  - by eapply update_effect_waiter_keys.
  - by apply (update_effect_views _ _ _ _ H).
Qed.

Lemma remove_effect_well_formed model_id g g' :
  remove_effect model_id g g' → well_formed g → well_formed g'.
Proof.
  intros H (Hrec & Hkeys & Hids). split_and!.
  - by eapply remove_effect_edge_reciprocity.
  - by eapply remove_effect_waiter_keys.
  - by apply (remove_effect_views _ _ _ H).
Qed.

Lemma add_effect_well_formed model_id info g g' :
  add_effect model_id info g g' → well_formed g → well_formed g'.
Proof.
  intros H (Hrec & Hkeys & Hids). split_and!.
  - by eapply add_effect_edge_reciprocity.
  - by eapply add_effect_waiter_keys.
  - by apply (add_effect_views _ _ _ _ H).
Qed.

(** ** The loops of [RemoveNodes] *)

Lemma wpx_RemoveNodes_body D (c : bool) next aff rem model_id
    (Q : gset ModelIdentifier * gset ModelIdentifier * gset ModelIdentifier →
         Graph → Prop) g :
  (graph_ref_ g !! model_id = None →
   Q (next, aff ∖ {[model_id]}, {[model_id]} ∪ rem) g) →
  (∀ node ups g',
     graph_ref_ g !! model_id = Some node →
     ids_through g (upstreams_of g model_id) ups →
     remove_effect model_id g g' →
     Q (if c then filter (λ u, orphaned g' u = true) ups ∪ next else next,
        aff ∖ {[model_id]}, {[model_id]} ∪ rem) g') →
  (model_id ∈ nodes_of g →
   ¬ (down_closed g (downstreams_of g model_id) ∧
      upstreams_of g model_id ⊆ nodes_of g) → D DanglingNode) →
  (model_id ∈ nodes_of g →
   ¬ missing_of g model_id ⊆ dom (missing_nodes_ref_ g) → D EndIterator) →
  wpx D (RemoveNodes_body c (next, aff, rem) model_id) Q g.
Proof.
  intros Habsent Hpresent HDang HEnd. unfold RemoveNodes_body.
  apply wpx_bind. destruct (graph_ref_ g !! model_id) as [node|] eqn:Hnode.
  - assert (model_id ∈ nodes_of g) as Hin by (apply elem_of_nodes_of; eauto).
    eapply wpx_RemoveNode; [done| |by apply HDang|by apply HEnd].
    intros ups g' Hups Hg'. apply wpx_bind, wpx_get, wpx_ret. simpl.
    rewrite union_empty_l_L. by eapply Hpresent.
  - apply wpx_RemoveNode_absent; [done|].
    apply wpx_bind, wpx_get, wpx_ret. simpl.
    rewrite union_empty_l_L.
    destruct c; [|by apply Habsent].
    assert (filter (λ u, orphaned g u = true) (∅ : gset ModelIdentifier) ∪ next
            = next) as -> by set_solver.
    by apply Habsent.
Qed.

Section RemoveNodes_loop.
Context (D : stop → Prop) (c : bool).
Context (I : list ModelIdentifier → gset ModelIdentifier →
               gset ModelIdentifier → gset ModelIdentifier →
             @Graph ModelConfig → Prop).

(** [I rest next affected removed g] holds before the identifiers [rest]
    of the current wave are removed. *)
Hypothesis I_absent : ∀ x rest next aff rem g,
  I (x :: rest) next aff rem g → graph_ref_ g !! x = None →
  I rest next (aff ∖ {[x]}) ({[x]} ∪ rem) g.
Hypothesis I_present : ∀ x rest next aff rem g node ups g',
  I (x :: rest) next aff rem g → graph_ref_ g !! x = Some node →
  ids_through g (upstreams_of g x) ups → remove_effect x g g' →
  I rest (if c then filter (λ u, orphaned g' u = true) ups ∪ next else next)
    (aff ∖ {[x]}) ({[x]} ∪ rem) g'.
Hypothesis I_next : ∀ next aff rem g,
  I [] next aff rem g → I (elements next) ∅ aff rem g.
Hypothesis I_dangling : ∀ x rest next aff rem g,
  I (x :: rest) next aff rem g → x ∈ nodes_of g →
  ¬ (down_closed g (downstreams_of g x) ∧
     upstreams_of g x ⊆ nodes_of g) → D DanglingNode.
Hypothesis I_end : ∀ x rest next aff rem g,
  I (x :: rest) next aff rem g → x ∈ nodes_of g →
  ¬ missing_of g x ⊆ dom (missing_nodes_ref_ g) → D EndIterator.

Lemma wpx_removal_wave curr aff rem g :
  I (elements curr) ∅ aff rem g →
  wpx D (removal_wave c curr aff rem)
    (λ r g', I [] r.1.1 r.1.2 r.2 g' ∧
             size (nodes_of g') ≤ size (nodes_of g) ∧
             (r.1.1 ≠ ∅ → size (nodes_of g') < size (nodes_of g))) g.
Proof using All.
  intros HI. unfold removal_wave.
  apply (wpx_foldM D (λ rest r g',
           I rest r.1.1 r.1.2 r.2 g' ∧
           size (nodes_of g') ≤ size (nodes_of g) ∧
           (r.1.1 ≠ ∅ → size (nodes_of g') < size (nodes_of g)))).
  { simpl. split_and!; [done|lia|done]. }
  intros x rest [[next aff'] rem'] g1 (HI1 & Hle & Hlt). simpl in *.
  apply wpx_RemoveNodes_body.
  - intros Hnone. simpl.
    split_and!; [by apply I_absent|done|done].
  - intros node ups g' Hnode Hups Hg'. simpl.
    assert (size (nodes_of g') < size (nodes_of g1)) as Hdec.
    { destruct (remove_effect_views _ _ _ Hg') as (-> & _).
      apply subset_size, subset_difference_elem_of, elem_of_nodes_of.
      eauto. }
    split_and!; [by eapply I_present|lia|lia].
  - by eapply I_dangling.
  - by eapply I_end.
Qed.

Lemma wpx_RemoveNodes_loop fuel curr aff rem g :
  I (elements curr) ∅ aff rem g →
  (curr ≠ ∅ → size (nodes_of g) < fuel) →
  wpx D (RemoveNodes_loop fuel c curr aff rem)
    (λ r g', I [] ∅ r.1 r.2 g') g.
Proof using All.
  revert curr aff rem g.
  induction fuel as [|fuel IH]; intros curr aff rem g HI Hfuel; simpl.
  - destruct (decide (curr = ∅)) as [->|Hne]; [|specialize (Hfuel Hne); lia].
    apply wpx_ret. simpl. by rewrite elements_empty in HI.
  - destruct (decide (curr = ∅)) as [->|Hne].
    { apply wpx_ret. simpl. by rewrite elements_empty in HI. }
    specialize (Hfuel Hne). apply wpx_bind.
    eapply wpx_mono; [done| |by apply wpx_removal_wave].
    simpl. intros [[next aff'] rem'] g' (HI' & Hle & Hlt). simpl in *.
    apply IH; [by apply I_next|]. intros Hn. specialize (Hlt Hn). lia.
Qed.

Lemma wpx_RemoveNodes_gen ids g :
  I (elements ids) ∅ ∅ ∅ g →
  wpx D (RemoveNodes ids c) (λ r g', I [] ∅ r.1 r.2 g') g.
Proof using All.
  intros HI. unfold RemoveNodes.
  change (wpx D (RemoveNodes_loop (S (size (graph_ref_ g))) c ids ∅ ∅)
            (λ r g', I [] ∅ r.1 r.2 g') g).
  apply wpx_RemoveNodes_loop; [done|]. intros _.
  unfold nodes_of. rewrite size_dom. lia.
Qed.
End RemoveNodes_loop.

(** ** The mutators keep every stable invariant *)

Lemma dangling_free_down_closed g k :
  dangling_free g →
  down_closed g (downstreams_of g k) ∧ upstreams_of g k ⊆ nodes_of g.
Proof. intros [Hd Hu]. by repeat split. Qed.

Lemma waiter_keys_subseteq g k :
  waiter_keys g → missing_of g k ⊆ dom (missing_nodes_ref_ g).
Proof. intros Hkeys name. apply Hkeys. Qed.

(** An invariant [Inv] kept by the effect of one iteration is kept by the
    mutator; [D] has to allow the stops that [Inv] does not exclude. *)
Lemma wpx_UpdateNodes_inv D (Inv : @Graph ModelConfig → Prop) ids mm g :
  (∀ model_id info g g', update_effect model_id info g g' → Inv g → Inv g') →
  (∀ g, Inv g → ¬ dangling_free g → D DanglingNode) →
  (∀ g, Inv g → ¬ waiter_keys g → D EndIterator) →
  Inv g →
  ((∃ id, id ∈ ids ∧ id ∈ nodes_of g ∧ mm id = None) → D NullModelInfo) →
  wpx D (UpdateNodes ids mm)
    (λ r g', Inv g' ∧ nodes_of g' = nodes_of g ∧ r ⊆ ids) g.
Proof.
  intros Inv_update Inv_dangling Inv_end HI HNull. unfold UpdateNodes.
  eapply wpx_mono; [done| |].
  2:{ apply (wpx_foldM D (λ rest r g',
        Inv g' ∧ nodes_of g' = nodes_of g ∧ r ⊆ ids ∧
        ∀ x, x ∈ rest → x ∈ ids)).
      - split_and!; [done|done|set_solver|].
        intros x. by rewrite elem_of_elements.
      - intros x rest r g1 (HI1 & Hn1 & Hr & Hrest).
        destruct (graph_ref_ g1 !! x) as [node|] eqn:Hnode.
        + eapply wpx_UpdateNodes_body; [done|..].
          * intros info g2 Hinfo Hg2. split_and!.
            -- by eapply Inv_update.
            -- by rewrite (proj1 (update_effect_views _ _ _ _ Hg2)).
            -- set_solver.
            -- set_solver.
          * intros Hn. apply (Inv_dangling g1 HI1). intros Hdf.
            by apply Hn, dangling_free_down_closed.
          * intros Hn. apply (Inv_end g1 HI1). intros Hk.
            by apply Hn, waiter_keys_subseteq.
          * intros Hnone. apply HNull. exists x. split_and!; [set_solver| |done].
            rewrite <-Hn1. apply elem_of_nodes_of. eauto.
        + apply wpx_UpdateNodes_body_absent; [done|].
          split_and!; [done|done|done|set_solver]. }
  simpl. intros r g' (? & ? & ? & _). done.
Qed.

Lemma wpx_AddNodes_inv D (Inv : @Graph ModelConfig → Prop) ids mm g :
  (∀ model_id info g g', add_effect model_id info g g' → Inv g → Inv g') →
  (∀ g, Inv g → ¬ dangling_free g → D DanglingNode) →
  Inv g →
  ((∃ id, id ∈ ids ∧ mm id = None) → D NullModelInfo) →
  wpx D (AddNodes ids mm)
    (λ r g', Inv g' ∧ nodes_of g' = ids ∪ nodes_of g ∧ ids ⊆ r) g.
Proof.
  intros Inv_add Inv_dangling HI HNull. unfold AddNodes.
  eapply wpx_mono; [done| |].
  2:{ apply (wpx_foldM D (λ rest r g',
        Inv g' ∧ nodes_of g' ∪ list_to_set rest = ids ∪ nodes_of g ∧
        ids ⊆ r ∪ list_to_set rest ∧ ∀ x, x ∈ rest → x ∈ ids)).
      - split_and!; [done| | |].
        + rewrite list_to_set_elements_L. set_solver.
        + rewrite list_to_set_elements_L. set_solver.
        + intros x. by rewrite elem_of_elements.
      - intros x rest r g1 (HI1 & Hn1 & Hr & Hrest).
        apply wpx_AddNodes_body.
        + intros info g2 r' Hinfo Hg2 Hr'. split_and!.
          * by eapply Inv_add.
          * rewrite (proj1 (add_effect_views _ _ _ _ Hg2)).
            rewrite <-Hn1. set_solver.
          * set_solver.
          * set_solver.
        + intros Hn. apply (Inv_dangling g1 HI1). intros [Hdf _].
          by apply Hn.
        + intros Hnone. apply HNull. exists x. split; [set_solver|done]. }
  simpl. intros r g' (? & Hn & Hr & _). split_and!; [done|set_solver..].
Qed.

Lemma wpx_RemoveNodes_inv D (Inv : @Graph ModelConfig → Prop) ids c g :
  (∀ model_id g g', remove_effect model_id g g' → Inv g → Inv g') →
  (∀ g, Inv g → ¬ dangling_free g → D DanglingNode) →
  (∀ g, Inv g → ¬ waiter_keys g → D EndIterator) →
  Inv g →
  wpx D (RemoveNodes ids c)
    (λ r g', Inv g' ∧ r.1 = ∅ ∧ ids ⊆ r.2 ∧
             nodes_of g' = nodes_of g ∖ r.2) g.
Proof.
  intros Inv_remove Inv_dangling Inv_end HI.
  eapply wpx_mono; [done| |].
  2:{ apply (wpx_RemoveNodes_gen D c (λ rest next aff rem g',
        Inv g' ∧ aff = ∅ ∧ ids ⊆ rem ∪ list_to_set rest ∧
        nodes_of g' = nodes_of g ∖ rem)).
      - intros x rest next aff rem g1 (HI1 & -> & Hids & Hn) Hx.
        split_and!; [done|set_solver|set_solver|].
        rewrite Hn. apply not_elem_of_dom in Hx.
        fold (nodes_of g1) in Hx. set_solver.
      - intros x rest next aff rem g1 node ups g2
          (HI1 & -> & Hids & Hn) Hx Hups Hg2.
        split_and!; [by eapply Inv_remove|set_solver|set_solver|].
        rewrite (proj1 (remove_effect_views _ _ _ Hg2)), Hn. set_solver.
      - intros next aff rem g1 (HI1 & -> & Hids & Hn).
        split_and!; [done|done|set_solver|done].
      - intros x rest next aff rem g1 (HI1 & _) Hx Hn.
        apply (Inv_dangling g1 HI1). intros Hdf.
        by apply Hn, dangling_free_down_closed.
      - intros x rest next aff rem g1 (HI1 & _) Hx Hn.
        apply (Inv_end g1 HI1). intros Hk.
        by apply Hn, waiter_keys_subseteq.
      - split_and!; [done|done| |set_solver].
        rewrite list_to_set_elements_L. set_solver. }
  simpl. intros [aff rem] g' (? & ? & ? & ?). simpl.
  split_and!; [done|done|set_solver|done].
Qed.

(** ** Reachable graph states *)

Lemma mutation_invariant (Inv : Graph → Prop) g g' :
  (∀ model_id info g g', update_effect model_id info g g' → Inv g → Inv g') →
  (∀ model_id g g', remove_effect model_id g g' → Inv g → Inv g') →
  (∀ model_id info g g', add_effect model_id info g g' → Inv g → Inv g') →
  Inv g → mutation g g' → Inv g'.
Proof.
  intros Hu Hr Ha HI [ids mm r Hrun|ids mm r Hrun|ids c r Hrun].
  - eapply (wpx_ret_inv always _ (λ r g', Inv g' ∧ _)); [|exact Hrun].
    by apply wpx_AddNodes_inv.
  - eapply (wpx_ret_inv always _ (λ r g', Inv g' ∧ _)); [|exact Hrun].
    by apply wpx_UpdateNodes_inv.
  - eapply (wpx_ret_inv always _ (λ r g', Inv g' ∧ _)); [|exact Hrun].
    by apply wpx_RemoveNodes_inv.
Qed.

Lemma reachable_invariant (Inv : Graph → Prop) g g' :
  (∀ model_id info g g', update_effect model_id info g g' → Inv g → Inv g') →
  (∀ model_id g g', remove_effect model_id g g' → Inv g → Inv g') →
  (∀ model_id info g g', add_effect model_id info g g' → Inv g → Inv g') →
  Inv g → reachable g g' → Inv g'.
Proof.
  intros Hu Hr Ha HI Hreach. induction Hreach as [|g1 g2 g3 Hstep _ IH];
    [done|].
  apply IH. by eapply mutation_invariant.
Qed.

(** ** What [UpdateNodes] leaves in an updated node *)

Lemma update_effect_node model_id info g g' k n :
  update_effect model_id info g g' → graph_ref_ g !! k = Some n →
  ∃ n', graph_ref_ g' !! k = Some n' ∧ names_kept n n' ∧
        (k = model_id → refreshed info n') ∧
        (k ≠ model_id → ∀ i, refreshed i n → refreshed i n').
Proof.
  intros (_ & _ & Hk) Hn. specialize (Hk k). rewrite Hn in Hk.
  inversion Hk as [? n' (n1 & Ht & ->)|]; subst. eexists. split; [done|].
  split_and!.
  - destruct Ht as [->|[_ ->]]; repeat case_decide; by split.
  - intros ->. destruct (decide (model_id = model_id)); [|done].
    destruct Ht as [->|[_ ->]]; case_decide; by repeat split.
  - intros Hne i (Hu & Hc & He & Hch & Hs).
    destruct (decide (k = model_id)); [done|].
    destruct Ht as [->|[Hch' ->]]; [|congruence].
    case_decide; by repeat split.
Qed.

Lemma wpx_UpdateNodes_refreshed D (Inv : @Graph ModelConfig → Prop)
    ids mm g :
  (∀ model_id info g g', update_effect model_id info g g' → Inv g → Inv g') →
  (∀ g, Inv g → ¬ dangling_free g → D DanglingNode) →
  (∀ g, Inv g → ¬ waiter_keys g → D EndIterator) →
  Inv g →
  ((∃ id, id ∈ ids ∧ id ∈ nodes_of g ∧ mm id = None) → D NullModelInfo) →
  wpx D (UpdateNodes ids mm)
    (λ r g', ∀ k n, graph_ref_ g !! k = Some n →
       ∃ n', graph_ref_ g' !! k = Some n' ∧ names_kept n n' ∧
             (k ∈ ids → ∃ info, mm k = Some info ∧ refreshed info n')) g.
Proof.
  intros Inv_update Inv_dangling Inv_end Hwf HNull. unfold UpdateNodes.
  eapply wpx_mono; [done| |].
  2:{ apply (wpx_foldM D (λ rest r g',
        Inv g' ∧ nodes_of g' = nodes_of g ∧
        (∀ x, x ∈ rest → x ∈ ids) ∧
        ∀ k n, graph_ref_ g !! k = Some n →
          ∃ n', graph_ref_ g' !! k = Some n' ∧ names_kept n n' ∧
                (k ∈ ids → k ∉ rest →
                 ∃ info, mm k = Some info ∧ refreshed info n'))).
      - split_and!; [done|done| |].
        + intros x. by rewrite elem_of_elements.
        + intros k n Hn. exists n. split_and!; [done|done|].
          intros Hin Hnin. by rewrite elem_of_elements in Hnin.
      - intros x rest r g1 (Hwf1 & Hn1 & Hrest & Hnodes).
        destruct (graph_ref_ g1 !! x) as [node|] eqn:Hnode.
        + eapply wpx_UpdateNodes_body; [done|..].
          * intros info g2 Hinfo Hg2. split_and!.
            -- by eapply Inv_update.
            -- by rewrite (proj1 (update_effect_views _ _ _ _ Hg2)).
            -- set_solver.
            -- intros k n Hn.
               destruct (Hnodes k n Hn) as (n1 & Hk1 & [Hm1 Hf1] & Hdone).
               destruct (update_effect_node _ _ _ _ _ _ Hg2 Hk1)
                 as (n2 & Hk2 & [Hm2 Hf2] & Heq & Hne).
               exists n2. split_and!; [done|split; congruence|].
               intros Hin Hnin. destruct (decide (k = x)) as [->|Hkx].
               ++ exists info. split; [done|]. by apply Heq.
               ++ destruct Hdone as (i & Hi & Hr); [done|set_solver|].
                  exists i. split; [done|]. by apply Hne.
          * intros Hn. apply (Inv_dangling g1 Hwf1). intros Hdf.
            by apply Hn, dangling_free_down_closed.
          * intros Hn. apply (Inv_end g1 Hwf1). intros Hk.
            by apply Hn, waiter_keys_subseteq.
          * intros Hnone. apply HNull. exists x.
            split_and!; [set_solver| |done].
            rewrite <-Hn1. apply elem_of_nodes_of. eauto.
        + apply wpx_UpdateNodes_body_absent; [done|].
          split_and!; [done|done|set_solver|].
          intros k n Hn.
          destruct (Hnodes k n Hn) as (n1 & Hk1 & Hkept & Hdone).
          exists n1. split_and!; [done..|].
          intros Hin Hnin. apply Hdone; [done|].
          intros [->|?]%elem_of_cons; [congruence|done]. }
  simpl. intros r g' (_ & _ & _ & Hnodes) k n Hn.
  destruct (Hnodes k n Hn) as (n' & Hk' & Hkept & Hdone).
  exists n'. split_and!; [done..|].
  intros Hin. apply Hdone; [done|]. by intros ?%elem_of_nil.
Qed.

(** ** Cascading removal *)

Lemma node_at_FindNode_exact g u :
  node_at g (FindNode u false g) = graph_ref_ g !! u.
Proof.
  unfold FindNode. destruct (graph_ref_ g !! u) eqn:Hu; simpl; [|done].
  by rewrite Hu.
Qed.

Lemma orphaned_spec g u :
  orphaned g u = true ↔
  u ∈ nodes_of g ∧ downstreams_of g u = ∅ ∧ explicit_of g u = false.
Proof.
  unfold orphaned, downstreams_of, explicit_of, node_field.
  rewrite node_at_FindNode_exact, elem_of_nodes_of.
  destruct (graph_ref_ g !! u) as [n|]; simpl.
  - rewrite andb_true_iff, bool_decide_eq_true, negb_true_iff.
    split; [intros [? ?]; eauto|tauto].
  - split; [done|]. by intros [[? ?] _].
Qed.

Lemma ids_through_eq g (l ups : gset ModelIdentifier) :
  ids_ok g → l ⊆ nodes_of g → ids_through g l ups → ups = l.
Proof.
  intros Hids Hl Hups. apply set_eq. intros x. rewrite (Hups x). split.
  - intros (u & n & Hu & Hn & <-). by rewrite (Hids u n Hn).
  - intros Hx. pose proof Hx as [n Hn]%Hl%elem_of_nodes_of.
    exists x, n. split_and!; [done..|]. by apply Hids.
Qed.

Lemma filter_orphaned_spec g g' model_id ups :
  well_formed g → ids_through g (upstreams_of g model_id) ups →
  newly_orphaned g g' model_id (filter (λ u, orphaned g' u = true) ups).
Proof.
  intros (Hrec & _ & Hids) Hups u.
  rewrite (ids_through_eq _ _ _ Hids (proj2 (edge_reciprocity_valid g Hrec) _)
             Hups).
  rewrite elem_of_filter, orphaned_spec. tauto.
Qed.

Lemma cascade_inv_init g pending : well_formed g → cascade_inv g pending g.
Proof.
  intros Hwf. split_and!; [done| |].
  - intros u Hu. split; [done|]. intros d. split; [|tauto].
    intros Hd. split; [done|].
    by apply (proj1 (edge_reciprocity_valid g (proj1 Hwf)) u).
  - intros u Hu _ Hempty (d & Hd & _). set_solver.
Qed.

Lemma cascade_inv_absent g x pending g' :
  cascade_inv g ({[x]} ∪ pending) g' → x ∉ nodes_of g' →
  cascade_inv g pending g'.
Proof.
  intros (Hwf & Hkeep & Hpend) Hx. split_and!; [done..|].
  intros u Hu He Hd Hlost. specialize (Hpend u Hu He Hd Hlost). set_solver.
Qed.

Lemma cascade_inv_present g x pending next g1 g2 ups :
  cascade_inv g ({[x]} ∪ pending ∪ next) g1 → x ∈ nodes_of g1 →
  ids_through g1 (upstreams_of g1 x) ups → remove_effect x g1 g2 →
  cascade_inv g
    (pending ∪ (filter (λ u, orphaned g2 u = true) ups ∪ next)) g2.
Proof.
  intros (Hwf & Hkeep & Hpend) Hx Hups Hg2.
  pose proof (filter_orphaned_spec _ g2 _ _ Hwf Hups) as Hq.
  pose proof (remove_effect_well_formed _ _ _ Hg2 Hwf) as Hwf2.
  destruct (remove_effect_views _ _ _ Hg2)
    as (Hn2 & _ & _ & _ & Hd2 & _ & He2 & _).
  pose proof (proj1 Hwf) as Hrec.
  split_and!; [done| |].
  - intros u Hu. rewrite Hn2 in Hu.
    apply elem_of_difference in Hu as [Hu Hux%not_elem_of_singleton].
    destruct (Hkeep u Hu) as [He Hd]. split.
    + rewrite He2 by done. done.
    + intros d. rewrite Hd2, Hn2. rewrite decide_False by done.
      pose proof (Hd d). pose proof (Hrec x u).
      case_decide; set_solver.
  - intros u Hu He Hd (d & Hd0 & Hdn).
    rewrite Hn2 in Hu. pose proof Hu as Hu'.
    apply elem_of_difference in Hu as [Hu Hux%not_elem_of_singleton].
    destruct (decide (u ∈ upstreams_of g1 x)) as [Hin|Hnin].
    + assert (u ∈ filter (λ u, orphaned g2 u = true) ups); [|set_solver].
      apply Hq. rewrite Hn2. done.
    + rewrite He2 in He by done. rewrite Hd2 in Hd.
      rewrite decide_False, decide_False in Hd by done.
      destruct (Hkeep u Hu) as [_ Hdk].
      assert (d ∉ nodes_of g1) as Hdn1.
      { intros Hd1. rewrite Hn2 in Hdn.
        destruct (decide (d = x)) as [->|Hdx]; [|set_solver].
        assert (x ∈ downstreams_of g1 u) by (by apply Hdk). set_solver. }
      assert (u ∈ {[x]} ∪ pending ∪ next); [|set_solver].
      apply Hpend; eauto.
Qed.

(** The removed set of a cascading removal is made of listed and cascaded
    identifiers, and the nodes left are the ones that are not in it. *)
Lemma wpx_RemoveNodes_cascaded ids g :
  well_formed g →
  wpx never (RemoveNodes ids true)
    (λ r g', cascade_inv g ∅ g' ∧ nodes_of g' = nodes_of g ∖ r.2 ∧
             ids ⊆ r.2 ∧ ∀ u, u ∈ r.2 → cascaded g ids u) g.
Proof.
  intros Hwf. eapply wpx_mono; [done| |].
  2:{ apply (wpx_RemoveNodes_gen never true (λ rest next _ rem g1,
        cascade_inv g (list_to_set rest ∪ next) g1 ∧
        nodes_of g1 = nodes_of g ∖ rem ∧
        ids ⊆ rem ∪ list_to_set rest ∧
        ∀ u, u ∈ rem ∪ list_to_set rest ∪ next → cascaded g ids u)).
      - intros x rest next aff rem g1 (Hinv & Hn1 & Hids & Hq) Hx.
        apply not_elem_of_dom in Hx. fold (nodes_of g1) in Hx.
        rewrite list_to_set_cons in Hinv, Hids, Hq.
        split_and!.
        + eapply cascade_inv_absent; [|done].
          by rewrite <-(assoc_L (∪)) in Hinv.
        + rewrite Hn1 in Hx |- *. clear -Hx. set_solver.
        + clear -Hids. set_solver.
        + intros u Hu. apply Hq. clear -Hu. set_solver.
      - intros x rest next aff rem g1 node ups g2 (Hinv & Hn1 & Hids & Hq)
          Hx Hups Hg2.
        assert (x ∈ nodes_of g1) as Hxn by (apply elem_of_nodes_of; eauto).
        rewrite list_to_set_cons in Hinv, Hids, Hq.
        pose proof (cascade_inv_present _ _ _ _ _ _ _ Hinv Hxn Hups Hg2)
          as Hinv2.
        pose proof (proj1 (remove_effect_views _ _ _ Hg2)) as Hn2.
        split_and!; [done| | |].
        + rewrite Hn2, Hn1. clear. set_solver.
        + clear -Hids. set_solver.
        + intros u Hu.
          destruct (decide (u ∈ filter (λ u, orphaned g2 u = true) ups))
            as [Hnew|Hold]; [|apply Hq; clear -Hu Hold; set_solver].
          destruct Hinv as (Hwf1 & Hkeep1 & _).
          destruct Hinv2 as (_ & Hkeep2 & _).
          apply elem_of_filter in Hnew as [Horph Huups].
          apply orphaned_spec in Horph as (Hu2 & Hd2 & He2).
          rewrite (ids_through_eq g1 _ _ (proj2 (proj2 Hwf1))
                     (proj2 (edge_reciprocity_valid g1 (proj1 Hwf1)) _) Hups)
            in Huups.
          destruct (Hkeep2 u Hu2) as [He Hd].
          assert (u ∈ nodes_of g1) as Hu1
            by (rewrite Hn2 in Hu2; clear -Hu2; set_solver).
          assert (u ∈ nodes_of g) as Hu0
            by (rewrite Hn1 in Hu1; clear -Hu1; set_solver).
          apply cascaded_orphan; [done|congruence| |].
          * apply (proj1 Hwf1) in Huups.
            apply (proj2 (Hkeep1 u Hu1)) in Huups. clear -Huups. set_solver.
          * intros d Hd0.
            assert (d ∈ nodes_of g) as Hdn
              by (by apply (proj1 (edge_reciprocity_valid g (proj1 Hwf)) u)).
            assert (d ∉ nodes_of g2) as Hd2n.
            { intros Hd2'. assert (d ∈ downstreams_of g2 u) by (by apply Hd).
              rewrite Hd2 in *. set_solver. }
            apply Hq. rewrite Hn2, Hn1 in Hd2n. clear -Hdn Hd2n.
            destruct (decide (d = x)), (decide (d ∈ rem)); set_solver.
      - intros next aff rem g1 (Hinv & Hn1 & Hids & Hq).
        rewrite list_to_set_elements_L. simpl in *.
        split_and!; [by rewrite (comm_L (∪))|done| |].
        + clear -Hids. set_solver.
        + intros u Hu. apply Hq. clear -Hu. set_solver.
      - intros x rest next aff rem g1 ((Hwf1 & _) & _) _ Hn. apply Hn.
        apply edge_reciprocity_down_closed, Hwf1.
      - intros x rest next aff rem g1 ((Hwf1 & _) & _) _ Hn.
        apply Hn, waiter_keys_subseteq, Hwf1.
      - rewrite list_to_set_elements_L.
        split_and!; [by apply cascade_inv_init|set_solver|set_solver|].
        intros u Hu. apply cascaded_listed. clear -Hu. set_solver. }
  simpl. intros [aff rem] g' (Hinv & Hn & Hids & Hq). simpl in *.
  rewrite union_empty_l_L in Hinv.
  split_and!; [done|done|set_solver|]. intros u Hu. apply Hq. set_solver.
Qed.

(** ** Decision procedures for the invariants *)

Lemma edge_reciprocity_b_true g :
  edge_reciprocity_b g = true → edge_reciprocity g.
Proof.
  unfold edge_reciprocity_b. rewrite bool_decide_eq_true.
  intros Hall n u. split.
  - intros Hu. pose proof (upstreams_of_nodes _ _ _ Hu) as Hn.
    by apply (proj1 (Hall n Hn)).
  - intros Hn. pose proof (downstreams_of_nodes _ _ _ Hn) as Hu.
    by apply (proj2 (Hall u Hu)).
Qed.

Lemma waiters_of_elem g (n : ModelIdentifier) name :
  n ∈ waiters_of g name ↔
  ∃ s, missing_nodes_ref_ g !! name = Some s ∧ n ∈ s.
Proof.
  unfold waiters_of. destruct (missing_nodes_ref_ g !! name); simpl.
  - split; [eauto|]. by intros (? & [= ->] & ?).
  - split; [set_solver|]. by intros (? & ? & ?).
Qed.

Lemma waiter_reciprocity_b_true g :
  waiter_reciprocity_b g = true → waiter_reciprocity g.
Proof.
  unfold waiter_reciprocity_b. rewrite bool_decide_eq_true.
  intros [Hnodes Hmap] n name. split.
  - intros Hm. by apply (Hnodes n (missing_of_nodes _ _ _ Hm)).
  - intros (s & Hs & Hn)%waiters_of_elem. by apply (Hmap name s Hs).
Qed.

Lemma waiter_keys_b_true g : waiter_keys_b g = true → waiter_keys g.
Proof.
  unfold waiter_keys_b. rewrite bool_decide_eq_true.
  intros Hall n name Hm. by apply (Hall n (missing_of_nodes _ _ _ Hm)).
Qed.

Lemma ids_ok_b_true g : ids_ok_b g = true → ids_ok g.
Proof. unfold ids_ok_b. by rewrite bool_decide_eq_true. Qed.

Lemma by_name_of_elem g id name :
  id ∈ by_name_of g name ↔
  ∃ s, global_map_ref_ g !! name = Some s ∧ id ∈ s.
Proof.
  unfold by_name_of. destruct (global_map_ref_ g !! name); simpl.
  - split; [eauto|]. by intros (? & [= ->] & ?).
  - split; [set_solver|]. by intros (? & ? & ?).
Qed.

Lemma name_index_coverage_b_true g :
  name_index_coverage_b g = true → name_index_coverage g.
Proof.
  unfold name_index_coverage_b. rewrite bool_decide_eq_true.
  intros [Hnodes Hmap] id. split.
  - apply Hnodes.
  - intros (s & Hs & Hid)%by_name_of_elem. by apply (Hmap _ s Hs id).
Qed.

Lemma well_formed_b_true g : well_formed_b g = true → well_formed g.
Proof.
  unfold well_formed_b. rewrite !andb_true_iff. intros [[? ?] ?].
  split_and!; [by apply edge_reciprocity_b_true|by apply waiter_keys_b_true|
               by apply ids_ok_b_true].
Qed.

(** ** Well-formed graphs *)

Lemma well_formed_reachable g0 g :
  well_formed g0 → reachable g0 g → well_formed g.
Proof.
  apply reachable_invariant.
  - apply update_effect_well_formed.
  - apply remove_effect_well_formed.
  - apply add_effect_well_formed.
Qed.

Lemma waiter_keys_reachable g0 g :
  waiter_keys g0 → reachable g0 g → waiter_keys g.
Proof.
  apply reachable_invariant.
  - apply update_effect_waiter_keys.
  - apply remove_effect_waiter_keys.
  - apply add_effect_waiter_keys.
Qed.

(** On a well-formed graph [AddNodes] returns whenever the model info of
    every listed identifier can be looked up. *)
Lemma AddNodes_total ids mm g :
  well_formed g → (∀ id, id ∈ ids → is_Some (mm id)) →
  ∃ r g', AddNodes ids mm g = Ret (r, g') ∧ well_formed g' ∧
          nodes_of g' = ids ∪ nodes_of g ∧ ids ⊆ r.
Proof.
  intros Hwf Hinfo.
  apply wpx_never, wpx_AddNodes_inv; [|  |done|].
  - apply add_effect_well_formed.
  - intros g1 Hwf1 Hn. apply Hn, edge_reciprocity_valid, Hwf1.
  - intros (id & Hin & Hnone). specialize (Hinfo id Hin).
    rewrite Hnone in Hinfo. by destruct Hinfo.
Qed.

(** ** The recursion budget is never exhausted *)

Lemma fuel_suffices g :
  (∀ ds, UncheckDownstream ds g ≠ Stop NoFuel) ∧
  (∀ ids mm, AddNodes ids mm g ≠ Stop NoFuel) ∧
  (∀ ids mm, UpdateNodes ids mm g ≠ Stop NoFuel) ∧
  (∀ ids c, RemoveNodes ids c g ≠ Stop NoFuel).
Proof.
  pose (D := λ s, s ≠ NoFuel).
  assert (Hu : ∀ model_id info g1 g2,
    update_effect model_id info g1 g2 → True → True) by done.
  assert (Hr : ∀ model_id g1 g2,
    remove_effect (ModelConfig := ModelConfig) model_id g1 g2 →
    True → True) by done.
  assert (Ha : ∀ model_id info g1 g2,
    add_effect model_id info g1 g2 → True → True) by done.
  assert (Hd : ∀ g1, True → ¬ dangling_free g1 → D DanglingNode) by done.
  assert (He : ∀ g1, True → ¬ waiter_keys g1 → D EndIterator) by done.
  split_and!.
  - intros ds Hstop.
    assert (wpx D (UncheckDownstream ds) (λ _ _, True) g) as Hwp
      by (by apply wpx_UncheckDownstream).
    by apply (wpx_stop_inv _ _ _ _ _ Hwp Hstop).
  - intros ids mm Hstop.
    pose proof (wpx_AddNodes_inv D (λ _, True) ids mm g Ha Hd I
                  (λ _, ltac:(done))) as Hwp.
    by apply (wpx_stop_inv _ _ _ _ _ Hwp Hstop).
  - intros ids mm Hstop.
    pose proof (wpx_UpdateNodes_inv D (λ _, True) ids mm g Hu Hd He I
                  (λ _, ltac:(done))) as Hwp.
    by apply (wpx_stop_inv _ _ _ _ _ Hwp Hstop).
  - intros ids c Hstop.
    pose proof (wpx_RemoveNodes_inv D (λ _, True) ids c g Hr Hd He I)
      as Hwp.
    by apply (wpx_stop_inv _ _ _ _ _ Hwp Hstop).
Qed.

(** * Main results *)

(** ** Edge reciprocity *)

(** C4. Edge reciprocity holds in every graph state that the graph mutators
    ([AddNodes], [UpdateNodes], [RemoveNodes]) reach from a state in which it
    holds: for all nodes [n] and [u], [u] is a key of [n]'s upstreams iff
    [n] is a member of [u]'s downstreams (and no edge leaves the graph). *)
Theorem edge_reciprocity_reachable (g0 g : @Graph ModelConfig) :
  edge_reciprocity g0 → reachable g0 g →
  edge_reciprocity g ∧
  ∀ kn n ku u,
    graph_ref_ g !! kn = Some n → graph_ref_ g !! ku = Some u →
    (ku ∈ dom (upstreams_ n) ↔ kn ∈ downstreams_ u).
Proof.
  intros H0 Hreach.
  assert (edge_reciprocity g) as Hrec.
  { revert H0 Hreach. apply reachable_invariant.
    - apply update_effect_edge_reciprocity.
    - apply remove_effect_edge_reciprocity.
    - apply add_effect_edge_reciprocity. }
  split; [done|]. intros kn n ku u Hn Hu. specialize (Hrec kn ku).
  unfold upstreams_of, downstreams_of, node_field in Hrec.
  by rewrite Hn, Hu in Hrec.
Qed.

(** ** Waiter registrations *)

(** C1 (amended). In every graph state that the graph mutators reach from a
    state in which every waiter registration is backed by its node, every
    registration still is: if [n] is in [waiters[name]] then [name] is in
    [n]'s missing upstreams.  ([UpdateNodes] erases the registrations of the
    node and keeps its missing upstreams, so the converse is not kept.) *)
Theorem waiters_registered_reachable (g0 g : @Graph ModelConfig) :
  waiters_registered g0 → reachable g0 g → waiters_registered g.
Proof.
  apply reachable_invariant.
  - apply update_effect_waiters_registered.
  - apply remove_effect_waiters_registered.
  - apply add_effect_waiters_registered.
Qed.

(** [AddNodes] and [RemoveNodes] keep the whole equivalence. *)
Lemma add_effect_waiter_reciprocity model_id info g g' :
  add_effect model_id info g g' →
  waiter_reciprocity g → waiter_reciprocity g'.
Proof.
  intros H Hrec n name. rewrite (add_effect_waiters_of _ _ _ _ _ H).
  destruct (add_effect_views _ _ _ _ H) as (_ & _ & _ & _ & _ & Hm & _).
  rewrite Hm. apply Hrec.
Qed.

Lemma remove_effect_waiter_reciprocity model_id g g' :
  remove_effect model_id g g' →
  waiter_reciprocity g → waiter_reciprocity g'.
Proof.
  intros (_ & _ & Hw & _ & _ & Hm & _)%remove_effect_views Hrec n name.
  rewrite Hw, Hm. pose proof (Hrec n name). pose proof (Hrec model_id name).
  repeat case_decide; subst; set_solver.
Qed.

Lemma AddNodes_waiter_reciprocity ids mm g r g' :
  waiter_reciprocity g → AddNodes ids mm g = Ret (r, g') →
  waiter_reciprocity g'.
Proof.
  intros Hrec Hrun.
  pose proof (wpx_AddNodes_inv always waiter_reciprocity ids mm g
    add_effect_waiter_reciprocity (λ _ _ _, I) Hrec (λ _, I)) as Hwp.
  apply (wpx_ret_inv _ _ _ _ _ _ Hwp) in Hrun. tauto.
Qed.

Lemma RemoveNodes_waiter_reciprocity ids c g r g' :
  waiter_reciprocity g → RemoveNodes ids c g = Ret (r, g') →
  waiter_reciprocity g'.
Proof.
  intros Hrec Hrun.
  pose proof (wpx_RemoveNodes_inv always waiter_reciprocity ids c g
    remove_effect_waiter_reciprocity (λ _ _ _, I) (λ _ _ _, I) Hrec) as Hwp.
  apply (wpx_ret_inv _ _ _ _ _ _ Hwp) in Hrun. tauto.
Qed.

(** ** The name index *)

(** C3 (amended). No graph mutator writes the [by_name] index:
    [AddNodes] inserts each added identifier into the nodes map only,
    [RemoveNodes] erases the removed identifiers that were present from the
    nodes map only, and [UpdateNodes] changes neither. *)
Theorem by_name_untouched :
  (∀ ids mm (g : @Graph ModelConfig) r g',
     AddNodes ids mm g = Ret (r, g') →
     nodes_of g' = ids ∪ nodes_of g ∧
     global_map_ref_ g' = global_map_ref_ g) ∧
  (∀ ids mm (g : @Graph ModelConfig) r g',
     UpdateNodes ids mm g = Ret (r, g') →
     nodes_of g' = nodes_of g ∧
     global_map_ref_ g' = global_map_ref_ g) ∧
  (∀ ids c (g : @Graph ModelConfig) r g',
     RemoveNodes ids c g = Ret (r, g') →
     nodes_of g' = nodes_of g ∖ r.2 ∧
     global_map_ref_ g' = global_map_ref_ g).
Proof.
  assert (Hu : ∀ g0 model_id info g g',
    update_effect model_id info g g' →
    global_map_ref_ g = global_map_ref_ g0 →
    global_map_ref_ g' = global_map_ref_ g0).
  { intros g0 model_id info g g' (Hgl & _). congruence. }
  assert (Hr : ∀ g0 model_id g g',
    remove_effect model_id g g' →
    global_map_ref_ g = global_map_ref_ g0 →
    global_map_ref_ g' = global_map_ref_ g0).
  { intros g0 model_id g g' (Hgl & _). congruence. }
  assert (Ha : ∀ g0 model_id info g g',
    add_effect model_id info g g' →
    global_map_ref_ g = global_map_ref_ g0 →
    global_map_ref_ g' = global_map_ref_ g0).
  { intros g0 model_id info g g' (_ & Hgl & _)%add_effect_views. congruence. }
  split_and!.
  - intros ids mm g r g' Hrun.
    pose proof (wpx_AddNodes_inv always
      (λ g1, global_map_ref_ g1 = global_map_ref_ g) ids mm g
      (Ha g) (λ _ _ _, I) eq_refl (λ _, I)) as Hwp.
    apply (wpx_ret_inv _ _ _ _ _ _ Hwp) in Hrun. tauto.
  - intros ids mm g r g' Hrun.
    pose proof (wpx_UpdateNodes_inv always
      (λ g1, global_map_ref_ g1 = global_map_ref_ g) ids mm g
      (Hu g) (λ _ _ _, I) (λ _ _ _, I) eq_refl (λ _, I)) as Hwp.
    apply (wpx_ret_inv _ _ _ _ _ _ Hwp) in Hrun. tauto.
  - intros ids c g r g' Hrun.
    pose proof (wpx_RemoveNodes_inv always
      (λ g1, global_map_ref_ g1 = global_map_ref_ g) ids c g
      (Hr g) (λ _ _ _, I) (λ _ _ _, I) eq_refl) as Hwp.
    apply (wpx_ret_inv _ _ _ _ _ _ Hwp) in Hrun. tauto.
Qed.

(** ** UpdateNodes *)

(** C2 (amended). For every listed identifier that was in the graph, the
    node after [UpdateNodes] returned has no upstreams, the looked-up config
    and [explicitly_load], [checked = false] and [status = Success]; its
    missing and fuzzy-matched upstream names are the ones it had before the
    call.  On a well-formed graph, when the model info of every listed
    identifier that is in the graph can be looked up, [UpdateNodes] does
    return. *)
Theorem UpdateNodes_refreshes (ids : gset ModelIdentifier)
    (mm : ModelIdentifier → option ModelInfo) (g : @Graph ModelConfig) :
  (∀ r g',
     UpdateNodes ids mm g = Ret (r, g') →
     ∀ id n, id ∈ ids → graph_ref_ g !! id = Some n →
       ∃ info n',
         mm id = Some info ∧ graph_ref_ g' !! id = Some n' ∧
         upstreams_ n' = ∅ ∧
         model_config_ n' = info_model_config_ info ∧
         explicitly_load_ n' = info_explicitly_load_ info ∧
         checked_ n' = false ∧ status_ n' = Success ∧
         missing_upstreams_ n' = missing_upstreams_ n ∧
         fuzzy_matched_upstreams_ n' = fuzzy_matched_upstreams_ n) ∧
  (well_formed g →
   (∀ id, id ∈ ids → id ∈ nodes_of g → is_Some (mm id)) →
   ∃ r g', UpdateNodes ids mm g = Ret (r, g')).
Proof.
  split.
  - intros r g' Hrun id n Hin Hn.
    pose proof (wpx_UpdateNodes_refreshed always (λ _, True) ids mm g
      (λ _ _ _ _ _ _, I) (λ _ _ _, I) (λ _ _ _, I) I (λ _, I)) as Hwp.
    pose proof (wpx_ret_inv _ _ _ _ _ _ Hwp Hrun) as Hpost. simpl in Hpost.
    destruct (Hpost id n Hn) as (n' & Hn' & [Hm Hf] & Hdone).
    destruct (Hdone Hin) as (info & Hi & Hu & Hc & He & Hch & Hs).
    exists info, n'. by split_and!.
  - intros Hwf Hinfo.
    destruct (wpx_never _ _ _
      (wpx_UpdateNodes_inv never well_formed ids mm g
         update_effect_well_formed
         (λ g1 Hwf1 Hn, Hn (edge_reciprocity_valid g1 (proj1 Hwf1)))
         (λ g1 Hwf1 Hn, Hn (proj1 (proj2 Hwf1)))
         Hwf
         (λ '(ex_intro _ id (conj Hin (conj Hn Hnone))),
            is_Some_None (eq_ind _ _ (Hinfo id Hin Hn) _ Hnone))))
      as (r & g' & Hrun & _).
    eauto.
Qed.

(** ** RemoveNodes *)

Lemma RemoveNodes_total ids c g :
  well_formed g →
  ∃ aff rem g',
    RemoveNodes ids c g = Ret ((aff, rem), g') ∧
    well_formed g' ∧ aff = ∅ ∧ ids ⊆ rem ∧
    nodes_of g' = nodes_of g ∖ rem.
Proof.
  intros Hwf.
  destruct (wpx_never _ _ _
    (wpx_RemoveNodes_inv never well_formed ids c g
       remove_effect_well_formed
       (λ g1 Hwf1 Hn, Hn (edge_reciprocity_valid g1 (proj1 Hwf1)))
       (λ g1 Hwf1 Hn, Hn (proj1 (proj2 Hwf1)))
       Hwf))
    as ([aff rem] & g' & Hrun & Hwf' & Haff & Hids & Hnodes).
  exists aff, rem, g'. by split_and!.
Qed.

Lemma RemoveNodes_result ids c g r g' :
  RemoveNodes ids c g = Ret (r, g') →
  r.1 = ∅ ∧ ids ⊆ r.2 ∧ nodes_of g' = nodes_of g ∖ r.2.
Proof.
  intros Hrun.
  pose proof (wpx_RemoveNodes_inv always (λ _, True) ids c g
    (λ _ _ _ _ _, I) (λ _ _ _, I) (λ _ _ _, I) I) as Hwp.
  apply (wpx_ret_inv _ _ _ _ _ _ Hwp) in Hrun. tauto.
Qed.

(** C7. For every input set and either value of [cascading], the pair
    [(affected, removed)] that [RemoveNodes] returns is disjoint; and on a
    well-formed graph [RemoveNodes] does return. *)
Theorem RemoveNodes_disjoint (ids : gset ModelIdentifier) (c : bool)
    (g : @Graph ModelConfig) :
  (∀ affected removed g',
     RemoveNodes ids c g = Ret ((affected, removed), g') →
     affected ## removed) ∧
  (well_formed g →
   ∃ affected removed g',
     RemoveNodes ids c g = Ret ((affected, removed), g')).
Proof.
  split.
  - intros aff rem g' Hrun.
    destruct (RemoveNodes_result _ _ _ _ _ Hrun) as (Haff & _). simpl in Haff.
    subst aff. set_solver.
  - intros Hwf.
    destruct (RemoveNodes_total ids c g Hwf) as (aff & rem & g' & Hrun & _).
    eauto.
Qed.

(** C9. Removing an absent node is a no-op of [RemoveNode] that returns
    two empty sets; the removed set that [RemoveNodes] returns contains
    every identifier of the input set, the ones that were not in the graph
    included; and on a well-formed graph [RemoveNodes] does return. *)
Theorem RemoveNodes_reports_input (ids : gset ModelIdentifier) (c : bool)
    (g : @Graph ModelConfig) :
  (∀ id, id ∉ nodes_of g → RemoveNode id g = Ret ((∅, ∅), g)) ∧
  (∀ affected removed g',
     RemoveNodes ids c g = Ret ((affected, removed), g') →
     ids ⊆ removed ∧
     ∀ id, id ∈ ids → id ∉ nodes_of g → id ∈ removed) ∧
  (well_formed g →
   ∃ affected removed g',
     RemoveNodes ids c g = Ret ((affected, removed), g')).
Proof.
  split_and!.
  - intros id Hid. unfold nodes_of in Hid. apply not_elem_of_dom in Hid.
    unfold RemoveNode, bind, get. by rewrite Hid.
  - intros aff rem g' Hrun.
    destruct (RemoveNodes_result _ _ _ _ _ Hrun) as (_ & Hids & _).
    split; [done|]. intros id Hin _. by apply Hids.
  - intros Hwf.
    destruct (RemoveNodes_total ids c g Hwf) as (aff & rem & g' & Hrun & _).
    eauto.
Qed.

(** [RemoveNode] on a node of a well-formed graph. *)
Lemma RemoveNode_present model_id g :
  well_formed g → model_id ∈ nodes_of g →
  ∃ g', RemoveNode model_id g = Ret ((upstreams_of g model_id, ∅), g') ∧
        remove_effect model_id g g'.
Proof.
  intros Hwf [node Hnode]%elem_of_nodes_of.
  assert (wpx never (RemoveNode model_id)
    (λ r g', r = (upstreams_of g model_id, ∅) ∧
             remove_effect model_id g g') g) as Hwp.
  { eapply wpx_RemoveNode; [done|..].
    - intros ups g' Hups Hg'. split; [|done]. f_equal.
      apply (ids_through_eq g); [apply Hwf| |done].
      apply edge_reciprocity_valid, Hwf.
    - intros Hn. apply Hn, edge_reciprocity_down_closed, Hwf.
    - intros Hn. apply Hn, waiter_keys_subseteq, Hwf. }
  apply wpx_never in Hwp as (r & g' & Hrun & -> & Heff). eauto.
Qed.

(** C5. On a well-formed graph, the removal of a node with cascading on
    queues a former upstream of the node exactly when, after the removal,
    the upstream is still in the graph with an empty downstreams set and
    [explicitly_load = false].  [RemoveNodes] with cascading on returns; the
    removed set holds the listed identifiers and the nodes left are the
    nodes that are not in it; an identifier is in the removed set exactly
    when it is listed or cascaded (a node that was not explicitly loaded
    and whose downstreams, of which it had some, are all in the removed
    set), so that nothing else is removed; a node that is left keeps its
    [explicitly_load] flag and the downstreams that are left; no node
    that lost a downstream to the removal is left in the graph with
    [explicitly_load = false] and no downstreams; and the upstreams that
    the removal of a listed node queues are in the removed set. *)
Theorem cascading_removal (ids : gset ModelIdentifier)
    (g : @Graph ModelConfig) :
  well_formed g →
  (∀ model_id next aff rem,
     model_id ∈ nodes_of g →
     ∃ g' queued,
       RemoveNode model_id g = Ret ((upstreams_of g model_id, ∅), g') ∧
       RemoveNodes_body true (next, aff, rem) model_id g
         = Ret ((queued ∪ next, aff ∖ {[model_id]}, {[model_id]} ∪ rem),
                g') ∧
       ∀ u, u ∈ queued ↔
            u ∈ upstreams_of g model_id ∧ u ∈ nodes_of g' ∧
            downstreams_of g' u = ∅ ∧ explicit_of g' u = false) ∧
  ∃ affected removed g',
    RemoveNodes ids true g = Ret ((affected, removed), g') ∧
    ids ⊆ removed ∧
    nodes_of g' = nodes_of g ∖ removed ∧
    (∀ u, u ∈ removed ↔ cascaded g ids u) ∧
    (∀ u, u ∈ removed → u ∉ ids →
          u ∈ nodes_of g ∧ explicit_of g u = false ∧
          downstreams_of g u ≠ ∅ ∧ downstreams_of g u ⊆ removed) ∧
    (∀ u, u ∈ nodes_of g' →
          explicit_of g' u = explicit_of g u ∧
          ∀ d, d ∈ downstreams_of g' u ↔
               d ∈ downstreams_of g u ∧ d ∈ nodes_of g') ∧
    (∀ u d, d ∈ downstreams_of g u → d ∉ nodes_of g' →
            u ∈ nodes_of g' → explicit_of g u = false →
            downstreams_of g' u ≠ ∅) ∧
    (∀ model_id r g1,
       model_id ∈ ids →
       RemoveNodes_body true (∅, ∅, ∅) model_id g = Ret (r, g1) →
       r.1.1 ⊆ removed).
Proof.
  intros Hwf. split.
  - intros model_id next aff rem Hin.
    destruct (RemoveNode_present model_id g Hwf Hin) as (g' & Hrun & _).
    exists g', (filter (λ u, orphaned g' u = true) (upstreams_of g model_id)).
    split_and!; [done| |].
    + unfold RemoveNodes_body, bind. rewrite Hrun. simpl.
      by rewrite union_empty_l_L.
    + intros u. rewrite elem_of_filter, orphaned_spec. tauto.
  - destruct (wpx_never _ _ _ (wpx_RemoveNodes_cascaded ids g Hwf))
      as ([aff rem] & g' & Hrun & (_ & Hkeep & Hpend) & Hn & Hids & Hq).
    simpl in *.
    assert (Hlost : ∀ u d, d ∈ downstreams_of g u → d ∉ nodes_of g' →
              u ∈ nodes_of g' → explicit_of g u = false →
              downstreams_of g' u ≠ ∅).
    { intros u d Hd Hdn Hu He Hempty.
      destruct (Hkeep u Hu) as [He' _].
      assert (u ∈ (∅ : gset ModelIdentifier)); [|set_solver].
      apply Hpend; [done|congruence|done|eauto]. }
    assert (Hback : ∀ u, cascaded g ids u → u ∈ rem).
    { intros u Hu. induction Hu as [u Hu|u Hu He Hne _ IH];
        [by apply Hids|].
      destruct (decide (u ∈ rem)) as [|Hur]; [done|exfalso].
      assert (u ∈ nodes_of g') as Hu'
        by (rewrite Hn; clear -Hu Hur; set_solver).
      apply set_choose_L in Hne as [d Hd].
      assert (d ∉ nodes_of g') as Hdn.
      { rewrite Hn. specialize (IH d Hd). clear -IH. set_solver. }
      apply (Hlost u d Hd Hdn Hu' He).
      apply set_eq. intros d'. split; [|set_solver].
      intros Hd'. apply (proj2 (Hkeep u Hu')) in Hd' as [Hd0 Hd1].
      rewrite Hn in Hd1. specialize (IH d' Hd0). clear -IH Hd1. set_solver. }
    exists aff, rem, g'. split_and!; [done|done|done| | |done|done|].
    + intros u. split; [apply Hq|apply Hback].
    + intros u Hu Hui. destruct (Hq u Hu) as [u Hl|u Hun He Hne Hall];
        [done|].
      split_and!; [done..|]. intros d Hd. by apply Hback, Hall.
    + intros model_id r g1 Hin Hbody u Hu.
      destruct (decide (model_id ∈ nodes_of g)) as [Hm|Hm].
      * destruct (RemoveNode_present model_id g Hwf Hm)
          as (g2 & Hrun2 & Heff).
        unfold RemoveNodes_body, bind in Hbody. rewrite Hrun2 in Hbody.
        simpl in Hbody. injection Hbody as <- <-. simpl in Hu.
        apply elem_of_union in Hu as [Hu|Hu]; [|set_solver].
        apply elem_of_filter in Hu as [(Hu2 & Hd2 & He2)%orphaned_spec Hup].
        destruct (remove_effect_views _ _ _ Heff)
          as (Hn2 & _ & _ & _ & Hdv & _ & Hev & _).
        assert (u ≠ model_id) as Hne
          by (rewrite Hn2 in Hu2; clear -Hu2; set_solver).
        rewrite Hdv, decide_False, decide_True in Hd2 by done.
        rewrite Hev in He2 by done.
        apply Hback, cascaded_orphan.
        -- rewrite Hn2 in Hu2. clear -Hu2. set_solver.
        -- done.
        -- apply (proj1 Hwf) in Hup. clear -Hup. set_solver.
        -- intros d Hd. apply cascaded_listed.
           assert (d = model_id); [|by subst].
           destruct (decide (d = model_id)); [done|]. clear -Hd Hd2 n.
           set_solver.
      * unfold nodes_of in Hm. apply not_elem_of_dom in Hm.
        assert (Hrun2 : RemoveNode model_id g = Ret ((∅, ∅), g))
          by (unfold RemoveNode, bind, get; by rewrite Hm).
        unfold RemoveNodes_body, bind in Hbody. rewrite Hrun2 in Hbody.
        simpl in Hbody.
        injection Hbody as <- <-. simpl in Hu. clear -Hu. set_solver.
Qed.

(** ** FindNode *)

(** C6. [FindNode id allow_fuzzy] returns the node stored under [id] when
    [id] is a key of the nodes map; otherwise, if [allow_fuzzy] is set and
    [by_name[id.name]] holds exactly one identifier, it returns the node of
    that identifier; in all other cases it returns none. *)
Theorem FindNode_spec (id : ModelIdentifier) (allow_fuzzy : bool)
    (g : @Graph ModelConfig) :
  (∀ n, graph_ref_ g !! id = Some n →
        FindNode id allow_fuzzy g = Some id ∧
        node_at g (FindNode id allow_fuzzy g) = Some n) ∧
  (∀ ids id', graph_ref_ g !! id = None → allow_fuzzy = true →
              global_map_ref_ g !! name_ id = Some ids →
              size ids = 1 → id' ∈ ids →
              node_at g (FindNode id allow_fuzzy g) = graph_ref_ g !! id') ∧
  (graph_ref_ g !! id = None →
   allow_fuzzy = false ∨ size (by_name_of g (name_ id)) ≠ 1 →
   FindNode id allow_fuzzy g = None).
Proof.
  unfold FindNode, node_at, by_name_of. split_and!.
  - intros n Hn. rewrite Hn. simpl. by rewrite Hn.
  - intros ids id' Hnone -> Hname Hsize Hid'. rewrite Hnone, Hname.
    rewrite decide_True by done.
    apply size_1_elem_of in Hsize as [x Hx]. apply leibniz_equiv in Hx.
    subst ids. apply elem_of_singleton in Hid'. subst x.
    rewrite elements_singleton.
    destruct (graph_ref_ g !! id') eqn:Hlookup; simpl; [|done].
    by rewrite Hlookup.
  - intros Hnone Hcase. rewrite Hnone.
    destruct allow_fuzzy; [|done]. destruct Hcase as [|Hsize]; [done|].
    destruct (global_map_ref_ g !! name_ id) as [s|]; [|done].
    simpl in Hsize. by rewrite decide_False.
Qed.

(** ** The unchecked waiter lookup *)

Lemma waiter_reciprocity_keys g : waiter_reciprocity g → waiter_keys g.
Proof.
  intros Hrec n name Hm. apply Hrec in Hm.
  apply waiters_of_elem in Hm as (s & Hs & _). apply elem_of_dom. eauto.
Qed.

(** C10. When every name in a node's missing upstreams is a key of the
    waiters map, the lookups that [UpdateNodes] and [RemoveNode] make for
    the names of the node's missing upstreams all succeed: the loop over
    the names returns, and neither function dereferences [end()]. *)
Theorem waiter_lookup_succeeds (g : @Graph ModelConfig) :
  waiter_keys g →
  (∀ id node, graph_ref_ g !! id = Some node →
     ∃ g', for_each (elements (missing_upstreams_ node)) (erase_waiter id) g
           = Ret (tt, g')) ∧
  (∀ ids mm, UpdateNodes ids mm g ≠ Stop EndIterator) ∧
  (∀ id, RemoveNode id g ≠ Stop EndIterator).
Proof.
  intros Hkeys. split_and!.
  - intros id node Hnode.
    assert (wpx never
      (for_each (elements (missing_upstreams_ node)) (erase_waiter id))
      (λ _ _, True) g) as Hwp.
    { apply wpx_for_each_erase; [apply NoDup_elements|done|].
      intros (name & Hname%elem_of_elements & Hnone).
      assert (name ∈ missing_of g id) as Hm
        by (unfold missing_of, node_field; by rewrite Hnode).
      apply Hkeys, elem_of_dom in Hm. rewrite Hnone in Hm. by destruct Hm. }
    apply wpx_never in Hwp as ([] & g' & Hrun & _). eauto.
  - intros ids mm Hstop.
    assert (wpx (λ s, s ≠ EndIterator) (UpdateNodes ids mm)
      (λ r g', waiter_keys g' ∧ nodes_of g' = nodes_of g ∧ r ⊆ ids) g)
      as Hwp.
    { apply wpx_UpdateNodes_inv; try done.
      apply update_effect_waiter_keys. }
    by apply (wpx_stop_inv _ _ _ _ _ Hwp Hstop).
  - intros id Hstop.
    assert (wpx (λ s, s ≠ EndIterator) (RemoveNode id) (λ _ _, True) g)
      as Hwp.
    { destruct (graph_ref_ g !! id) as [node|] eqn:Hnode.
      - eapply wpx_RemoveNode; [done|done|done|].
        intros Hn. exfalso. by apply Hn, waiter_keys_subseteq.
      - by apply wpx_RemoveNode_absent. }
    by apply (wpx_stop_inv _ _ _ _ _ Hwp Hstop).
Qed.

End DependencyGraph_properties.

(** * Further properties of the graph operations *)

Section DependencyGraph_further.

Context {ModelConfig : Type}.

Implicit Types (g : @Graph ModelConfig) (n node : @DependencyNode ModelConfig)
  (info : @ModelInfo ModelConfig).

(** ** Combining a total and a partial specification *)

Lemma wpx_conj {A} D (m : M A) (Q1 Q2 : A → Graph → Prop) g :
  wpx D m Q1 g → wpx always m Q2 g →
  wpx D m (λ a g', Q1 a g' ∧ Q2 a g') g.
Proof. unfold wpx. destruct (m g) as [[a g']|s]; auto. Qed.

Lemma wpx_always_inv {A} (m : M A) Q g a g' :
  wpx always m Q g → m g = Ret (a, g') → Q a g'.
Proof. apply wpx_ret_inv. Qed.

(** ** Checked flags under [UncheckDownstream] *)

Lemma checked_of_lookup g k n :
  graph_ref_ g !! k = Some n → checked_of g k = checked_ n.
Proof. unfold checked_of, node_field. by intros ->. Qed.

Lemma checked_of_true g k :
  checked_of g k = true → k ∈ nodes_of g.
Proof.
  intros Hc. destruct (decide (k ∈ nodes_of g)) as [|Hn]; [done|].
  unfold checked_of in Hc. by rewrite node_field_absent in Hc.
Qed.

Lemma touched_checked n n' : touched n n' → checked_ n = false → checked_ n' = false.
Proof. intros [->|[? ->]]; [done|congruence]. Qed.

Lemma unchecked_from_checked_of g g' k :
  unchecked_from g g' → checked_of g k = false → checked_of g' k = false.
Proof.
  intros (_ & _ & Hk). unfold checked_of, node_field. specialize (Hk k).
  destruct Hk as [n n' Ht|]; simpl; [|done]. by apply touched_checked.
Qed.

Lemma unchecked_from_downstreams g g' k :
  unchecked_from g g' → downstreams_of g' k = downstreams_of g k.
Proof. intros H. by apply unchecked_from_field. Qed.

Lemma unchecked_from_upstreams g g' k :
  unchecked_from g g' → upstreams_of g' k = upstreams_of g k.
Proof. intros H. by apply (unchecked_from_field (λ n, dom (upstreams_ n))). Qed.

Lemma propagated_refl g : propagated g g.
Proof. intros k d _ Hc Hc'. congruence. Qed.

Lemma propagated_trans g1 g2 g3 :
  unchecked_from g1 g2 → unchecked_from g2 g3 →
  propagated g1 g2 → propagated g2 g3 → propagated g1 g3.
Proof.
  intros H12 H23 P12 P23 k d Hd Hc1 Hc3.
  destruct (checked_of g2 k) eqn:Hc2.
  - apply (P23 k d); [|done..].
    by rewrite (unchecked_from_downstreams _ _ _ H12).
  - eapply unchecked_from_checked_of; [done|]. by apply (P12 k d).
Qed.

(** A run of [UncheckDownstream] that returns has dereferenced every
    pointer of [ds], left each of them unchecked, and propagated. *)
Lemma wpx_UncheckDownstream_rec_propagated fuel ds g :
  wpx always (UncheckDownstream_rec fuel ds)
    (λ _ g', unchecked_from g g' ∧ propagated g g' ∧
             ∀ p, p ∈ ds → p ∈ nodes_of g ∧ checked_of g' p = false) g.
Proof.
  revert ds g. induction fuel as [|fuel IH]; intros ds g; [done|].
  simpl.
  assert (Hloop : ∀ l g1,
    wpx always
      (for_each l (UncheckDownstream_body (UncheckDownstream_rec fuel)))
      (λ _ g', unchecked_from g1 g' ∧ propagated g1 g' ∧
               ∀ p, p ∈ l → p ∈ nodes_of g1 ∧ checked_of g' p = false) g1).
  { induction l as [|p l IHl]; intros g1.
    - apply wpx_ret. split_and!; [apply unchecked_from_refl|
        apply propagated_refl|]. by intros p ?%elem_of_nil.
    - unfold for_each. simpl. unfold UncheckDownstream_body at 1.
      apply wpx_bind, wpx_bind, wpx_deref; [|done].
      intros n Hn.
      assert (Hp : p ∈ nodes_of g1) by (apply elem_of_nodes_of; eauto).
      destruct (checked_ n) eqn:Hc.
      + apply wpx_bind, wpx_modify.
        destruct (uncheck_one g1 p n Hn Hc) as [Hu _].
        set (g2 := with_graph _ g1) in *.
        eapply wpx_mono; [done| |apply IH].
        simpl. intros [] g3 (H23 & P23 & Hds).
        eapply wpx_mono; [done| |apply IHl].
        simpl. intros [] g' (H3' & P3' & Hl).
        assert (H13 : unchecked_from g1 g3)
          by (by eapply unchecked_from_trans).
        assert (P13 : propagated g1 g3).
        { intros k d Hd Hc1 Hc3. destruct (decide (k = p)) as [->|Hne].
          - apply Hds. unfold downstreams_of, node_field in Hd.
            by rewrite Hn in Hd.
          - apply (P23 k d); [| |done].
            + unfold downstreams_of, node_field, g2. simpl.
              by rewrite lookup_insert_ne.
            + unfold checked_of, node_field, g2. simpl.
              by rewrite lookup_insert_ne. }
        split_and!.
        * by eapply unchecked_from_trans.
        * by eapply propagated_trans.
        * intros q [->|Hq]%elem_of_cons.
          -- split; [done|].
             apply (unchecked_from_checked_of g3 g' _ H3').
             apply (unchecked_from_checked_of g2 g3 _ H23).
             unfold checked_of, node_field, g2. simpl.
             by rewrite lookup_insert_eq.
          -- destruct (Hl q Hq) as [Hq3 Hq']. split; [|done].
             by rewrite (unchecked_from_nodes _ _ H13) in Hq3.
      + apply wpx_ret. eapply wpx_mono; [done| |apply IHl].
        simpl. intros [] g' (H1' & P1' & Hl). split_and!; [done..|].
        intros q [->|Hq]%elem_of_cons; [|by apply Hl].
        split; [done|]. eapply unchecked_from_checked_of; [done|].
        by rewrite (checked_of_lookup _ _ _ Hn). }
  eapply wpx_mono; [done| |apply Hloop].
  simpl. intros [] g' (? & ? & Hl). split_and!; [done..|].
  intros p Hp. apply Hl. by apply elem_of_elements.
Qed.

Lemma wpx_UncheckDownstream_propagated D ds (Q : unit → Graph → Prop) g :
  (∀ g', unchecked_from g g' → propagated g g' →
         (∀ p, p ∈ ds → checked_of g' p = false) → Q tt g') →
  (¬ down_closed g ds → D DanglingNode) →
  wpx D (UncheckDownstream ds) Q g.
Proof.
  intros HQ HD.
  eapply wpx_mono; [done| |apply wpx_conj;
    [by apply (wpx_UncheckDownstream D ds (λ _ g', unchecked_from g g'))|
     apply (wpx_UncheckDownstream_rec_propagated (S (size (graph_ref_ g))))]].
  simpl. intros [] g' [H1 (_ & H2 & H3)]. apply HQ; [done..|].
  intros p Hp. by apply H3.
Qed.

(** ** Steps that keep the closure of the unchecked nodes *)

Lemma uncheck_step_refl g : uncheck_step g g.
Proof. split_and!; [done|done|]. intros k Hk. by left. Qed.

Lemma uncheck_step_trans g1 g2 g3 :
  uncheck_step g1 g2 → uncheck_step g2 g3 → uncheck_step g1 g3.
Proof.
  intros (Hd12 & Hc12 & Hp12) (Hd23 & Hc23 & Hp23). split_and!.
  - intros k. etrans; [apply Hd23|apply Hd12].
  - intros k Hk. by apply Hc23, Hc12.
  - intros k Hk. destruct (Hp23 k Hk) as [Hk2|Hall]; [|by right].
    destruct (Hp12 k Hk2) as [Hk1|Hall]; [by left|].
    right. intros d Hd. apply Hc23, Hall. by apply Hd23.
Qed.

Lemma uncheck_step_closed g g' :
  uncheck_step g g' → uncheck_closed g → uncheck_closed g'.
Proof.
  intros (Hd & Hc & Hp) Hcl k d Hkd Hk.
  destruct (Hp k Hk) as [Hk0|Hall]; [|by apply Hall].
  apply Hc, (Hcl k); [by apply Hd|done].
Qed.

Lemma uncheck_step_unchecked_from g g' :
  unchecked_from g g' → propagated g g' → uncheck_step g g'.
Proof.
  intros H P. split_and!.
  - intros k. by rewrite (unchecked_from_downstreams _ _ _ H).
  - intros k. by apply unchecked_from_checked_of.
  - intros k Hk'. destruct (checked_of g k) eqn:Hk; [|by left].
    right. intros d Hd. apply (P k d); [|done..].
    by rewrite (unchecked_from_downstreams _ _ _ H) in Hd.
Qed.

(** A step that keeps [checked_] and removes downstreams at most. *)
Lemma uncheck_step_pointwise g g' :
  (∀ k, option_Forall2
          (λ n n', checked_ n' = checked_ n ∧
                   downstreams_ n' ⊆ downstreams_ n)
          (graph_ref_ g !! k) (graph_ref_ g' !! k)) →
  uncheck_step g g'.
Proof.
  intros Hk.
  assert (Hc : ∀ k, checked_of g' k = checked_of g k).
  { intros k. unfold checked_of, node_field.
    destruct (Hk k) as [n n' [? ?]|]; done. }
  split_and!.
  - intros k. unfold downstreams_of, node_field.
    destruct (Hk k) as [n n' [? ?]|]; done.
  - intros k. by rewrite Hc.
  - intros k. rewrite Hc. by left.
Qed.

Lemma uncheck_step_nodes_mapped (l : gset ModelIdentifier) F g g' :
  (∀ n, checked_ (F n) = checked_ n ∧ downstreams_ (F n) ⊆ downstreams_ n) →
  nodes_mapped (elements l) F g g' → uncheck_step g g'.
Proof.
  intros HF Hg. apply uncheck_step_pointwise. intros k.
  rewrite (nodes_mapped_lookup _ _ _ _ Hg).
  destruct (graph_ref_ g !! k) as [n|]; constructor.
  case_decide; [apply HF|done].
Qed.

Lemma uncheck_step_same_graph g g' :
  graph_ref_ g' = graph_ref_ g → uncheck_step g g'.
Proof.
  intros Hg. apply uncheck_step_pointwise. intros k. rewrite Hg.
  by destruct (graph_ref_ g !! k); constructor.
Qed.

(** Erasing a node, and inserting a node that is unchecked and has no
    downstreams. *)
Lemma uncheck_step_delete k g :
  uncheck_step g (with_graph (delete k) g).
Proof.
  assert (Hf : ∀ {B} (f : DependencyNode → B) d x,
    node_field f d (with_graph (delete k) g) x =
    if decide (x = k) then d else node_field f d g x).
  { intros B f d x. unfold node_field. simpl. case_decide as Hx.
    - subst x. by rewrite lookup_delete_eq.
    - by rewrite lookup_delete_ne. }
  split_and!.
  - intros x. unfold downstreams_of. rewrite Hf. case_decide; set_solver.
  - intros x. unfold checked_of. rewrite Hf. by case_decide.
  - intros x. unfold checked_of, downstreams_of. rewrite !Hf.
    case_decide; [|by left]. right. set_solver.
Qed.

Lemma uncheck_step_try_insert k info g :
  uncheck_step g (with_graph (try_insert k (added_node k info)) g).
Proof.
  assert (Hf : ∀ {B} (f : DependencyNode → B) d x,
    f (added_node k info) = d →
    node_field f d (with_graph (try_insert k (added_node k info)) g) x =
    node_field f d g x).
  { intros B f d x Hnew. unfold node_field. simpl.
    rewrite try_insert_lookup. destruct (graph_ref_ g !! x); [done|].
    by case_decide. }
  split_and!.
  - intros x. unfold downstreams_of. by rewrite Hf.
  - intros x. unfold checked_of. by rewrite Hf.
  - intros x. unfold checked_of. rewrite Hf by done. by left.
Qed.

(** The final assignments of [UpdateNodes] to a node whose downstreams are
    all unchecked. *)
Lemma uncheck_step_refresh k info n g :
  graph_ref_ g !! k = Some n →
  (∀ d, d ∈ downstreams_ n → d ≠ k → checked_of g d = false) →
  uncheck_step g (with_graph (<[k := refresh_node info n]>) g).
Proof.
  intros Hn Hall.
  set (g' := with_graph _ g).
  assert (Hd : ∀ x, downstreams_of g' x = downstreams_of g x).
  { intros x. unfold downstreams_of, node_field, g'. simpl.
    destruct (decide (x = k)) as [->|Hne].
    - by rewrite lookup_insert_eq, Hn.
    - by rewrite lookup_insert_ne. }
  assert (Hc : ∀ x, checked_of g' x =
                    if decide (x = k) then false else checked_of g x).
  { intros x. unfold checked_of, node_field, g'. simpl.
    destruct (decide (x = k)) as [->|Hne].
    - by rewrite lookup_insert_eq.
    - by rewrite lookup_insert_ne. }
  split_and!.
  - intros x. by rewrite Hd.
  - intros x. rewrite Hc. by case_decide.
  - intros x. rewrite Hc. case_decide as Hx; [|by left].
    subst x. intros _. right. intros d. rewrite Hd, Hc.
    unfold downstreams_of, node_field. rewrite Hn. simpl.
    intros Hdn. case_decide; [done|]. by apply Hall.
Qed.

Lemma DisconnectDownstream_uncheck d n :
  checked_ (DisconnectDownstream d n) = checked_ n ∧
  downstreams_ (DisconnectDownstream d n) ⊆ downstreams_ n.
Proof. split; [done|]. simpl. set_solver. Qed.

Lemma DisconnectUpstream_uncheck u n :
  checked_ (DisconnectUpstream u n) = checked_ n ∧
  downstreams_ (DisconnectUpstream u n) ⊆ downstreams_ n.
Proof. done. Qed.

(** ** The checked flags under the three mutators *)

Lemma wpx_UpdateNodes_body_uncheck mm updated model_id node g :
  graph_ref_ g !! model_id = Some node →
  wpx always (UpdateNodes_body mm updated model_id)
    (λ _ g', uncheck_step g g' ∧ checked_of g' model_id = false ∧
             ∀ d, d ∈ downstreams_of g' model_id → checked_of g' d = false) g.
Proof.
  intros Hnode. unfold UpdateNodes_body.
  apply wpx_bind, wpx_get. rewrite Hnode.
  apply wpx_bind, wpx_UncheckDownstream_propagated; [|done].
  intros g1 H1 P1 Hds.
  pose proof (uncheck_step_unchecked_from _ _ H1 P1) as S01.
  apply wpx_bind, wpx_for_each_update; [apply NoDup_elements| |done].
  intros g2 Hg2.
  pose proof (uncheck_step_nodes_mapped _ _ _ _
                (DisconnectDownstream_uncheck model_id) Hg2) as S12.
  apply wpx_bind, wpx_for_each_erase; [apply NoDup_elements| |done].
  intros g3 Hg3.
  pose proof (uncheck_step_same_graph _ _ (proj1 Hg3)) as S23.
  pose proof (uncheck_step_trans _ _ _ S01
                (uncheck_step_trans _ _ _ S12 S23)) as S03.
  destruct (mm model_id) as [info|]; [|done].
  apply wpx_bind, wpx_update_node; [|done].
  intros n3 Hn3. apply wpx_ret.
  assert (Hd3 : ∀ d, d ∈ downstreams_ n3 → checked_of g3 d = false).
  { intros d Hd.
    assert (d ∈ downstreams_of g3 model_id) as Hd'
      by (unfold downstreams_of, node_field; by rewrite Hn3).
    apply (proj1 S03) in Hd'. unfold downstreams_of, node_field in Hd'.
    rewrite Hnode in Hd'. simpl in Hd'.
    apply (proj1 (proj2 (uncheck_step_trans _ _ _ S12 S23))). by apply Hds. }
  pose proof (uncheck_step_refresh model_id info n3 g3 Hn3
                (λ d Hd _, Hd3 d Hd)) as S34.
  set (g4 := with_graph _ g3) in *.
  split_and!.
  - by eapply uncheck_step_trans.
  - unfold checked_of, node_field, g4. simpl. by rewrite lookup_insert_eq.
  - intros d. unfold downstreams_of, checked_of, node_field, g4. simpl.
    rewrite lookup_insert_eq. simpl. intros Hd.
    destruct (decide (d = model_id)) as [->|Hne].
    + by rewrite lookup_insert_eq.
    + rewrite lookup_insert_ne by done. by apply Hd3.
Qed.

Lemma wpx_RemoveNode_uncheck model_id g :
  wpx always (RemoveNode model_id) (λ _ g', uncheck_step g g') g.
Proof.
  destruct (graph_ref_ g !! model_id) as [node|] eqn:Hnode.
  2:{ apply wpx_RemoveNode_absent; [done|]. apply uncheck_step_refl. }
  unfold RemoveNode. apply wpx_bind, wpx_get. rewrite Hnode.
  apply wpx_bind, wpx_disconnect_collect; [apply NoDup_elements| |done].
  intros g1 ups Hg1 _.
  pose proof (uncheck_step_nodes_mapped _ _ _ _
                (DisconnectDownstream_uncheck model_id) Hg1) as S01.
  apply wpx_bind, wpx_deref; [|done]. intros node' Hnode'.
  apply wpx_bind, wpx_UncheckDownstream_propagated; [|done].
  intros g2 H2 P2 _.
  pose proof (uncheck_step_unchecked_from _ _ H2 P2) as S12.
  apply wpx_bind, wpx_for_each_update; [apply NoDup_elements| |done].
  intros g3 Hg3.
  pose proof (uncheck_step_nodes_mapped _ _ _ _
                (DisconnectUpstream_uncheck model_id) Hg3) as S23.
  apply wpx_bind, wpx_for_each_erase; [apply NoDup_elements| |done].
  intros g4 Hg4.
  pose proof (uncheck_step_same_graph _ _ (proj1 Hg4)) as S34.
  apply wpx_bind, wpx_modify, wpx_ret.
  eapply uncheck_step_trans; [exact S01|].
  eapply uncheck_step_trans; [exact S12|].
  eapply uncheck_step_trans; [exact S23|].
  eapply uncheck_step_trans; [exact S34|]. apply uncheck_step_delete.
Qed.

(** One iteration of [AddNodes]: its result, and the flags of the nodes
    that wait for the name of the added identifier. *)
Lemma wpx_AddNodes_body_uncheck mm affected model_id g :
  wpx always (AddNodes_body mm affected model_id)
    (λ r g', uncheck_step g g' ∧
             r = {[model_id]} ∪ affected ∪
                 (waiters_of g (name_ model_id) ∩ nodes_of g) ∧
             ∀ d, d ∈ waiters_of g (name_ model_id) → d ∈ nodes_of g →
                  checked_of g' d = false) g.
Proof.
  unfold AddNodes_body. destruct (mm model_id) as [info|]; [|done].
  apply wpx_bind, wpx_modify, wpx_bind, wpx_get.
  pose proof (uncheck_step_try_insert model_id info g) as S0.
  set (g0 := with_graph _ g) in *.
  assert (Hn0 : nodes_of g0 = {[model_id]} ∪ nodes_of g).
  { apply (add_effect_views model_id info g g0), unchecked_from_refl. }
  assert (Hw0 : waiters_of g (name_ model_id)
                = default ∅ (missing_nodes_ref_ g0 !! name_ model_id)) by done.
  destruct (missing_nodes_ref_ g0 !! name_ model_id) as [waiting|];
    simpl in Hw0; rewrite Hw0.
  2:{ apply wpx_ret. split_and!; [done|set_solver|set_solver]. }
  eapply wpx_mono; [done| |].
  2:{ apply (wpx_foldM always (λ rest aff g1,
        unchecked_from g0 g1 ∧ uncheck_step g0 g1 ∧ NoDup rest ∧
        (∀ x, x ∈ rest → x ∈ waiting) ∧
        aff = {[model_id]} ∪ affected ∪
              ((waiting ∖ list_to_set rest) ∩ nodes_of g0) ∧
        ∀ d, d ∈ waiting → d ∉ rest → d ∈ nodes_of g0 →
             checked_of g1 d = false)).
      - split_and!; [apply unchecked_from_refl|apply uncheck_step_refl|
                     apply NoDup_elements| | |].
        + intros x. by rewrite elem_of_elements.
        + rewrite list_to_set_elements_L. set_solver.
        + intros d Hd Hnd. by rewrite elem_of_elements in Hnd.
      - intros dep rest aff g1 (H01 & S01 & Hnodup & Hrest & Haff & Hdone).
        apply NoDup_cons in Hnodup as [Hdr Hnodup].
        apply wpx_bind, wpx_get.
        destruct (FindNode dep false g1) as [p|] eqn:Hfind.
        + apply FindNode_exact in Hfind as [-> Hdep].
          apply elem_of_nodes_of in Hdep.
          rewrite (unchecked_from_nodes _ _ H01) in Hdep.
          apply wpx_bind, wpx_UncheckDownstream_propagated; [|done].
          intros g2 H12 P12 Hp. apply wpx_ret.
          pose proof (uncheck_step_unchecked_from _ _ H12 P12) as S12.
          split_and!.
          * by eapply unchecked_from_trans.
          * by eapply uncheck_step_trans.
          * done.
          * set_solver.
          * rewrite Haff, list_to_set_cons.
            assert (dep ∈ waiting) by set_solver.
            apply set_eq. intros y.
            clear -H Hdep Hdr. destruct (decide (y = dep)) as [->|]; set_solver.
          * intros d Hd Hnd Hdn. destruct (decide (d = dep)) as [->|Hne].
            -- apply Hp. set_solver.
            -- apply (proj1 (proj2 S12)), Hdone; [done| |done].
               set_solver.
        + apply wpx_ret.
          assert (dep ∉ nodes_of g0) as Hdep.
          { rewrite <-(unchecked_from_nodes _ _ H01), elem_of_nodes_of.
            unfold FindNode in Hfind.
            destruct (graph_ref_ g1 !! dep); [done|]. by intros [? ?]. }
          split_and!; [done|done|done|set_solver| |].
          * rewrite Haff, list_to_set_cons. set_solver.
          * intros d Hd Hnd Hdn. apply Hdone; [done| |done].
            intros [->|?]%elem_of_cons; done. }
  simpl. intros r g' (H0' & S0' & _ & _ & -> & Hdone). split_and!.
  - by eapply uncheck_step_trans.
  - rewrite Hn0. apply set_eq. intros y.
    clear. destruct (decide (y = model_id)) as [->|]; set_solver.
  - intros d Hd Hdn. apply Hdone; [done|by intros ?%elem_of_nil|].
    rewrite Hn0. set_solver.
Qed.

(** ** Induction over the iterations of a run that returned *)

(** [UpdateNodes]: [I updated g1] is shown for the set [updated] of the
    nodes updated so far and the graph [g1] they left. *)
Lemma UpdateNodes_ind (I : gset ModelIdentifier → Graph → Prop)
    ids mm g r g' :
  UpdateNodes ids mm g = Ret (r, g') →
  I ∅ g →
  (∀ updated x g1 info g2,
     updated ⊆ ids ∩ nodes_of g → x ∈ ids → x ∈ nodes_of g → x ∉ updated →
     I updated g1 → nodes_of g1 = nodes_of g →
     mm x = Some info → update_effect x info g1 g2 → uncheck_step g1 g2 →
     checked_of g2 x = false →
     (∀ d, d ∈ downstreams_of g2 x → checked_of g2 d = false) →
     I ({[x]} ∪ updated) g2) →
  I r g' ∧ r = ids ∩ nodes_of g ∧ nodes_of g' = nodes_of g.
Proof.
  intros Hrun H0 Hstep. revert Hrun.
  apply (wpx_always_inv (UpdateNodes ids mm) (λ r g',
           I r g' ∧ r = ids ∩ nodes_of g ∧ nodes_of g' = nodes_of g)).
  unfold UpdateNodes. eapply wpx_mono; [done| |].
  2:{ apply (wpx_foldM always (λ rest r g1,
        I r g1 ∧ nodes_of g1 = nodes_of g ∧ NoDup rest ∧
        r = (ids ∖ list_to_set rest) ∩ nodes_of g ∧
        ∀ x, x ∈ rest → x ∈ ids)).
      - split_and!; [done|done|apply NoDup_elements| |].
        + rewrite list_to_set_elements_L. set_solver.
        + intros x. by rewrite elem_of_elements.
      - intros x rest r1 g1 (HI & Hn1 & Hnodup & Hr1 & Hrest).
        apply NoDup_cons in Hnodup as [Hxr Hnodup].
        assert (x ∈ ids) as Hx by (apply Hrest; set_solver).
        destruct (graph_ref_ g1 !! x) as [node|] eqn:Hnode.
        + assert (x ∈ nodes_of g) as Hxn
            by (rewrite <-Hn1; apply elem_of_nodes_of; eauto).
          eapply wpx_mono; [done| |apply wpx_conj;
            [apply (wpx_UpdateNodes_body always mm r1 x node
               (λ r2 g2, r2 = {[x]} ∪ r1 ∧
                  ∃ info, mm x = Some info ∧ update_effect x info g1 g2));
               [done| |done..]|
             by apply (wpx_UpdateNodes_body_uncheck mm r1 x node)]].
          * simpl. intros r2 g2 [[-> (info & Hinfo & Heff)] (S12 & Hcx & Hcd)].
            split_and!.
            -- apply (Hstep r1 x g1 info g2); try done.
               ++ rewrite Hr1. set_solver.
               ++ rewrite Hr1. set_solver.
            -- by rewrite (proj1 (update_effect_views _ _ _ _ Heff)).
            -- done.
            -- rewrite Hr1, list_to_set_cons. apply set_eq. intros y.
               clear -Hx Hxn Hxr. destruct (decide (y = x)) as [->|]; set_solver.
            -- set_solver.
          * intros info g2 Hinfo Heff. eauto.
        + apply wpx_UpdateNodes_body_absent; [done|].
          assert (x ∉ nodes_of g) as Hxn.
          { rewrite <-Hn1, elem_of_nodes_of, Hnode. by intros [? ?]. }
          split_and!; [done..| |set_solver].
          rewrite Hr1, list_to_set_cons. set_solver. }
  simpl. intros r1 g1 (HI & Hn1 & _ & -> & _). split_and!; [|set_solver|done].
  by replace (ids ∖ list_to_set [] ∩ nodes_of g) with (ids ∩ nodes_of g)
    in HI by set_solver.
Qed.

(** [AddNodes]: [I added g1] is shown for the set [added] of the
    identifiers processed so far. *)
Lemma AddNodes_ind (I : gset ModelIdentifier → Graph → Prop)
    ids mm g r g' :
  AddNodes ids mm g = Ret (r, g') →
  I ∅ g →
  (∀ added x g1 info g2,
     added ⊆ ids → x ∈ ids → x ∉ added →
     I added g1 → nodes_of g1 = added ∪ nodes_of g →
     missing_nodes_ref_ g1 = missing_nodes_ref_ g →
     mm x = Some info → add_effect x info g1 g2 → uncheck_step g1 g2 →
     (∀ d, d ∈ waiters_of g (name_ x) → d ∈ nodes_of g1 →
           checked_of g2 d = false) →
     I ({[x]} ∪ added) g2) →
  I ids g' ∧ nodes_of g' = ids ∪ nodes_of g ∧
  missing_nodes_ref_ g' = missing_nodes_ref_ g ∧
  ∀ d, d ∈ r ↔
       d ∈ ids ∨ (d ∈ nodes_of g ∧
                  ∃ id, id ∈ ids ∧ d ∈ waiters_of g (name_ id)).
Proof.
  intros Hrun H0 Hstep. revert Hrun.
  apply (wpx_always_inv (AddNodes ids mm) (λ r g',
           I ids g' ∧ nodes_of g' = ids ∪ nodes_of g ∧
           missing_nodes_ref_ g' = missing_nodes_ref_ g ∧
           ∀ d, d ∈ r ↔
                d ∈ ids ∨ (d ∈ nodes_of g ∧
                           ∃ id, id ∈ ids ∧ d ∈ waiters_of g (name_ id)))).
  unfold AddNodes. eapply wpx_mono; [done| |].
  2:{ apply (wpx_foldM always (λ rest r g1,
        ∃ added, I added g1 ∧ nodes_of g1 = added ∪ nodes_of g ∧
          missing_nodes_ref_ g1 = missing_nodes_ref_ g ∧ NoDup rest ∧
          added = ids ∖ list_to_set rest ∧ (∀ x, x ∈ rest → x ∈ ids) ∧
          ∀ d, d ∈ r ↔
               d ∈ added ∨ (d ∈ nodes_of g ∧
                            ∃ id, id ∈ added ∧ d ∈ waiters_of g (name_ id)))).
      - exists ∅. split_and!; [done|set_solver|done|apply NoDup_elements| | |].
        + rewrite list_to_set_elements_L. set_solver.
        + intros x. by rewrite elem_of_elements.
        + set_solver.
      - intros x rest r1 g1
          (added & HI & Hn1 & Hm1 & Hnodup & Hadded & Hrest & Hr1).
        apply NoDup_cons in Hnodup as [Hxr Hnodup].
        assert (x ∈ ids) as Hx by (apply Hrest; set_solver).
        assert (x ∉ added) as Hxa by (rewrite Hadded; set_solver).
        assert (Hw : ∀ name, waiters_of g1 name = waiters_of g name)
          by (intros name; unfold waiters_of; by rewrite Hm1).
        eapply wpx_mono; [done| |apply wpx_conj;
          [apply (wpx_AddNodes_body always mm r1 x
             (λ _ g2, ∃ info, mm x = Some info ∧ add_effect x info g1 g2));
             [|done..]|
           apply (wpx_AddNodes_body_uncheck mm r1 x)]].
        * simpl. intros r2 g2 [(info & Hinfo & Heff) (S12 & -> & Hcd)].
          destruct (add_effect_views _ _ _ _ Heff)
            as (Hn2 & _ & Hm2 & _).
          exists ({[x]} ∪ added). split_and!.
          -- apply (Hstep added x g1 info g2); try done.
             ++ rewrite Hadded. set_solver.
             ++ intros d Hd. apply Hcd. by rewrite Hw.
          -- rewrite Hn2, Hn1. set_solver.
          -- congruence.
          -- done.
          -- rewrite Hadded, list_to_set_cons. apply set_eq. intros y.
             clear -Hx Hxr. destruct (decide (y = x)) as [->|]; set_solver.
          -- set_solver.
          -- intros d. rewrite Hw, Hn1.
             rewrite !elem_of_union, elem_of_intersection, elem_of_singleton,
               Hr1, elem_of_union.
             clear. set_unfold. naive_solver.
        * intros info g2 aff Hinfo Heff _. eauto. }
  simpl. intros r1 g1 (added & HI & Hn1 & Hm1 & _ & Hadded & _ & Hr1).
  assert (added = ids) as -> by set_solver. done.
Qed.

(** [RemoveNodes] as the checked flags see it. *)
Lemma wpx_RemoveNodes_loop_uncheck fuel c curr aff rem g0 g :
  uncheck_step g0 g →
  wpx always (RemoveNodes_loop fuel c curr aff rem)
    (λ _ g', uncheck_step g0 g') g.
Proof.
  revert curr aff rem g. induction fuel as [|fuel IH];
    intros curr aff rem g Hg; simpl.
  - by case_decide.
  - case_decide; [done|]. apply wpx_bind. unfold removal_wave.
    eapply wpx_mono; [done| |].
    2:{ apply (wpx_foldM always (λ _ _ g1, uncheck_step g0 g1)); [done|].
        intros x rest [[next aff1] rem1] g1 Hg1. unfold RemoveNodes_body.
        apply wpx_bind.
        eapply wpx_mono; [done| |apply wpx_RemoveNode_uncheck].
        simpl. intros r g2 Hg2. apply wpx_bind, wpx_get, wpx_ret.
        by eapply uncheck_step_trans. }
    simpl. intros r g1 Hg1. by apply IH.
Qed.

Lemma mutation_uncheck_step g g' : mutation g g' → uncheck_step g g'.
Proof.
  intros [ids mm r Hrun|ids mm r Hrun|ids c r Hrun].
  - apply (AddNodes_ind (λ _ g1, uncheck_step g g1)) in Hrun as [? _];
      [done|apply uncheck_step_refl|].
    intros. by eapply uncheck_step_trans.
  - apply (UpdateNodes_ind (λ _ g1, uncheck_step g g1)) in Hrun as [? _];
      [done|apply uncheck_step_refl|].
    intros. by eapply uncheck_step_trans.
  - revert Hrun.
    apply (wpx_always_inv (RemoveNodes ids c) (λ _ g1, uncheck_step g g1)).
    apply wpx_RemoveNodes_loop_uncheck, uncheck_step_refl.
Qed.

Lemma reachable_uncheck_step g g' : reachable g g' → uncheck_step g g'.
Proof.
  induction 1 as [|g1 g2 g3 Hstep _ IH]; [apply uncheck_step_refl|].
  eapply uncheck_step_trans; [|done]. by apply mutation_uncheck_step.
Qed.

Lemma uncheck_closed_b_true g : uncheck_closed_b g = true → uncheck_closed g.
Proof.
  unfold uncheck_closed_b. rewrite bool_decide_eq_true.
  intros Hall k d Hd Hk.
  by apply (Hall k (downstreams_of_nodes _ _ _ Hd) Hk d).
Qed.

(** * Further results *)

(** ** UncheckDownstream *)

(** X1. On a graph in which no downstream pointer dangles and every
    pointer of the argument is a node, [UncheckDownstream] returns; it
    leaves the two name maps and the set of nodes as they were, a node is
    either left as it was or switched from checked to unchecked with its
    status reset to [Success], and every node of the argument is unchecked
    afterwards. *)
Theorem UncheckDownstream_unchecks (downstreams : gset ptr)
    (g : @Graph ModelConfig) :
  down_closed g downstreams →
  ∃ g', UncheckDownstream downstreams g = Ret (tt, g') ∧
        global_map_ref_ g' = global_map_ref_ g ∧
        missing_nodes_ref_ g' = missing_nodes_ref_ g ∧
        nodes_of g' = nodes_of g ∧
        (∀ k n', graph_ref_ g' !! k = Some n' →
           ∃ n, graph_ref_ g !! k = Some n ∧
                (n' = n ∨ (checked_ n = true ∧
                           n' = set_flags Success false n))) ∧
        ∀ p, p ∈ downstreams → checked_of g' p = false.
Proof.
  intros Hdc.
  assert (wpx never (UncheckDownstream downstreams)
    (λ _ g', unchecked_from g g' ∧
             ∀ p, p ∈ downstreams → checked_of g' p = false) g) as Hwp.
  { apply wpx_UncheckDownstream_propagated; [done|]. by intros []. }
  apply wpx_never in Hwp as ([] & g' & Hrun & Hu & Hp).
  exists g'. split_and!; [done|apply Hu|apply Hu| | |done].
  - by apply unchecked_from_nodes.
  - intros k n' Hn'. by apply (unchecked_from_lookup g g').
Qed.

(** X2. When [UncheckDownstream] returns, every downstream of a node that
    it switched from checked to unchecked is unchecked; hence, if every
    downstream of an unchecked node was unchecked before the call, the same
    holds after it. *)
Theorem UncheckDownstream_propagates (downstreams : gset ptr)
    (g g' : @Graph ModelConfig) :
  UncheckDownstream downstreams g = Ret (tt, g') →
  (∀ k d, d ∈ downstreams_of g k →
          checked_of g k = true → checked_of g' k = false →
          checked_of g' d = false) ∧
  (uncheck_closed g → uncheck_closed g').
Proof.
  intros Hrun.
  pose proof (wpx_always_inv _ _ _ _ _
    (wpx_UncheckDownstream_rec_propagated
       (S (size (graph_ref_ g))) downstreams g) Hrun) as (Hu & Hp & _).
  split; [exact Hp|].
  by apply uncheck_step_closed, uncheck_step_unchecked_from.
Qed.

Lemma for_each_unchecked_noop (l : list ptr) recurse g :
  (∀ p, p ∈ l → p ∈ nodes_of g ∧ checked_of g p = false) →
  for_each l (UncheckDownstream_body recurse) g = Ret (tt, g).
Proof.
  induction l as [|p l IH]; intros Hl; [done|].
  destruct (Hl p) as [[n Hn]%elem_of_nodes_of Hc]; [set_solver|].
  rewrite (checked_of_lookup _ _ _ Hn) in Hc.
  unfold for_each. simpl. unfold bind at 1.
  unfold UncheckDownstream_body at 1, bind at 1, deref. rewrite Hn, Hc.
  simpl. apply IH. intros q Hq. apply Hl. set_solver.
Qed.

Lemma UncheckDownstream_noop (downstreams : gset ptr) g :
  (∀ p, p ∈ downstreams → p ∈ nodes_of g ∧ checked_of g p = false) →
  UncheckDownstream downstreams g = Ret (tt, g).
Proof.
  intros Hds. unfold UncheckDownstream. simpl.
  apply for_each_unchecked_noop. intros p Hp. by apply Hds, elem_of_elements.
Qed.

(** X3. [UncheckDownstream] on nodes that are all unchecked (the empty set
    included) returns the graph as it is, and calling it again after it
    returned changes nothing. *)
Theorem UncheckDownstream_idempotent (downstreams : gset ptr)
    (g : @Graph ModelConfig) :
  ((∀ p, p ∈ downstreams → p ∈ nodes_of g ∧ checked_of g p = false) →
   UncheckDownstream downstreams g = Ret (tt, g)) ∧
  (∀ g', UncheckDownstream downstreams g = Ret (tt, g') →
         UncheckDownstream downstreams g' = Ret (tt, g')).
Proof.
  split; [apply UncheckDownstream_noop|].
  intros g' Hrun. apply UncheckDownstream_noop.
  pose proof (wpx_always_inv _ _ _ _ _
    (wpx_UncheckDownstream_rec_propagated
       (S (size (graph_ref_ g))) downstreams g) Hrun) as (Hu & _ & Hp).
  intros p Hp'. rewrite (unchecked_from_nodes _ _ Hu). by apply Hp.
Qed.

(** X4. A pointer in the argument of [UncheckDownstream] that is not a
    node of the graph is dereferenced: the run stops on a dangling node
    pointer, whatever the rest of the argument. *)
Theorem UncheckDownstream_dangling (downstreams : gset ptr) (p : ptr)
    (g : @Graph ModelConfig) :
  p ∈ downstreams → p ∉ nodes_of g →
  UncheckDownstream downstreams g = Stop DanglingNode.
Proof.
  intros Hp Hpn.
  destruct (UncheckDownstream downstreams g) as [[[] g']|s] eqn:Hrun.
  - pose proof (wpx_always_inv _ _ _ _ _
      (wpx_UncheckDownstream_rec_propagated
         (S (size (graph_ref_ g))) downstreams g) Hrun) as (_ & _ & Hall).
    by destruct (Hall p Hp).
  - f_equal.
    assert (wpx (λ s, s = DanglingNode) (UncheckDownstream downstreams)
      (λ _ _, True) g) as Hwp by (by apply wpx_UncheckDownstream).
    by apply (wpx_stop_inv _ _ _ _ _ Hwp Hrun).
Qed.

(** ** FindNode *)

Lemma FindNode_ext id (b : bool) g g' :
  nodes_of g' = nodes_of g → global_map_ref_ g' = global_map_ref_ g →
  FindNode id b g' = FindNode id b g.
Proof.
  intros Hn Hgl.
  assert (Hl : ∀ k, is_Some (graph_ref_ g' !! k) ↔ is_Some (graph_ref_ g !! k))
    by (intros k; by rewrite <-!elem_of_nodes_of, Hn).
  unfold FindNode. rewrite Hgl.
  pose proof (Hl id) as Hid.
  destruct (graph_ref_ g' !! id) as [?|] eqn:E1,
           (graph_ref_ g !! id) as [?|] eqn:E2; try done.
  - destruct Hid as [Hid _]. by destruct Hid; eauto.
  - destruct Hid as [_ Hid]. by destruct Hid; eauto.
  - destruct b; [|done].
    destruct (global_map_ref_ g !! name_ id) as [s|]; [|done].
    case_decide; [|done]. destruct (elements s) as [|first ?]; [done|].
    pose proof (Hl first) as Hf.
    destruct (graph_ref_ g' !! first) eqn:E3,
             (graph_ref_ g !! first) eqn:E4; try done.
    + destruct Hf as [Hf _]. by destruct Hf; eauto.
    + destruct Hf as [_ Hf]. by destruct Hf; eauto.
Qed.

(** X5. A pointer that [FindNode] returns is never dangling, also when the
    name index lists identifiers that are not in the graph; a result other
    than the identifier asked for is returned only with fuzzy matching
    allowed, when the identifier is not in the graph and the name index
    holds exactly the returned identifier under its name; and allowing
    fuzzy matches never changes a result found without them. *)
Theorem FindNode_sound (id : ModelIdentifier) (allow_fuzzy : bool)
    (g : @Graph ModelConfig) (p : ptr) :
  FindNode id allow_fuzzy g = Some p →
  p ∈ nodes_of g ∧
  (p ≠ id → allow_fuzzy = true ∧ (id ∉ nodes_of g) ∧
            global_map_ref_ g !! name_ id = Some {[p]}) ∧
  (id ∈ nodes_of g → p = id) ∧
  (allow_fuzzy = false → FindNode id true g = Some p).
Proof.
  unfold FindNode. rewrite !elem_of_nodes_of.
  destruct (graph_ref_ g !! id) as [n|] eqn:Hid.
  { intros [= <-]. rewrite Hid. split_and!; eauto. done. }
  destruct allow_fuzzy; [|done].
  destruct (global_map_ref_ g !! name_ id) as [s|]; [|done].
  case_decide as Hsize; [|done].
  apply size_1_elem_of in Hsize as [x Hx]. apply leibniz_equiv in Hx.
  subst s. rewrite elements_singleton.
  destruct (graph_ref_ g !! x) as [nx|] eqn:Hx; [|done].
  intros [= <-]. split_and!; [eauto| |by intros [? ?]|done].
  intros _. split_and!; [done| |done]. by intros [? ?].
Qed.

(** ** RemoveNode and RemoveNodes *)

(** X6. On a well-formed graph whose waiter registrations are backed by
    their nodes, [RemoveNode] of a node returns the identifiers of its
    upstreams and an empty second set, erases the node, and leaves no
    reference to it: the identifier is taken out of the upstreams and the
    downstreams of every other node and out of every waiter set; nothing
    else changes in the edges, the missing names and the name index. *)
Theorem RemoveNode_unlinks (model_id : ModelIdentifier)
    (g : @Graph ModelConfig) :
  well_formed g → waiters_registered g → model_id ∈ nodes_of g →
  ∃ g', RemoveNode model_id g = Ret ((upstreams_of g model_id, ∅), g') ∧
        nodes_of g' = nodes_of g ∖ {[model_id]} ∧
        global_map_ref_ g' = global_map_ref_ g ∧
        (∀ name, waiters_of g' name = waiters_of g name ∖ {[model_id]}) ∧
        (∀ k, k ≠ model_id →
              upstreams_of g' k = upstreams_of g k ∖ {[model_id]} ∧
              downstreams_of g' k = downstreams_of g k ∖ {[model_id]} ∧
              missing_of g' k = missing_of g k).
Proof.
  intros Hwf Hreg Hin.
  destruct (RemoveNode_present model_id g Hwf Hin) as (g' & Hrun & Heff).
  pose proof (proj1 Hwf) as Hrec.
  destruct (remove_effect_views _ _ _ Heff)
    as (Hn & _ & Hw & Hu & Hd & Hm & _).
  exists g'. split_and!; [done|done|apply Heff| |].
  - intros name. rewrite Hw. case_decide as Hname; [done|].
    assert (model_id ∉ waiters_of g name) as Hnw by (intros ?%Hreg; done).
    clear -Hnw. set_solver.
  - intros k Hk. rewrite Hu, Hd, Hm.
    destruct (decide (k = model_id)) as [|_]; [done|].
    pose proof (Hrec k model_id) as H1. pose proof (Hrec model_id k) as H2.
    clear Hu Hd Hm Hw. split_and!; [| |done].
    + case_decide as Hc; [done|]. clear -H1 Hc. set_solver.
    + case_decide as Hc; [done|]. clear -H2 Hc. set_solver.
Qed.

Lemma RemoveNode_second_empty model_id g r g' :
  RemoveNode model_id g = Ret (r, g') → r.2 = ∅.
Proof.
  apply (wpx_always_inv (RemoveNode model_id) (λ r _, r.2 = ∅)).
  destruct (graph_ref_ g !! model_id) as [node|] eqn:Hnode.
  - by eapply wpx_RemoveNode.
  - by apply wpx_RemoveNode_absent.
Qed.

(** X7. The second set that [RemoveNode] returns, documented as the
    downstreams of the removed node, is empty whatever the node and the
    graph; so is the set of affected nodes that [RemoveNodes] returns. *)
Theorem RemoveNodes_affected_empty :
  (∀ model_id (g : @Graph ModelConfig) upstreams downstreams g',
     RemoveNode model_id g = Ret ((upstreams, downstreams), g') →
     downstreams = ∅) ∧
  (∀ ids c (g : @Graph ModelConfig) affected removed g',
     RemoveNodes ids c g = Ret ((affected, removed), g') →
     affected = ∅).
Proof.
  split.
  - intros model_id g ups downs g' Hrun.
    apply (RemoveNode_second_empty _ _ _ _ Hrun).
  - intros ids c g aff rem g' Hrun.
    apply (RemoveNodes_result _ _ _ _ _ Hrun).
Qed.

(** X8. Without cascading, the removed set that [RemoveNodes] returns is
    the input set, and the nodes left are the nodes that are not in it. *)
Theorem RemoveNodes_without_cascade (ids : gset ModelIdentifier)
    (g : @Graph ModelConfig) affected removed g' :
  RemoveNodes ids false g = Ret ((affected, removed), g') →
  removed = ids ∧ nodes_of g' = nodes_of g ∖ ids.
Proof.
  intros Hrun.
  destruct (RemoveNodes_result _ _ _ _ _ Hrun) as (_ & _ & Hn).
  simpl in Hn.
  assert (removed = ids) as ->; [|done].
  revert Hrun.
  apply (wpx_always_inv (RemoveNodes ids false) (λ r _, r.2 = ids)).
  eapply wpx_mono; [done| |].
  2:{ apply (wpx_RemoveNodes_gen always false (λ rest next _ rem _,
        next = ∅ ∧ rem ∪ list_to_set rest = ids)); try done.
      - intros x rest next aff rem g1 [-> Hrem] _. split; [done|].
        rewrite <-Hrem, list_to_set_cons. set_solver.
      - intros x rest next aff rem g1 node ups g2 [-> Hrem] _ _ _.
        split; [done|]. rewrite <-Hrem, list_to_set_cons. set_solver.
      - intros next aff rem g1 [-> Hrem]. by rewrite elements_empty.
      - split; [done|]. rewrite list_to_set_elements_L. set_solver. }
  simpl. intros [aff rem] g1 [_ Hrem]. simpl. set_solver.
Qed.

(** X9. [RemoveNodes] of identifiers none of which is in the graph (the
    empty set included) returns the graph as it is, with no affected
    identifier and the input set as the removed set, with and without
    cascading. *)
Theorem RemoveNodes_absent (ids : gset ModelIdentifier) (c : bool)
    (g : @Graph ModelConfig) :
  ids ## nodes_of g → RemoveNodes ids c g = Ret ((∅, ids), g).
Proof.
  intros Hdisj.
  assert (wpx never (RemoveNodes ids c)
    (λ r g', r = (∅, ids) ∧ g' = g) g) as Hwp.
  { eapply wpx_mono; [done| |].
    2:{ apply (wpx_RemoveNodes_gen never c (λ rest next aff rem g1,
          g1 = g ∧ next = ∅ ∧ aff = ∅ ∧ rem ∪ list_to_set rest = ids)).
        - intros x rest next aff rem g1 (-> & -> & -> & Hrem) _.
          split_and!; [done|done|set_solver|].
          rewrite <-Hrem, list_to_set_cons. set_solver.
        - intros x rest next aff rem g1 node ups g2 (-> & _ & _ & Hrem) Hx.
          assert (x ∈ nodes_of g) by (apply elem_of_nodes_of; eauto).
          rewrite list_to_set_cons in Hrem. set_solver.
        - intros next aff rem g1 (-> & -> & -> & Hrem).
          by rewrite elements_empty.
        - intros x rest next aff rem g1 (-> & _ & _ & Hrem) Hx.
          rewrite list_to_set_cons in Hrem. set_solver.
        - intros x rest next aff rem g1 (-> & _ & _ & Hrem) Hx.
          rewrite list_to_set_cons in Hrem. set_solver.
        - split_and!; [done..|]. rewrite list_to_set_elements_L.
          set_solver. }
    simpl. intros [aff rem] g1 H. simpl in H.
    destruct H as (-> & _ & -> & Hrem). split; [|done].
    f_equal. set_solver. }
  apply wpx_never in Hwp as (r & g' & Hrun & -> & ->). done.
Qed.

(** ** UpdateNodes *)

Lemma UpdateNodes_total ids mm g :
  well_formed g →
  (∀ id, id ∈ ids → id ∈ nodes_of g → is_Some (mm id)) →
  ∃ r g', UpdateNodes ids mm g = Ret (r, g') ∧ well_formed g'.
Proof.
  intros Hwf Hinfo.
  destruct (wpx_never _ _ _
    (wpx_UpdateNodes_inv never well_formed ids mm g
       update_effect_well_formed
       (λ g1 Hwf1 Hn, Hn (edge_reciprocity_valid g1 (proj1 Hwf1)))
       (λ g1 Hwf1 Hn, Hn (proj1 (proj2 Hwf1)))
       Hwf
       (λ '(ex_intro _ id (conj Hin (conj Hn Hnone))),
          is_Some_None (eq_ind _ _ (Hinfo id Hin Hn) _ Hnone))))
    as (r & g' & Hrun & Hwf' & _).
  eauto.
Qed.

(** X10. [UpdateNodes] returns exactly the listed identifiers that are in
    the graph, and the set of nodes is the same afterwards; identifiers
    that are not in the graph are skipped without a look-up of their model
    info, so that a call none of whose identifiers is in the graph (the
    empty set included) returns the empty set and the graph as it is. *)
Theorem UpdateNodes_result (ids : gset ModelIdentifier)
    (mm : ModelIdentifier → option ModelInfo) (g : @Graph ModelConfig) :
  (∀ r g', UpdateNodes ids mm g = Ret (r, g') →
           r = ids ∩ nodes_of g ∧ nodes_of g' = nodes_of g) ∧
  (ids ## nodes_of g → UpdateNodes ids mm g = Ret (∅, g)).
Proof.
  split.
  - intros r g' Hrun.
    by apply (UpdateNodes_ind (λ _ _, True)) in Hrun as (_ & ? & ?).
  - intros Hdisj.
    assert (wpx never (UpdateNodes ids mm) (λ r g', r = ∅ ∧ g' = g) g)
      as Hwp.
    { unfold UpdateNodes. eapply wpx_mono; [done| |].
      2:{ apply (wpx_foldM never (λ rest r g1,
            r = ∅ ∧ g1 = g ∧ ∀ x, x ∈ rest → x ∈ ids)).
          - split_and!; [done..|]. intros x. by rewrite elem_of_elements.
          - intros x rest r g1 (-> & -> & Hrest).
            apply wpx_UpdateNodes_body_absent.
            + apply not_elem_of_dom. fold (nodes_of g).
              assert (x ∈ ids) by (apply Hrest; set_solver). set_solver.
            + split_and!; [done..|]. intros y Hy. apply Hrest. set_solver. }
      simpl. by intros r g1 (-> & -> & _). }
    apply wpx_never in Hwp as (r & g' & Hrun & -> & ->). done.
Qed.

(** X11. On a graph with edge reciprocity, [UpdateNodes] cuts exactly the
    upstream edges of the listed nodes: afterwards a listed node has no
    upstreams, the listed identifiers are taken out of every downstreams
    set, and no other edge changes. *)
Theorem UpdateNodes_edges (ids : gset ModelIdentifier)
    (mm : ModelIdentifier → option ModelInfo) (g : @Graph ModelConfig) r g' :
  edge_reciprocity g →
  UpdateNodes ids mm g = Ret (r, g') →
  ∀ k, upstreams_of g' k = (if decide (k ∈ ids) then ∅ else upstreams_of g k) ∧
       downstreams_of g' k = downstreams_of g k ∖ ids.
Proof.
  intros Hrec Hrun.
  apply (UpdateNodes_ind (λ updated g1,
    (∀ k, upstreams_of g1 k =
          if decide (k ∈ updated) then ∅ else upstreams_of g k) ∧
    (∀ k, downstreams_of g1 k = downstreams_of g k ∖ updated)))
    in Hrun as ((Hu & Hd) & -> & _).
  - intros k. rewrite Hu, Hd. split.
    + destruct (decide (k ∈ ids)) as [Hk|Hk].
      * case_decide; [done|].
        apply (node_field_absent (λ n, dom (upstreams_ n))). set_solver.
      * rewrite decide_False by set_solver. done.
    + pose proof (proj1 (edge_reciprocity_valid g Hrec) k). set_solver.
  - split; intros k; [done|set_solver].
  - intros updated x g1 info g2 _ _ _ Hxu [Hu Hd] _ _ Heff _ _ _.
    destruct (update_effect_views _ _ _ _ Heff)
      as (_ & _ & _ & Hu2 & Hd2 & _).
    split; intros k.
    + rewrite Hu2, Hu. destruct (decide (k = x)) as [->|Hne].
      * by rewrite decide_True by set_solver.
      * destruct (decide (k ∈ updated)).
        -- by rewrite decide_True by set_solver.
        -- by rewrite decide_False by set_solver.
    + rewrite Hd2, Hu, !Hd. rewrite (decide_False (P := x ∈ updated)) by done.
      pose proof (Hrec x k) as Hxk. clear -Hxk.
      case_decide; set_solver.
Qed.

(** X12. On a graph whose waiter registrations are backed by their nodes,
    [UpdateNodes] drops exactly the registrations of the listed
    identifiers: afterwards every waiter set is the former one without the
    listed identifiers, and the waiters map has the same keys. *)
Theorem UpdateNodes_waiters (ids : gset ModelIdentifier)
    (mm : ModelIdentifier → option ModelInfo) (g : @Graph ModelConfig) r g' :
  waiters_registered g →
  UpdateNodes ids mm g = Ret (r, g') →
  dom (missing_nodes_ref_ g') = dom (missing_nodes_ref_ g) ∧
  ∀ name, waiters_of g' name = waiters_of g name ∖ ids.
Proof.
  intros Hreg Hrun.
  apply (UpdateNodes_ind (λ updated g1,
    dom (missing_nodes_ref_ g1) = dom (missing_nodes_ref_ g) ∧
    (∀ k, missing_of g1 k = missing_of g k) ∧
    (∀ name, waiters_of g1 name = waiters_of g name ∖ updated)))
    in Hrun as ((Hdom & _ & Hw) & -> & _).
  - split; [done|]. intros name. rewrite Hw.
    assert (waiters_of g name ⊆ nodes_of g) as Hsub.
    { intros n Hn. by eapply missing_of_nodes, Hreg. }
    clear -Hsub. set_solver.
  - split_and!; [done|done|]. intros name. set_solver.
  - intros updated x g1 info g2 _ _ _ Hxu (Hdom & Hm & Hw) _ _ Heff _ _ _.
    destruct (update_effect_views _ _ _ _ Heff)
      as (_ & Hdom2 & Hw2 & _ & _ & Hm2 & _).
    split_and!; [congruence|intros k; by rewrite Hm2|].
    intros name. rewrite Hw2, Hm, Hw.
    pose proof (Hreg x name) as Hx. clear -Hx.
    case_decide; set_solver.
Qed.

(** X13. After [UpdateNodes] every updated node and every downstream of an
    updated node is unchecked; and if every downstream of an unchecked node
    was unchecked before the call, everything that is reached from an
    updated node along downstream edges is unchecked afterwards. *)
Theorem UpdateNodes_unchecks (ids : gset ModelIdentifier)
    (mm : ModelIdentifier → option ModelInfo) (g : @Graph ModelConfig) r g' :
  UpdateNodes ids mm g = Ret (r, g') →
  (∀ k, k ∈ r →
        checked_of g' k = false ∧
        ∀ d, d ∈ downstreams_of g' k → checked_of g' d = false) ∧
  (uncheck_closed g →
   ∀ k d, k ∈ r → rtc (λ a b, b ∈ downstreams_of g' a) k d →
          checked_of g' d = false).
Proof.
  intros Hrun.
  apply (UpdateNodes_ind (λ updated g1,
    uncheck_step g g1 ∧
    ∀ k, k ∈ updated →
         checked_of g1 k = false ∧
         ∀ d, d ∈ downstreams_of g1 k → checked_of g1 d = false))
    in Hrun as ((Hstep & Hall) & _ & _).
  - split; [done|]. intros Hcl k d Hk Hpath. specialize (Hall k).
    pose proof (uncheck_step_closed _ _ Hstep Hcl) as Hcl'.
    apply proj1 in Hall; [|done]. clear Hk.
    induction Hpath as [k|a b d Hab _ IH]; [done|].
    apply IH. by apply (Hcl' a b Hab).
  - split; [apply uncheck_step_refl|set_solver].
  - intros updated x g1 info g2 _ _ _ _ [S01 Hall] _ _ _ S12 Hcx Hcd.
    split; [by eapply uncheck_step_trans|].
    intros k [->%elem_of_singleton|Hk]%elem_of_union; [done|].
    destruct (Hall k Hk) as [Hck Hcdk]. destruct S12 as (Hsub & Hmono & _).
    split; [by apply Hmono|]. intros d Hd. by apply Hmono, Hcdk, Hsub.
Qed.

(** ** AddNodes *)

Lemma touched_added_node model_id info n :
  touched (added_node model_id info) n → n = added_node model_id info.
Proof. by intros [->|[? _]]. Qed.

(** The nodes of the graph after [AddNodes]. *)
Lemma AddNodes_lookup (ids : gset ModelIdentifier)
    (mm : ModelIdentifier → option ModelInfo) (g : @Graph ModelConfig) r g' :
  AddNodes ids mm g = Ret (r, g') →
  ∀ k, match graph_ref_ g !! k with
       | Some n => ∃ n', graph_ref_ g' !! k = Some n' ∧ touched n n'
       | None => graph_ref_ g' !! k =
                   if decide (k ∈ ids) then added_node k <$> mm k else None
       end.
Proof.
  intros Hrun.
  apply (AddNodes_ind (λ added g1,
    ∀ k, match graph_ref_ g !! k with
         | Some n => ∃ n1, graph_ref_ g1 !! k = Some n1 ∧ touched n n1
         | None => graph_ref_ g1 !! k =
                     if decide (k ∈ added) then added_node k <$> mm k
                     else None
         end)) in Hrun as (Hall & _); [done| |].
  - intros k. destruct (graph_ref_ g !! k) as [n|] eqn:Hk.
    + exists n. split; [done|apply touched_refl].
    + by rewrite decide_False by set_solver.
  - intros added x g1 info g2 _ _ Hxa Hall _ _ Hinfo Heff _ _ k.
    destruct Heff as (_ & _ & Hlk). specialize (Hlk k). simpl in Hlk.
    rewrite try_insert_lookup in Hlk. specialize (Hall k).
    destruct (graph_ref_ g !! k) as [n|] eqn:Hk.
    + destruct Hall as (n1 & Hn1 & Ht). rewrite Hn1 in Hlk.
      inversion Hlk as [? n2 Ht2|]; subst. exists n2. split; [done|].
      by eapply touched_trans.
    + rewrite Hall in Hlk. destruct (decide (k = x)) as [->|Hne].
      * rewrite decide_False in Hlk by done.
        rewrite decide_True by set_solver. rewrite Hinfo. simpl.
        inversion Hlk as [? n2 Ht2|]; subst.
        by rewrite (touched_added_node _ _ _ Ht2).
      * destruct (decide (k ∈ added)) as [Hka|Hka].
        -- rewrite decide_True by set_solver.
           destruct (mm k) as [i|]; simpl in *.
           ++ inversion Hlk as [? n2 Ht2|]; subst.
              by rewrite (touched_added_node _ _ _ Ht2).
           ++ by inversion Hlk.
        -- rewrite decide_False by set_solver. by inversion Hlk.
Qed.

(** X14. [AddNodes] never overwrites: a node that was in the graph is
    still there with its members as they were, but for [checked_] and
    [status_] when it was unchecked with its downstreams (also when its
    identifier is listed); an identifier that was not in the graph has a
    node afterwards exactly when it is listed, and this node is the fresh
    one: the looked-up config and [explicitly_load_], no edges, no names,
    unchecked, status [Success]. *)
Theorem AddNodes_nodes (ids : gset ModelIdentifier)
    (mm : ModelIdentifier → option ModelInfo) (g : @Graph ModelConfig) r g' :
  AddNodes ids mm g = Ret (r, g') →
  ∀ k, match graph_ref_ g !! k with
       | Some n => ∃ n', graph_ref_ g' !! k = Some n' ∧ touched n n'
       | None => graph_ref_ g' !! k =
                   if decide (k ∈ ids) then added_node k <$> mm k else None
       end.
Proof. apply AddNodes_lookup. Qed.

(** X15. [AddNodes] returns the listed identifiers together with every
    node of the graph that is registered as waiting for the name of a
    listed identifier, and nothing else; and these waiting nodes are
    unchecked afterwards. *)
Theorem AddNodes_result (ids : gset ModelIdentifier)
    (mm : ModelIdentifier → option ModelInfo) (g : @Graph ModelConfig) r g' :
  AddNodes ids mm g = Ret (r, g') →
  (∀ d, d ∈ r ↔
        d ∈ ids ∨
        (d ∈ nodes_of g ∧ ∃ id, id ∈ ids ∧ d ∈ waiters_of g (name_ id))) ∧
  (∀ d id, id ∈ ids → d ∈ waiters_of g (name_ id) → d ∈ nodes_of g →
           checked_of g' d = false).
Proof.
  intros Hrun.
  apply (AddNodes_ind (λ added g1,
    ∀ d id, id ∈ added → d ∈ waiters_of g (name_ id) → d ∈ nodes_of g →
            checked_of g1 d = false))
    in Hrun as (Hall & _ & _ & Hr); [done|set_solver|].
  intros added x g1 info g2 _ _ _ Hall Hn1 _ _ _ (_ & Hmono & _) Hnew d id.
  intros [->%elem_of_singleton|Hid]%elem_of_union Hd Hdn.
  - apply Hnew; [done|]. rewrite Hn1. set_solver.
  - by eapply Hmono, Hall.
Qed.

(** X16. [AddNodes] connects nothing and unregisters nothing: the waiters
    map is the same afterwards (the waiters of an added name stay
    registered), and so are the upstreams, the downstreams and the missing
    names of every identifier, the added ones having none. *)
Theorem AddNodes_connects_nothing (ids : gset ModelIdentifier)
    (mm : ModelIdentifier → option ModelInfo) (g : @Graph ModelConfig) r g' :
  AddNodes ids mm g = Ret (r, g') →
  missing_nodes_ref_ g' = missing_nodes_ref_ g ∧
  ∀ k, upstreams_of g' k = upstreams_of g k ∧
       downstreams_of g' k = downstreams_of g k ∧
       missing_of g' k = missing_of g k.
Proof.
  intros Hrun.
  apply (AddNodes_ind (λ _ g1,
    ∀ k, upstreams_of g1 k = upstreams_of g k ∧
         downstreams_of g1 k = downstreams_of g k ∧
         missing_of g1 k = missing_of g k))
    in Hrun as (Hall & _ & Hm & _); [done|done|].
  intros added x g1 info g2 _ _ _ Hall _ _ _ Heff _ _ k.
  destruct (add_effect_views _ _ _ _ Heff) as (_ & _ & _ & Hu & Hd & Hm & _).
  rewrite Hu, Hd, Hm. apply Hall.
Qed.

(** ** Adding and removing again *)


(** ** Updating twice *)








(** ** DependencyNode *)


(** ** Look-ups after a mutation *)

(** X17. After [AddNodes] returned, [FindNode] finds every listed
    identifier under itself, with and without fuzzy matching; after
    [RemoveNodes] returned, [FindNode] without fuzzy matching finds none of
    the removed identifiers, and with fuzzy matching never returns one of
    them; [UpdateNodes] changes no result of [FindNode]. *)
Theorem FindNode_after_mutation (g : @Graph ModelConfig) :
  (∀ ids mm r g' id b,
     AddNodes ids mm g = Ret (r, g') → id ∈ ids →
     FindNode id b g' = Some id) ∧
  (∀ ids c affected removed g' id,
     RemoveNodes ids c g = Ret ((affected, removed), g') → id ∈ removed →
     FindNode id false g' = None ∧
     ∀ id' b, FindNode id' b g' ≠ Some id) ∧
  (∀ ids mm r g' id b,
     UpdateNodes ids mm g = Ret (r, g') →
     FindNode id b g' = FindNode id b g).
Proof.
  split_and!.
  - intros ids mm r g' id b Hrun Hid.
    apply (AddNodes_ind (λ _ _, True)) in Hrun as (_ & Hn & _); [|done..].
    assert (id ∈ nodes_of g') as [n Hn']%elem_of_nodes_of
      by (rewrite Hn; set_solver).
    unfold FindNode. by rewrite Hn'.
  - intros ids c aff rem g' id Hrun Hid.
    apply RemoveNodes_result in Hrun as (_ & _ & Hn). simpl in Hn.
    assert (id ∉ nodes_of g') as Hid' by (rewrite Hn; set_solver).
    split.
    + unfold FindNode. unfold nodes_of in Hid'.
      apply not_elem_of_dom in Hid'. by rewrite Hid'.
    + intros id' b Hfind. apply Hid'. clear Hid'.
      unfold FindNode in Hfind. rewrite elem_of_nodes_of.
      destruct (graph_ref_ g' !! id') eqn:E; [simplify_eq; eauto|].
      destruct b; [|done].
      destruct (global_map_ref_ g' !! name_ id') as [s|]; [|done].
      case_decide; [|done]. destruct (elements s) as [|first ?]; [done|].
      destruct (graph_ref_ g' !! first) eqn:E'; [|done].
      simplify_eq. eauto.
  - intros ids mm r g' id b Hrun.
    apply (UpdateNodes_ind (λ _ g1, global_map_ref_ g1 = global_map_ref_ g))
      in Hrun as (Hgl & _ & Hn); [by apply FindNode_ext|done|].
    intros updated x g1 info g2 _ _ _ _ Hgl _ _ (Hgl2 & _) _ _ _.
    congruence.
Qed.

(** ** Undefined behaviour *)

(** X18. On a well-formed graph a failed look-up of the model info is the
    one way a mutator goes wrong: [AddNodes] dereferences the null info of
    any listed identifier for which the look-up fails, whether or not the
    identifier is in the graph already; [UpdateNodes] does so for a listed
    identifier that is in the graph. *)
Theorem null_model_info_stops (g : @Graph ModelConfig)
    (ids : gset ModelIdentifier) (mm : ModelIdentifier → option ModelInfo)
    (id : ModelIdentifier) :
  well_formed g → id ∈ ids → mm id = None →
  AddNodes ids mm g = Stop NullModelInfo ∧
  (id ∈ nodes_of g → UpdateNodes ids mm g = Stop NullModelInfo).
Proof.
  intros Hwf Hid Hnone. split.
  - assert (wpx (λ s, s = NullModelInfo) (AddNodes ids mm)
      (λ _ _, False) g) as Hwp.
    { unfold AddNodes. eapply wpx_mono; [done| |].
      2:{ apply (wpx_foldM _ (λ rest _ g1, well_formed g1 ∧ id ∈ rest)).
          - split; [done|]. by apply elem_of_elements.
          - intros x rest r g1 [Hwf1 Hrest]. apply wpx_AddNodes_body.
            + intros info g2 r' Hinfo Heff _. split.
              * by eapply add_effect_well_formed.
              * apply elem_of_cons in Hrest as [->|?]; [congruence|done].
            + intros Hn. exfalso. apply Hn, edge_reciprocity_valid, Hwf1.
            + done. }
      simpl. by intros _ _ [_ ?%elem_of_nil]. }
    destruct (AddNodes ids mm g) as [[r g']|s] eqn:Hrun.
    + by apply (wpx_ret_inv _ _ _ _ _ _ Hwp) in Hrun.
    + f_equal. by apply (wpx_stop_inv _ _ _ _ _ Hwp Hrun).
  - intros Hin.
    assert (wpx (λ s, s = NullModelInfo) (UpdateNodes ids mm)
      (λ _ _, False) g) as Hwp.
    { unfold UpdateNodes. eapply wpx_mono; [done| |].
      2:{ apply (wpx_foldM _ (λ rest _ g1,
            well_formed g1 ∧ nodes_of g1 = nodes_of g ∧ id ∈ rest)).
          - split_and!; [done..|]. by apply elem_of_elements.
          - intros x rest r g1 (Hwf1 & Hn1 & Hrest).
            destruct (graph_ref_ g1 !! x) as [node|] eqn:Hnode.
            + eapply wpx_UpdateNodes_body; [done|..].
              * intros info g2 Hinfo Heff. split_and!.
                -- by eapply update_effect_well_formed.
                -- by rewrite (proj1 (update_effect_views _ _ _ _ Heff)).
                -- apply elem_of_cons in Hrest as [->|?]; [congruence|done].
              * intros Hn. exfalso.
                apply Hn, edge_reciprocity_down_closed, Hwf1.
              * intros Hn. exfalso. apply Hn, waiter_keys_subseteq, Hwf1.
              * done.
            + apply wpx_UpdateNodes_body_absent; [done|].
              split_and!; [done..|].
              apply elem_of_cons in Hrest as [->|?]; [|done].
              rewrite <-Hn1 in Hin. apply elem_of_nodes_of in Hin.
              rewrite Hnode in Hin. by destruct Hin. }
      simpl. by intros _ _ (_ & _ & ?%elem_of_nil). }
    destruct (UpdateNodes ids mm g) as [[r g']|s] eqn:Hrun.
    + by apply (wpx_ret_inv _ _ _ _ _ _ Hwp) in Hrun.
    + f_equal. by apply (wpx_stop_inv _ _ _ _ _ Hwp Hrun).
Qed.

(** X19. In every graph state that the mutators reach from a well-formed
    graph, no call of a mutator or of [UncheckDownstream] on nodes of the
    graph dereferences a dangling node pointer or the [end()] of the
    waiters map: [RemoveNodes] and [UncheckDownstream] return, and so do
    [AddNodes] and [UpdateNodes] whenever the model info they look up is
    found; the only stop left is the null model info. *)
Theorem reachable_calls_return (g0 g : @Graph ModelConfig) :
  well_formed g0 → reachable g0 g →
  (∀ ids c, ∃ r g', RemoveNodes ids c g = Ret (r, g')) ∧
  (∀ ds, ds ⊆ nodes_of g → ∃ g', UncheckDownstream ds g = Ret (tt, g')) ∧
  (∀ ids mm, (∀ id, id ∈ ids → is_Some (mm id)) →
             ∃ r g', AddNodes ids mm g = Ret (r, g')) ∧
  (∀ ids mm, (∀ id, id ∈ ids → id ∈ nodes_of g → is_Some (mm id)) →
             ∃ r g', UpdateNodes ids mm g = Ret (r, g')) ∧
  (∀ ids mm s, AddNodes ids mm g = Stop s → s = NullModelInfo) ∧
  (∀ ids mm s, UpdateNodes ids mm g = Stop s → s = NullModelInfo).
Proof.
  intros Hwf0 Hreach.
  pose proof (well_formed_reachable _ _ Hwf0 Hreach) as Hwf.
  pose proof (λ g1 (Hwf1 : well_formed g1) (Hn : ¬ dangling_free g1),
    Hn (edge_reciprocity_valid g1 (proj1 Hwf1))) as Hdang.
  pose proof (λ g1 (Hwf1 : well_formed g1) (Hn : ¬ waiter_keys g1),
    Hn (proj1 (proj2 Hwf1))) as Hend.
  split_and!.
  - intros ids c.
    destruct (RemoveNodes_total ids c g Hwf) as (aff & rem & g' & Hrun & _).
    eauto.
  - intros ds Hds.
    assert (wpx never (UncheckDownstream ds) (λ _ _, True) g) as Hwp.
    { apply wpx_UncheckDownstream; [done|]. intros Hn. apply Hn.
      split; [done|]. apply edge_reciprocity_valid, Hwf. }
    apply wpx_never in Hwp as ([] & g' & Hrun & _). eauto.
  - intros ids mm Hinfo.
    destruct (AddNodes_total ids mm g Hwf Hinfo) as (r & g' & Hrun & _).
    eauto.
  - intros ids mm Hinfo.
    destruct (UpdateNodes_total ids mm g Hwf Hinfo) as (r & g' & Hrun & _).
    eauto.
  - intros ids mm s Hstop.
    assert (wpx (λ s, s = NullModelInfo) (AddNodes ids mm)
      (λ r g', well_formed g' ∧ nodes_of g' = ids ∪ nodes_of g ∧ ids ⊆ r) g)
      as Hwp.
    { apply wpx_AddNodes_inv; [apply add_effect_well_formed| |done|done].
      intros g1 Hwf1 Hn. by destruct (Hdang g1 Hwf1 Hn). }
    by apply (wpx_stop_inv _ _ _ _ _ Hwp Hstop).
  - intros ids mm s Hstop.
    assert (wpx (λ s, s = NullModelInfo) (UpdateNodes ids mm)
      (λ r g', well_formed g' ∧ nodes_of g' = nodes_of g ∧ r ⊆ ids) g)
      as Hwp.
    { apply wpx_UpdateNodes_inv;
        [apply update_effect_well_formed| | |done|done].
      - intros g1 Hwf1 Hn. by destruct (Hdang g1 Hwf1 Hn).
      - intros g1 Hwf1 Hn. by destruct (Hend g1 Hwf1 Hn). }
    by apply (wpx_stop_inv _ _ _ _ _ Hwp Hstop).
Qed.

(** ** Invariants of the checked flags and of the edges *)

(** X20. In every graph state that the mutators reach from a state in
    which every downstream of an unchecked node is unchecked, every
    downstream of an unchecked node is unchecked: no node stays checked
    below a node that was added, updated or unchecked. *)
Theorem uncheck_closed_reachable (g0 g : @Graph ModelConfig) :
  uncheck_closed g0 → reachable g0 g → uncheck_closed g.
Proof.
  intros Hcl Hreach. eapply uncheck_step_closed; [|done].
  by apply reachable_uncheck_step.
Qed.

(** X21. The mutators never connect and never check: in every graph state
    they reach, the downstreams and the upstreams of every identifier are
    among the ones it had in the state they started from, and a node that
    was unchecked, or was not in the graph, is not checked. *)
Theorem mutators_only_disconnect (g0 g : @Graph ModelConfig) :
  reachable g0 g →
  ∀ k, downstreams_of g k ⊆ downstreams_of g0 k ∧
       upstreams_of g k ⊆ upstreams_of g0 k ∧
       (checked_of g0 k = false → checked_of g k = false).
Proof.
  intros Hreach k.
  destruct (reachable_uncheck_step _ _ Hreach) as (Hd & Hc & _).
  split_and!; [done| |apply Hc].
  revert k.
  apply (reachable_invariant
           (λ g1, ∀ k, upstreams_of g1 k ⊆ upstreams_of g0 k) g0 g);
    [| | |done|done].
  - intros x info g1 g2 (_ & _ & _ & Hu & _)%update_effect_views H1 k.
    rewrite Hu. specialize (H1 k). case_decide; set_solver.
  - intros x g1 g2 (_ & _ & _ & Hu & _)%remove_effect_views H1 k.
    rewrite Hu. specialize (H1 k). repeat case_decide; set_solver.
  - intros x info g1 g2 (_ & _ & _ & Hu & _)%add_effect_views H1 k.
    rewrite Hu. apply H1.
Qed.

(** ** Members that no mutator writes *)

(** What one iteration does to a property [R] of a node that the node
    operations keep. *)
Lemma update_effect_node_kept (R : @DependencyNode ModelConfig → Prop)
    x info g1 g2 k n2 :
  (∀ m s c, R m → R (set_flags s c m)) →
  (∀ m d, R m → R (DisconnectDownstream d m)) →
  (k = x → ∀ m i, R m → R (refresh_node i m)) →
  update_effect x info g1 g2 → graph_ref_ g2 !! k = Some n2 →
  ∃ n1, graph_ref_ g1 !! k = Some n1 ∧ (R n1 → R n2).
Proof.
  intros Hflags Hdown Hrefresh (_ & _ & Hlk) Hn2.
  specialize (Hlk k). rewrite Hn2 in Hlk.
  inversion Hlk as [n1 ? (m & Ht & ->) Hn1|]; subst.
  exists n1. split; [done|]. intros HR. clear Hn2 Hlk.
  assert (R m) as Hm by (destruct Ht as [->|[_ ->]]; auto).
  assert (R ((if decide (k ∈ upstreams_of g1 x)
              then DisconnectDownstream x else λ y, y) m)) as Hm'
    by (case_decide; auto).
  destruct (decide (k = x)) as [Hk|Hk]; [|exact Hm'].
  by apply Hrefresh.
Qed.

Lemma remove_effect_node_kept (R : @DependencyNode ModelConfig → Prop)
    x g1 g2 k n2 :
  (∀ m s c, R m → R (set_flags s c m)) →
  (∀ m d, R m → R (DisconnectDownstream d m)) →
  (∀ m u, R m → R (DisconnectUpstream u m)) →
  remove_effect x g1 g2 → graph_ref_ g2 !! k = Some n2 →
  ∃ n1, graph_ref_ g1 !! k = Some n1 ∧ (R n1 → R n2).
Proof.
  intros Hflags Hdown Hup (_ & _ & Hx & Hlk) Hn2.
  destruct (decide (k = x)) as [->|Hne]; [congruence|].
  specialize (Hlk k Hne). rewrite Hn2 in Hlk.
  inversion Hlk as [n1 ? (m & Ht & ->) Hn1|]; subst.
  exists n1. split; [done|]. intros HR. clear Hn2 Hlk.
  assert (R ((if decide (k ∈ upstreams_of g1 x)
              then DisconnectDownstream x else λ y, y) n1)) as Hm
    by (case_decide; auto).
  assert (R m) as Hm' by (destruct Ht as [->|[_ ->]]; auto).
  destruct (decide (k ∈ downstreams_of g1 x)); [by apply Hup|exact Hm'].
Qed.

Lemma add_effect_node_kept (R : @DependencyNode ModelConfig → Prop)
    x info g1 g2 k n1 :
  (∀ m s c, R m → R (set_flags s c m)) →
  add_effect x info g1 g2 → graph_ref_ g1 !! k = Some n1 → R n1 →
  ∃ n2, graph_ref_ g2 !! k = Some n2 ∧ R n2.
Proof.
  intros Hflags (_ & _ & Hlk) Hn1 HR. specialize (Hlk k). simpl in Hlk.
  rewrite try_insert_lookup, Hn1 in Hlk.
  inversion Hlk as [? n2 Ht|]; subst. exists n2. split; [done|].
  destruct Ht as [->|[_ ->]]; auto.
Qed.

(** X22. No call of a mutator writes the identifier, the loaded versions,
    the missing upstream names or the fuzzy-matched upstream names of a
    node that it keeps; [AddNodes] and [RemoveNodes] write neither the
    config nor [explicitly_load_] of a node they keep, and [UpdateNodes]
    writes them for the listed identifiers only. *)
Theorem mutators_keep_members (g g' : @Graph ModelConfig)
    (k : ModelIdentifier) (n n' : @DependencyNode ModelConfig) :
  graph_ref_ g !! k = Some n → graph_ref_ g' !! k = Some n' →
  (mutation g g' →
   model_id_ n' = model_id_ n ∧ loaded_versions_ n' = loaded_versions_ n ∧
   missing_upstreams_ n' = missing_upstreams_ n ∧
   fuzzy_matched_upstreams_ n' = fuzzy_matched_upstreams_ n) ∧
  (∀ ids mm r, AddNodes ids mm g = Ret (r, g') →
     model_config_ n' = model_config_ n ∧
     explicitly_load_ n' = explicitly_load_ n) ∧
  (∀ ids c r, RemoveNodes ids c g = Ret (r, g') →
     model_config_ n' = model_config_ n ∧
     explicitly_load_ n' = explicitly_load_ n) ∧
  (∀ ids mm r, UpdateNodes ids mm g = Ret (r, g') → k ∉ ids →
     model_config_ n' = model_config_ n ∧
     explicitly_load_ n' = explicitly_load_ n).
Proof.
  intros Hn Hn'.
  set (names := λ m : @DependencyNode ModelConfig,
    model_id_ m = model_id_ n ∧ loaded_versions_ m = loaded_versions_ n ∧
    missing_upstreams_ m = missing_upstreams_ n ∧
    fuzzy_matched_upstreams_ m = fuzzy_matched_upstreams_ n).
  set (config := λ m : @DependencyNode ModelConfig,
    model_config_ m = model_config_ n ∧
    explicitly_load_ m = explicitly_load_ n).
  assert (Hadd : ∀ (R : @DependencyNode ModelConfig → Prop) ids mm r,
    (∀ m s c, R m → R (set_flags s c m)) → R n →
    AddNodes ids mm g = Ret (r, g') → R n').
  { intros R ids mm r Hflags HR Hrun.
    assert (wpx always (AddNodes ids mm)
      (λ r g1, (∃ n1, graph_ref_ g1 !! k = Some n1 ∧ R n1) ∧
               nodes_of g1 = ids ∪ nodes_of g ∧ ids ⊆ r) g) as Hwp.
    { apply (wpx_AddNodes_inv always
        (λ g1, ∃ n1, graph_ref_ g1 !! k = Some n1 ∧ R n1));
        [|done|eauto|done].
      intros x info g1 g2 Heff (n1 & Hn1 & HR1).
      by eapply add_effect_node_kept. }
    destruct (wpx_ret_inv _ _ _ _ _ _ Hwp Hrun) as [(n1 & Hn1 & HR1) _].
    congruence. }
  assert (Hrem : ∀ (R : @DependencyNode ModelConfig → Prop) ids c r,
    (∀ m s c, R m → R (set_flags s c m)) →
    (∀ m d, R m → R (DisconnectDownstream d m)) →
    (∀ m u, R m → R (DisconnectUpstream u m)) → R n →
    RemoveNodes ids c g = Ret (r, g') → R n').
  { intros R ids c r Hflags Hdown Hup HR Hrun.
    assert (wpx always (RemoveNodes ids c)
      (λ r g1, (∀ n1, graph_ref_ g1 !! k = Some n1 → R n1) ∧
               r.1 = ∅ ∧ ids ⊆ r.2 ∧ nodes_of g1 = nodes_of g ∖ r.2) g)
      as Hwp.
    { apply (wpx_RemoveNodes_inv always
        (λ g1, ∀ n1, graph_ref_ g1 !! k = Some n1 → R n1));
        [|done|done|].
      - intros x g1 g2 Heff Hinv n2 Hn2.
        destruct (remove_effect_node_kept R _ _ _ _ _ Hflags Hdown Hup
                    Heff Hn2) as (n1 & Hn1 & Hkept).
        by apply Hkept, Hinv.
      - intros n1 Hn1. by simplify_eq. }
    destruct (wpx_ret_inv _ _ _ _ _ _ Hwp Hrun) as [Hinv _].
    by apply Hinv. }
  assert (Hupd : ∀ (R : @DependencyNode ModelConfig → Prop) ids mm r,
    (∀ m s c, R m → R (set_flags s c m)) →
    (∀ m d, R m → R (DisconnectDownstream d m)) →
    (k ∈ ids → ∀ m i, R m → R (refresh_node i m)) → R n →
    UpdateNodes ids mm g = Ret (r, g') → R n').
  { intros R ids mm r Hflags Hdown Hrefresh HR Hrun.
    apply (UpdateNodes_ind
      (λ _ g1, ∀ n1, graph_ref_ g1 !! k = Some n1 → R n1)) in Hrun
      as (Hinv & _); [by apply Hinv| |].
    - intros n1 Hn1. by simplify_eq.
    - intros updated x g1 info g2 _ Hx _ _ Hinv _ _ Heff _ _ _ n2 Hn2.
      destruct (update_effect_node_kept R x info g1 g2 k n2 Hflags Hdown)
        as (n1 & Hn1 & Hkept); [|done|done|by apply Hkept, Hinv].
      intros ->. by apply Hrefresh. }
  assert (Hnames : names n) by done.
  assert (Hconfig : config n) by done.
  split_and!.
  - intros [ids mm r Hrun|ids mm r Hrun|ids c r Hrun].
    + apply (Hadd names ids mm r); [|done..]. by intros ??? (?&?&?&?).
    + apply (Hupd names ids mm r); [| | |done..].
      * by intros ??? (?&?&?&?).
      * by intros ?? (?&?&?&?).
      * by intros _ ?? (?&?&?&?).
    + apply (Hrem names ids c r); [| | |done..].
      * by intros ??? (?&?&?&?).
      * by intros ?? (?&?&?&?).
      * by intros ?? (?&?&?&?).
  - intros ids mm r Hrun.
    apply (Hadd config ids mm r); [|done..]. by intros ??? (?&?).
  - intros ids c r Hrun.
    apply (Hrem config ids c r); [| | |done..].
    + by intros ??? (?&?).
    + by intros ?? (?&?).
    + by intros ?? (?&?).
  - intros ids mm r Hrun Hk.
    apply (Hupd config ids mm r); [| | |done..].
    + by intros ??? (?&?).
    + by intros ?? (?&?).
    + done.
Qed.

(** X23. [AddNodes] and [RemoveNodes] keep waiter reciprocity: when, before
    the call, a node misses a name exactly when it is registered as
    waiting for it, the same holds after the call. *)
Theorem waiter_reciprocity_add_remove (g g' : @Graph ModelConfig) :
  waiter_reciprocity g →
  (∀ ids mm r, AddNodes ids mm g = Ret (r, g') → waiter_reciprocity g') ∧
  (∀ ids c r, RemoveNodes ids c g = Ret (r, g') → waiter_reciprocity g').
Proof.
  intros Hrec. split.
  - intros ids mm r. by apply AddNodes_waiter_reciprocity.
  - intros ids c r. by apply RemoveNodes_waiter_reciprocity.
Qed.

End DependencyGraph_further.

(** * The example graph *)

Module ExampleRuns.
Import Example.

Lemma graph_well_formed : well_formed graph.
Proof. apply well_formed_b_true. vm_compute. reflexivity. Qed.

Lemma graph_waiter_reciprocity : waiter_reciprocity graph.
Proof. apply waiter_reciprocity_b_true. vm_compute. reflexivity. Qed.

Lemma graph_name_index_coverage : name_index_coverage graph.
Proof. apply name_index_coverage_b_true. vm_compute. reflexivity. Qed.

Lemma UpdateNodes_example :
  UpdateNodes {[E]} model_manager graph = Ret ({[E]}, updated_graph).
Proof. vm_compute. reflexivity. Qed.

Lemma RemoveNodes_example :
  RemoveNodes {[E]} true graph = Ret ((∅, {[A; E]}), removed_graph).
Proof. vm_compute. reflexivity. Qed.

Lemma AddNodes_example :
  AddNodes {[B]} model_manager graph = Ret ({[B; E]}, added_graph).
Proof. vm_compute. reflexivity. Qed.

(** Without the key the lookup of [UpdateNodes] and of [RemoveNode] for
    the missing upstream ["B"] of [E] fails and its result is dereferenced. *)
Lemma UpdateNodes_end_iterator :
  UpdateNodes {[E]} model_manager unregistered_graph = Stop EndIterator.
Proof. vm_compute. reflexivity. Qed.

Lemma RemoveNode_end_iterator :
  RemoveNode E unregistered_graph = Stop EndIterator.
Proof. vm_compute. reflexivity. Qed.

Lemma cascade_graph_well_formed : well_formed cascade_graph.
Proof. apply well_formed_b_true. vm_compute. reflexivity. Qed.

Lemma RemoveNodes_cascade_example :
  RemoveNodes {[E]} true cascade_graph
    = Ret ((∅, {[E; Pre; Tok]}), cascade_survivors).
Proof. vm_compute. reflexivity. Qed.

End ExampleRuns.

(** * The duplicate-repository reason *)

(** C8. With namespacing disabled, the reason reported for a model name
    that appears in two or more repositories is exactly the literal
    ["model appears in two or more repositories"]. *)
Theorem duplicate_reason_literal (repositories : list (list string))
    (name : string) :
  2 ≤ repositories_with name repositories →
  poll_reason false repositories name
    = Some "model appears in two or more repositories".
Proof.
  intros Hdup. unfold poll_reason. by rewrite decide_True.
Qed.

Lemma duplicate_reason_literal_witness :
  2 ≤ repositories_with "A" [["A"]; ["A"; "B"]] ∧
  poll_reason false [["A"]; ["A"; "B"]] "A"
    = Some "model appears in two or more repositories".
Proof.
  assert (H : 2 ≤ repositories_with "A" [["A"]; ["A"; "B"]])
    by (vm_compute; lia).
  split; [exact H|]. exact (duplicate_reason_literal _ _ H).
Defined.

(** * Counterexamples and instances on the example graph *)

Module Instances.
Import Example ExampleRuns.

(** C1, as stated, fails: the example graph has waiter reciprocity, and
    after [UpdateNodes {E}] the node [E] still misses ["B"] while it is no
    longer registered in [waiters["B"]]. *)
Lemma waiter_reciprocity_not_preserved :
  waiter_reciprocity graph ∧
  ∃ r g', UpdateNodes {[E]} model_manager graph = Ret (r, g') ∧
          "B" ∈ missing_of g' E ∧ (E ∉ waiters_of g' "B") ∧
          ¬ waiter_reciprocity g'.
Proof.
  split; [exact graph_waiter_reciprocity|].
  exists {[E]}, updated_graph. split; [exact UpdateNodes_example|].
  assert (H1 : "B" ∈ missing_of updated_graph E)
    by (apply (bool_decide_unpack _); vm_compute; exact I).
  assert (H2 : E ∉ waiters_of updated_graph "B")
    by (apply (bool_decide_unpack _); vm_compute; exact I).
  split_and!; [done..|]. intros Hrec. by apply H2, Hrec.
Qed.

(** C2, as stated, fails: after [UpdateNodes {E}] the missing and the
    fuzzy-matched upstream names of [E] are not empty. *)
Lemma UpdateNodes_keeps_names :
  E ∈ ({[E]} : gset ModelIdentifier) ∧ E ∈ nodes_of graph ∧
  ∃ r g' n', UpdateNodes {[E]} model_manager graph = Ret (r, g') ∧
             graph_ref_ g' !! E = Some n' ∧
             missing_upstreams_ n' ≠ ∅ ∧
             fuzzy_matched_upstreams_ n' ≠ ∅.
Proof.
  split; [set_solver|].
  split; [apply (bool_decide_unpack _); vm_compute; exact I|].
  eexists {[E]}, updated_graph, _.
  split; [exact UpdateNodes_example|].
  split; [vm_compute; reflexivity|].
  split; apply (bool_decide_unpack _); vm_compute; exact I.
Qed.

(** C3, as stated, fails: the example graph has name index coverage, and
    after [AddNodes {B}] the identifier [B] is a key of the nodes map but
    not a member of [by_name["B"]]. *)
Lemma AddNodes_skips_by_name :
  name_index_coverage graph ∧
  ∃ r g', AddNodes {[B]} model_manager graph = Ret (r, g') ∧
          B ∈ nodes_of g' ∧ (B ∉ by_name_of g' (name_ B)) ∧
          ¬ name_index_coverage g'.
Proof.
  split; [exact graph_name_index_coverage|].
  exists {[B; E]}, added_graph. split; [exact AddNodes_example|].
  assert (H1 : B ∈ nodes_of added_graph)
    by (apply (bool_decide_unpack _); vm_compute; exact I).
  assert (H2 : B ∉ by_name_of added_graph (name_ B))
    by (apply (bool_decide_unpack _); vm_compute; exact I).
  split_and!; [done..|]. intros Hcov. by apply H2, Hcov.
Qed.

End Instances.

(** * The theorems at the example graph *)

Module Witnesses.
Import Example ExampleRuns.

Lemma edge_reciprocity_reachable_witness :
  edge_reciprocity graph ∧ reachable graph added_graph ∧
  (edge_reciprocity added_graph ∧
   ∀ kn n ku u,
     graph_ref_ added_graph !! kn = Some n →
     graph_ref_ added_graph !! ku = Some u →
     (ku ∈ dom (upstreams_ n) ↔ kn ∈ downstreams_ u)).
Proof.
  assert (H0 : edge_reciprocity graph) by exact (proj1 graph_well_formed).
  assert (Hr : reachable graph added_graph)
    by (apply rtc_once; eapply mutation_add; exact AddNodes_example).
  split; [exact H0|]. split; [exact Hr|].
  exact (edge_reciprocity_reachable graph added_graph H0 Hr).
Defined.

Lemma waiters_registered_reachable_witness :
  waiters_registered graph ∧ reachable graph updated_graph ∧
  waiters_registered updated_graph.
Proof.
  assert (H0 : waiters_registered graph)
    by exact (λ n name, proj2 (graph_waiter_reciprocity n name)).
  assert (Hr : reachable graph updated_graph)
    by (apply rtc_once; eapply mutation_update; exact UpdateNodes_example).
  split; [exact H0|]. split; [exact Hr|].
  exact (waiters_registered_reachable graph updated_graph H0 Hr).
Defined.

Lemma by_name_untouched_witness :
  nodes_of added_graph = {[B]} ∪ nodes_of graph ∧
  global_map_ref_ added_graph = global_map_ref_ graph.
Proof.
  exact (proj1 by_name_untouched _ _ _ _ _ AddNodes_example).
Defined.

Lemma model_manager_total id :
  id ∈ ({[E]} : gset ModelIdentifier) → id ∈ nodes_of graph →
  is_Some (model_manager id).
Proof. intros _ _. unfold model_manager. eauto. Qed.

Lemma UpdateNodes_refreshes_witness :
  well_formed graph ∧
  (∀ id, id ∈ ({[E]} : gset ModelIdentifier) → id ∈ nodes_of graph →
         is_Some (model_manager id)) ∧
  (∃ r g', UpdateNodes {[E]} model_manager graph = Ret (r, g')) ∧
  ∃ info n',
    model_manager E = Some info ∧
    graph_ref_ updated_graph !! E = Some n' ∧
    upstreams_ n' = ∅ ∧
    model_config_ n' = info_model_config_ info ∧
    explicitly_load_ n' = info_explicitly_load_ info ∧
    checked_ n' = false ∧ status_ n' = Success ∧
    missing_upstreams_ n' = missing_upstreams_ node_E ∧
    fuzzy_matched_upstreams_ n' = fuzzy_matched_upstreams_ node_E.
Proof.
  destruct (UpdateNodes_refreshes {[E]} model_manager graph)
    as [Hnodes Hreturns].
  split; [exact graph_well_formed|]. split; [exact model_manager_total|].
  split; [exact (Hreturns graph_well_formed model_manager_total)|].
  apply (Hnodes _ _ UpdateNodes_example E node_E); [set_solver|reflexivity].
Defined.

Lemma RemoveNodes_disjoint_witness :
  well_formed graph ∧
  RemoveNodes {[E]} true graph = Ret ((∅, {[A; E]}), removed_graph) ∧
  (∅ : gset ModelIdentifier) ## ({[A; E]} : gset ModelIdentifier) ∧
  ∃ affected removed g',
    RemoveNodes {[E]} true graph = Ret ((affected, removed), g').
Proof.
  split; [exact graph_well_formed|]. split; [exact RemoveNodes_example|].
  destruct (RemoveNodes_disjoint {[E]} true graph) as [Hdisjoint Hreturns].
  split.
  - exact (Hdisjoint _ _ _ RemoveNodes_example).
  - exact (Hreturns graph_well_formed).
Defined.

Lemma RemoveNodes_reports_input_witness :
  well_formed graph ∧ (B ∉ nodes_of graph) ∧
  RemoveNode B graph = Ret ((∅, ∅), graph) ∧
  ∃ affected removed g',
    RemoveNodes {[B; E]} false graph = Ret ((affected, removed), g') ∧
    {[B; E]} ⊆ removed ∧ B ∈ removed.
Proof.
  assert (HB : B ∉ nodes_of graph)
    by (apply (bool_decide_unpack _); vm_compute; exact I).
  destruct (RemoveNodes_reports_input {[B; E]} false graph)
    as (Habsent & Hreported & Hreturns).
  split; [exact graph_well_formed|]. split; [exact HB|].
  split; [exact (Habsent B HB)|].
  destruct (Hreturns graph_well_formed) as (aff & rem & g' & Hrun).
  exists aff, rem, g'. split; [exact Hrun|].
  destruct (Hreported _ _ _ Hrun) as [Hsub Hin].
  split; [exact Hsub|]. apply Hin; [set_solver|exact HB].
Defined.

Lemma cascading_removal_witness :
  well_formed cascade_graph ∧ E ∈ nodes_of cascade_graph ∧
  (∃ g' queued,
     RemoveNode E cascade_graph
       = Ret ((upstreams_of cascade_graph E, ∅), g') ∧
     RemoveNodes_body true (∅, ∅, ∅) E cascade_graph
       = Ret ((queued ∪ ∅, ∅ ∖ {[E]}, {[E]} ∪ ∅), g') ∧
     ∀ u, u ∈ queued ↔
          u ∈ upstreams_of cascade_graph E ∧ u ∈ nodes_of g' ∧
          downstreams_of g' u = ∅ ∧ explicit_of g' u = false) ∧
  RemoveNodes {[E]} true cascade_graph
    = Ret ((∅, {[E; Pre; Tok]}), cascade_survivors) ∧
  nodes_of cascade_survivors = {[Cls; Det; Ens]} ∧
  ∃ affected removed g',
    RemoveNodes {[E]} true cascade_graph = Ret ((affected, removed), g') ∧
    {[E]} ⊆ removed ∧
    nodes_of g' = nodes_of cascade_graph ∖ removed ∧
    (∀ u, u ∈ removed ↔ cascaded cascade_graph {[E]} u) ∧
    (∀ u, u ∈ removed → u ∉ ({[E]} : gset ModelIdentifier) →
          u ∈ nodes_of cascade_graph ∧ explicit_of cascade_graph u = false ∧
          downstreams_of cascade_graph u ≠ ∅ ∧
          downstreams_of cascade_graph u ⊆ removed) ∧
    (∀ u, u ∈ nodes_of g' →
          explicit_of g' u = explicit_of cascade_graph u ∧
          ∀ d, d ∈ downstreams_of g' u ↔
               d ∈ downstreams_of cascade_graph u ∧ d ∈ nodes_of g') ∧
    (∀ u d, d ∈ downstreams_of cascade_graph u → d ∉ nodes_of g' →
            u ∈ nodes_of g' → explicit_of cascade_graph u = false →
            downstreams_of g' u ≠ ∅) ∧
    (∀ model_id r g1,
       model_id ∈ ({[E]} : gset ModelIdentifier) →
       RemoveNodes_body true (∅, ∅, ∅) model_id cascade_graph
         = Ret (r, g1) →
       r.1.1 ⊆ removed).
Proof.
  assert (HE : E ∈ nodes_of cascade_graph)
    by (apply (bool_decide_unpack _); vm_compute; exact I).
  destruct (cascading_removal {[E]} cascade_graph cascade_graph_well_formed)
    as [Hqueue Hcascade].
  split; [exact cascade_graph_well_formed|]. split; [exact HE|].
  split; [exact (Hqueue E ∅ ∅ ∅ HE)|].
  split; [exact RemoveNodes_cascade_example|].
  split; [vm_compute; reflexivity|exact Hcascade].
Defined.

Lemma waiter_lookup_succeeds_witness :
  waiter_keys graph ∧
  (∀ id node, graph_ref_ graph !! id = Some node →
     ∃ g', for_each (elements (missing_upstreams_ node)) (erase_waiter id)
             graph = Ret (tt, g')) ∧
  (∀ ids mm, UpdateNodes ids mm graph ≠ Stop EndIterator) ∧
  (∀ id, RemoveNode id graph ≠ Stop EndIterator).
Proof.
  assert (H0 : waiter_keys graph)
    by exact (proj1 (proj2 graph_well_formed)).
  split; [exact H0|]. exact (waiter_lookup_succeeds graph H0).
Defined.

Lemma FindNode_spec_witness :
  node_at graph (FindNode (ModelId "ns1" "A") true graph) = Some node_A ∧
  FindNode (ModelId "ns1" "A") false graph = None.
Proof.
  destruct (FindNode_spec (ModelId "ns1" "A") true graph) as (_ & Hfuzzy & _).
  destruct (FindNode_spec (ModelId "ns1" "A") false graph) as (_ & _ & Hnone).
  split.
  - rewrite (Hfuzzy {[A]} A); [reflexivity..|set_solver].
  - apply Hnone; [reflexivity|by left].
Defined.

End Witnesses.

(** * The further results at the example graphs *)

Module FurtherRuns.
Import Example ExampleRuns.

Lemma graph_uncheck_closed : uncheck_closed graph.
Proof. apply uncheck_closed_b_true. vm_compute. reflexivity. Qed.

Lemma cascade_graph_uncheck_closed : uncheck_closed cascade_graph.
Proof. apply uncheck_closed_b_true. vm_compute. reflexivity. Qed.

Lemma graph_waiters_registered : waiters_registered graph.
Proof. exact (λ n name, proj2 (graph_waiter_reciprocity n name)). Qed.

Lemma UncheckDownstream_example :
  UncheckDownstream {[Pre]} cascade_graph = Ret (tt, unchecked_cascade_graph).
Proof. vm_compute. reflexivity. Qed.

Lemma cascade_graph_down_closed : down_closed cascade_graph {[Pre]}.
Proof.
  split.
  - apply (bool_decide_unpack _). vm_compute. exact I.
  - apply edge_reciprocity_valid, cascade_graph_well_formed.
Qed.

Lemma FindNode_fuzzy_example : FindNode (ModelId "ns1" "A") true graph = Some A.
Proof. vm_compute. reflexivity. Qed.

Lemma graph_reaches_updated_graph : reachable graph updated_graph.
Proof. apply rtc_once. eapply mutation_update. exact UpdateNodes_example. Qed.

Lemma model_manager_finds (ids : gset ModelIdentifier) id :
  id ∈ ids → is_Some (model_manager id).
Proof. intros _. unfold model_manager. eauto. Qed.

End FurtherRuns.

Module FurtherWitnesses.
Import Example ExampleRuns FurtherRuns.

Lemma UncheckDownstream_unchecks_witness :
  down_closed cascade_graph {[Pre]} ∧
  ∃ g', UncheckDownstream {[Pre]} cascade_graph = Ret (tt, g') ∧
        global_map_ref_ g' = global_map_ref_ cascade_graph ∧
        missing_nodes_ref_ g' = missing_nodes_ref_ cascade_graph ∧
        nodes_of g' = nodes_of cascade_graph ∧
        (∀ k n', graph_ref_ g' !! k = Some n' →
           ∃ n, graph_ref_ cascade_graph !! k = Some n ∧
                (n' = n ∨ (checked_ n = true ∧
                           n' = set_flags Success false n))) ∧
        ∀ p, p ∈ ({[Pre]} : gset ModelIdentifier) → checked_of g' p = false.
Proof.
  split; [exact cascade_graph_down_closed|].
  exact (UncheckDownstream_unchecks {[Pre]} cascade_graph
           cascade_graph_down_closed).
Defined.

Lemma UncheckDownstream_propagates_witness :
  UncheckDownstream {[Pre]} cascade_graph = Ret (tt, unchecked_cascade_graph) ∧
  uncheck_closed cascade_graph ∧
  checked_of unchecked_cascade_graph E = false ∧
  uncheck_closed unchecked_cascade_graph.
Proof.
  destruct (UncheckDownstream_propagates {[Pre]} cascade_graph
              unchecked_cascade_graph UncheckDownstream_example)
    as [Hprop Hclosed].
  split; [exact UncheckDownstream_example|].
  split; [exact cascade_graph_uncheck_closed|].
  split; [|exact (Hclosed cascade_graph_uncheck_closed)].
  apply (Hprop Pre E); [|reflexivity..].
  apply (bool_decide_unpack _). vm_compute. exact I.
Defined.

Lemma UncheckDownstream_idempotent_witness :
  UncheckDownstream {[Pre]} cascade_graph = Ret (tt, unchecked_cascade_graph) ∧
  UncheckDownstream {[Pre]} unchecked_cascade_graph
    = Ret (tt, unchecked_cascade_graph) ∧
  UncheckDownstream ∅ cascade_graph = Ret (tt, cascade_graph).
Proof.
  split; [exact UncheckDownstream_example|]. split.
  - exact (proj2 (UncheckDownstream_idempotent {[Pre]} cascade_graph)
             _ UncheckDownstream_example).
  - apply (proj1 (UncheckDownstream_idempotent ∅ cascade_graph)).
    intros p Hp. by apply not_elem_of_empty in Hp.
Defined.

Lemma UncheckDownstream_dangling_witness :
  B ∈ ({[B]} : gset ModelIdentifier) ∧ (B ∉ nodes_of graph) ∧
  UncheckDownstream {[B]} graph = Stop DanglingNode.
Proof.
  assert (H1 : B ∈ ({[B]} : gset ModelIdentifier))
    by (apply (bool_decide_unpack _); vm_compute; exact I).
  assert (H2 : B ∉ nodes_of graph)
    by (apply (bool_decide_unpack _); vm_compute; exact I).
  split; [exact H1|]. split; [exact H2|].
  exact (UncheckDownstream_dangling {[B]} B graph H1 H2).
Defined.

Lemma FindNode_sound_witness :
  FindNode (ModelId "ns1" "A") true graph = Some A ∧
  A ∈ nodes_of graph ∧
  (A ≠ ModelId "ns1" "A" →
   true = true ∧ (ModelId "ns1" "A" ∉ nodes_of graph) ∧
   global_map_ref_ graph !! name_ (ModelId "ns1" "A") = Some {[A]}) ∧
  (ModelId "ns1" "A" ∈ nodes_of graph → A = ModelId "ns1" "A") ∧
  (true = false → FindNode (ModelId "ns1" "A") true graph = Some A).
Proof.
  split; [exact FindNode_fuzzy_example|].
  exact (FindNode_sound _ _ _ _ FindNode_fuzzy_example).
Defined.

Lemma RemoveNode_unlinks_witness :
  well_formed graph ∧ waiters_registered graph ∧ E ∈ nodes_of graph ∧
  ∃ g', RemoveNode E graph = Ret ((upstreams_of graph E, ∅), g') ∧
        nodes_of g' = nodes_of graph ∖ {[E]} ∧
        global_map_ref_ g' = global_map_ref_ graph ∧
        (∀ name, waiters_of g' name = waiters_of graph name ∖ {[E]}) ∧
        (∀ k, k ≠ E →
              upstreams_of g' k = upstreams_of graph k ∖ {[E]} ∧
              downstreams_of g' k = downstreams_of graph k ∖ {[E]} ∧
              missing_of g' k = missing_of graph k).
Proof.
  assert (HE : E ∈ nodes_of graph)
    by (apply (bool_decide_unpack _); vm_compute; exact I).
  split; [exact graph_well_formed|].
  split; [exact graph_waiters_registered|]. split; [exact HE|].
  exact (RemoveNode_unlinks E graph graph_well_formed
           graph_waiters_registered HE).
Defined.

Lemma RemoveNodes_affected_empty_witness :
  RemoveNodes {[E]} true cascade_graph
    = Ret ((∅, {[E; Pre; Tok]}), cascade_survivors) ∧
  (∅ : gset ModelIdentifier) = ∅.
Proof.
  split; [exact RemoveNodes_cascade_example|].
  exact (proj2 RemoveNodes_affected_empty _ _ _ _ _ _
           RemoveNodes_cascade_example).
Defined.

Lemma RemoveNodes_without_cascade_witness :
  ∃ affected removed g',
    RemoveNodes {[E]} false cascade_graph = Ret ((affected, removed), g') ∧
    removed = {[E]} ∧ nodes_of g' = nodes_of cascade_graph ∖ {[E]}.
Proof.
  destruct (RemoveNodes_total {[E]} false cascade_graph
              cascade_graph_well_formed) as (aff & rem & g' & Hrun & _).
  exists aff, rem, g'. split; [exact Hrun|].
  exact (RemoveNodes_without_cascade _ _ _ _ _ Hrun).
Defined.

Lemma RemoveNodes_absent_witness :
  ({[B]} : gset ModelIdentifier) ## nodes_of graph ∧
  RemoveNodes {[B]} true graph = Ret ((∅, {[B]}), graph).
Proof.
  assert (H : ({[B]} : gset ModelIdentifier) ## nodes_of graph)
    by (apply (bool_decide_unpack _); vm_compute; exact I).
  split; [exact H|]. exact (RemoveNodes_absent {[B]} true graph H).
Defined.

Lemma UpdateNodes_result_witness :
  UpdateNodes {[E]} model_manager graph = Ret ({[E]}, updated_graph) ∧
  ({[E]} : gset ModelIdentifier) = {[E]} ∩ nodes_of graph ∧
  nodes_of updated_graph = nodes_of graph ∧
  ({[B]} : gset ModelIdentifier) ## nodes_of graph ∧
  UpdateNodes {[B]} no_model_info graph = Ret (∅, graph).
Proof.
  assert (H : ({[B]} : gset ModelIdentifier) ## nodes_of graph)
    by (apply (bool_decide_unpack _); vm_compute; exact I).
  split; [exact UpdateNodes_example|].
  destruct (proj1 (UpdateNodes_result {[E]} model_manager graph) _ _
              UpdateNodes_example) as [H1 H2].
  split; [exact H1|]. split; [exact H2|]. split; [exact H|].
  exact (proj2 (UpdateNodes_result {[B]} no_model_info graph) H).
Defined.

Lemma UpdateNodes_edges_witness :
  edge_reciprocity graph ∧
  UpdateNodes {[E]} model_manager graph = Ret ({[E]}, updated_graph) ∧
  ∀ k, upstreams_of updated_graph k
         = (if decide (k ∈ ({[E]} : gset ModelIdentifier)) then ∅
            else upstreams_of graph k) ∧
       downstreams_of updated_graph k = downstreams_of graph k ∖ {[E]}.
Proof.
  split; [exact (proj1 graph_well_formed)|].
  split; [exact UpdateNodes_example|].
  exact (UpdateNodes_edges _ _ _ _ _ (proj1 graph_well_formed)
           UpdateNodes_example).
Defined.

Lemma UpdateNodes_waiters_witness :
  waiters_registered graph ∧
  UpdateNodes {[E]} model_manager graph = Ret ({[E]}, updated_graph) ∧
  dom (missing_nodes_ref_ updated_graph) = dom (missing_nodes_ref_ graph) ∧
  ∀ name, waiters_of updated_graph name = waiters_of graph name ∖ {[E]}.
Proof.
  split; [exact graph_waiters_registered|].
  split; [exact UpdateNodes_example|].
  exact (UpdateNodes_waiters _ _ _ _ _ graph_waiters_registered
           UpdateNodes_example).
Defined.

Lemma UpdateNodes_unchecks_witness :
  uncheck_closed cascade_graph ∧
  ∃ r g', UpdateNodes {[Tok]} model_manager cascade_graph = Ret (r, g') ∧
          (∀ k, k ∈ r →
                checked_of g' k = false ∧
                ∀ d, d ∈ downstreams_of g' k → checked_of g' d = false) ∧
          ∀ k d, k ∈ r → rtc (λ a b, b ∈ downstreams_of g' a) k d →
                 checked_of g' d = false.
Proof.
  split; [exact cascade_graph_uncheck_closed|].
  destruct (UpdateNodes_total {[Tok]} model_manager cascade_graph
              cascade_graph_well_formed
              (λ id Hid _, model_manager_finds {[Tok]} id Hid))
    as (r & g' & Hrun & _).
  exists r, g'. split; [exact Hrun|].
  destruct (UpdateNodes_unchecks _ _ _ _ _ Hrun) as [H1 H2].
  split; [exact H1|exact (H2 cascade_graph_uncheck_closed)].
Defined.

Lemma AddNodes_nodes_witness :
  AddNodes {[B]} model_manager graph = Ret ({[B; E]}, added_graph) ∧
  ∀ k, match graph_ref_ graph !! k with
       | Some n => ∃ n', graph_ref_ added_graph !! k = Some n' ∧ touched n n'
       | None => graph_ref_ added_graph !! k =
                   if decide (k ∈ ({[B]} : gset ModelIdentifier))
                   then added_node k <$> model_manager k else None
       end.
Proof.
  split; [exact AddNodes_example|].
  exact (AddNodes_nodes _ _ _ _ _ AddNodes_example).
Defined.

Lemma AddNodes_result_witness :
  AddNodes {[B]} model_manager graph = Ret ({[B; E]}, added_graph) ∧
  (∀ d, d ∈ ({[B; E]} : gset ModelIdentifier) ↔
        d ∈ ({[B]} : gset ModelIdentifier) ∨
        (d ∈ nodes_of graph ∧
         ∃ id, id ∈ ({[B]} : gset ModelIdentifier) ∧
               d ∈ waiters_of graph (name_ id))) ∧
  (∀ d id, id ∈ ({[B]} : gset ModelIdentifier) →
           d ∈ waiters_of graph (name_ id) → d ∈ nodes_of graph →
           checked_of added_graph d = false).
Proof.
  split; [exact AddNodes_example|].
  exact (AddNodes_result _ _ _ _ _ AddNodes_example).
Defined.

Lemma AddNodes_connects_nothing_witness :
  AddNodes {[B]} model_manager graph = Ret ({[B; E]}, added_graph) ∧
  missing_nodes_ref_ added_graph = missing_nodes_ref_ graph ∧
  ∀ k, upstreams_of added_graph k = upstreams_of graph k ∧
       downstreams_of added_graph k = downstreams_of graph k ∧
       missing_of added_graph k = missing_of graph k.
Proof.
  split; [exact AddNodes_example|].
  exact (AddNodes_connects_nothing _ _ _ _ _ AddNodes_example).
Defined.

Lemma FindNode_after_mutation_witness :
  (∀ b, FindNode B b added_graph = Some B) ∧
  (FindNode E false removed_graph = None ∧
   ∀ id' b, FindNode id' b removed_graph ≠ Some E) ∧
  (∀ id b, FindNode id b updated_graph = FindNode id b graph).
Proof.
  destruct (FindNode_after_mutation graph) as (Hadd & Hrem & Hupd).
  split; [|split].
  - intros b. apply (Hadd _ _ _ _ B b AddNodes_example).
    apply (bool_decide_unpack _). vm_compute. exact I.
  - apply (Hrem _ _ _ _ _ E RemoveNodes_example).
    apply (bool_decide_unpack _). vm_compute. exact I.
  - intros id b. exact (Hupd _ _ _ _ id b UpdateNodes_example).
Defined.

Lemma null_model_info_stops_witness :
  well_formed graph ∧ E ∈ ({[E]} : gset ModelIdentifier) ∧
  no_model_info E = None ∧
  AddNodes {[E]} no_model_info graph = Stop NullModelInfo ∧
  (E ∈ nodes_of graph →
   UpdateNodes {[E]} no_model_info graph = Stop NullModelInfo).
Proof.
  assert (H : E ∈ ({[E]} : gset ModelIdentifier))
    by (apply (bool_decide_unpack _); vm_compute; exact I).
  split; [exact graph_well_formed|]. split; [exact H|].
  split; [reflexivity|].
  exact (null_model_info_stops graph {[E]} no_model_info E
           graph_well_formed H eq_refl).
Defined.

Lemma reachable_calls_return_witness :
  well_formed graph ∧ reachable graph updated_graph ∧
  (∀ ids c, ∃ r g', RemoveNodes ids c updated_graph = Ret (r, g')) ∧
  (∀ ds, ds ⊆ nodes_of updated_graph →
         ∃ g', UncheckDownstream ds updated_graph = Ret (tt, g')) ∧
  (∀ ids mm, (∀ id, id ∈ ids → is_Some (mm id)) →
             ∃ r g', AddNodes ids mm updated_graph = Ret (r, g')) ∧
  (∀ ids mm,
     (∀ id, id ∈ ids → id ∈ nodes_of updated_graph → is_Some (mm id)) →
     ∃ r g', UpdateNodes ids mm updated_graph = Ret (r, g')) ∧
  (∀ ids mm s, AddNodes ids mm updated_graph = Stop s →
               s = NullModelInfo) ∧
  (∀ ids mm s, UpdateNodes ids mm updated_graph = Stop s →
               s = NullModelInfo).
Proof.
  split; [exact graph_well_formed|].
  split; [exact graph_reaches_updated_graph|].
  exact (reachable_calls_return graph updated_graph graph_well_formed
           graph_reaches_updated_graph).
Defined.

Lemma uncheck_closed_reachable_witness :
  uncheck_closed graph ∧ reachable graph updated_graph ∧
  uncheck_closed updated_graph.
Proof.
  split; [exact graph_uncheck_closed|].
  split; [exact graph_reaches_updated_graph|].
  exact (uncheck_closed_reachable graph updated_graph graph_uncheck_closed
           graph_reaches_updated_graph).
Defined.

Lemma mutators_only_disconnect_witness :
  reachable graph updated_graph ∧
  ∀ k, downstreams_of updated_graph k ⊆ downstreams_of graph k ∧
       upstreams_of updated_graph k ⊆ upstreams_of graph k ∧
       (checked_of graph k = false → checked_of updated_graph k = false).
Proof.
  split; [exact graph_reaches_updated_graph|].
  exact (mutators_only_disconnect graph updated_graph
           graph_reaches_updated_graph).
Defined.

Lemma mutators_keep_members_witness :
  graph_ref_ graph !! A = Some node_A ∧
  graph_ref_ updated_graph !! A = Some (set_downstreams ∅ node_A) ∧
  mutation graph updated_graph ∧
  model_id_ (set_downstreams ∅ node_A) = model_id_ node_A ∧
  loaded_versions_ (set_downstreams ∅ node_A) = loaded_versions_ node_A ∧
  missing_upstreams_ (set_downstreams ∅ node_A) = missing_upstreams_ node_A ∧
  fuzzy_matched_upstreams_ (set_downstreams ∅ node_A)
    = fuzzy_matched_upstreams_ node_A ∧
  (A ∉ ({[E]} : gset ModelIdentifier)) ∧
  model_config_ (set_downstreams ∅ node_A) = model_config_ node_A ∧
  explicitly_load_ (set_downstreams ∅ node_A) = explicitly_load_ node_A.
Proof.
  assert (H1 : graph_ref_ graph !! A = Some node_A) by reflexivity.
  assert (H2 : graph_ref_ updated_graph !! A = Some (set_downstreams ∅ node_A))
    by reflexivity.
  assert (H3 : mutation graph updated_graph)
    by (eapply mutation_update; exact UpdateNodes_example).
  assert (H4 : A ∉ ({[E]} : gset ModelIdentifier))
    by (apply (bool_decide_unpack _); vm_compute; exact I).
  destruct (mutators_keep_members graph updated_graph A node_A _ H1 H2)
    as (Hnames & _ & _ & Hconfig).
  split; [exact H1|]. split; [exact H2|]. split; [exact H3|].
  destruct (Hnames H3) as (? & ? & ? & ?).
  destruct (Hconfig _ _ _ UpdateNodes_example H4) as [? ?].
  by split_and!.
Defined.

Lemma waiter_reciprocity_add_remove_witness :
  waiter_reciprocity graph ∧
  AddNodes {[B]} model_manager graph = Ret ({[B; E]}, added_graph) ∧
  waiter_reciprocity added_graph.
Proof.
  split; [exact graph_waiter_reciprocity|].
  split; [exact AddNodes_example|].
  exact (proj1 (waiter_reciprocity_add_remove graph added_graph
                  graph_waiter_reciprocity) _ _ _ AddNodes_example).
Defined.




End FurtherWitnesses.
